(** * ShellSplit: a quote-aware, predicate-driven field splitter

    A shallow embedding of [main.go] (package [main] of hclihn/ShellSplit):
    [ShellSplit], [ShellSplitEx] with its three closures [skipSplitCh],
    [findEndQuote] and [findSplitCh], and [ParseBootConfig].

    Conventions.
    - A Go [string] is a [string] (a sequence of 8-bit characters); the
      slice [b := []byte(s)] is a [list ascii].
    - A [rune] is an integer [Z]; [utf8.RuneError] is [0xFFFD].
    - The closures of [ShellSplitEx] share the mutable cursor [idx]: each
      closure takes the cursor and returns the Go [error] together with the
      cursor it leaves behind.
    - Every [for idx < l] loop is a [Fixpoint] on a fuel argument; a result
      [None] means that the fuel ran out.  [ShellSplitEx_terminates] shows
      that this never happens for the fuel the entry points provide.
    - A Go result [([]string, error)] is a pair whose first component is
      [None] for the [nil] slice and whose second component is a value of
      the interface type [error], [err_nil] for [nil]. *)

From Stdlib Require Import ZArith NArith Lia Bool Ascii String List Zbitwise.
Import ListNotations.

Local Open Scope Z_scope.

(** ** Bytes and runes *)

Definition rune := Z.

Definition byteZ (c : ascii) : Z := Z.of_N (N_of_ascii c).

(** [p[i]]; the source only indexes inside the slice. *)
Definition byteAt (p : list ascii) (i : nat) : Z := byteZ (nth i p zero).

(** [b[lo:hi]], for [lo <= hi <= len(b)]. *)
Definition slice (p : list ascii) (lo hi : nat) : list ascii :=
  firstn (hi - lo) (skipn lo p).

(** The double quote, the single quote and the backslash. *)
Definition quote_dbl : rune := 34.
Definition quote_sgl : rune := 39.
Definition backslash : rune := 92.

(** ** Package unicode/utf8 *)

Module utf8.

Definition RuneError : rune := 0xFFFD.
Definition RuneSelf : Z := 0x80.
Definition UTFMax : nat := 4.

Definition maskx : Z := 0x3F.
Definition mask2 : Z := 0x1F.
Definition mask3 : Z := 0x0F.
Definition mask4 : Z := 0x07.
Definition locb : Z := 0x80.
Definition hicb : Z := 0xBF.

Definition xx : Z := 0xF1.
Definition as_ : Z := 0xF0.
Definition s1 : Z := 0x02.
Definition s2 : Z := 0x13.
Definition s3 : Z := 0x03.
Definition s4 : Z := 0x23.
Definition s5 : Z := 0x34.
Definition s6 : Z := 0x04.
Definition s7 : Z := 0x44.

(** The table [first], read by ranges of the leading byte. *)
Definition first (p0 : Z) : Z :=
  if p0 <? 0x80 then as_
  else if p0 <? 0xC2 then xx
  else if p0 <? 0xE0 then s1
  else if p0 =? 0xE0 then s2
  else if p0 <? 0xED then s3
  else if p0 =? 0xED then s4
  else if p0 <? 0xF0 then s3
  else if p0 =? 0xF0 then s5
  else if p0 <? 0xF4 then s6
  else if p0 =? 0xF4 then s7
  else xx.

(** The table [acceptRanges]: bounds of the second byte. *)
Definition acceptRanges (i : Z) : Z * Z :=
  if i =? 0 then (locb, hicb)
  else if i =? 1 then (0xA0, hicb)
  else if i =? 2 then (locb, 0x9F)
  else if i =? 3 then (0x90, hicb)
  else if i =? 4 then (locb, 0x8F)
  else (0, 0).

Definition DecodeRune (p : list ascii) : rune * nat :=
  let n := length p in
  if (n <? 1)%nat then (RuneError, 0%nat)
  else
    let p0 := byteAt p 0 in
    let x := first p0 in
    if x >=? as_ then
      (* mask := rune(x) << 31 >> 31 : all ones iff the low bit of x is set *)
      let mask := - Z.land x 1 in
      (Z.lor (Z.land p0 (Z.lnot mask)) (Z.land RuneError mask), 1%nat)
    else
      let sz := Z.to_nat (Z.land x 7) in
      let accept := acceptRanges (Z.shiftr x 4) in
      if (n <? sz)%nat then (RuneError, 1%nat)
      else
        let b1 := byteAt p 1 in
        if (b1 <? fst accept) || (snd accept <? b1) then (RuneError, 1%nat)
        else if (sz <=? 2)%nat then
          (Z.lor (Z.shiftl (Z.land p0 mask2) 6) (Z.land b1 maskx), 2%nat)
        else
          let b2 := byteAt p 2 in
          if (b2 <? locb) || (hicb <? b2) then (RuneError, 1%nat)
          else if (sz <=? 3)%nat then
            (Z.lor (Z.lor (Z.shiftl (Z.land p0 mask3) 12)
                          (Z.shiftl (Z.land b1 maskx) 6))
                   (Z.land b2 maskx), 3%nat)
          else
            let b3 := byteAt p 3 in
            if (b3 <? locb) || (hicb <? b3) then (RuneError, 1%nat)
            else
              (Z.lor (Z.lor (Z.lor (Z.shiftl (Z.land p0 mask4) 18)
                                   (Z.shiftl (Z.land b1 maskx) 12))
                            (Z.shiftl (Z.land b2 maskx) 6))
                     (Z.land b3 maskx), 4%nat).

(** [RuneStart(b)]: [b] is not a continuation byte. *)
Definition RuneStart (c : Z) : bool := negb (Z.land c 0xC0 =? 0x80).

(** The backward scan of [DecodeLastRune] for the start of the last rune. *)
Fixpoint lastStart (p : list ascii) (fuel start lim : nat) : nat :=
  match fuel with
  | O => start
  | S fuel' =>
      if (lim <=? start)%nat then
        if RuneStart (byteAt p start) then start
        else
          match start with
          | O => O
          | S start' => lastStart p fuel' start' lim
          end
      else start
  end.

Definition DecodeLastRune (p : list ascii) : rune * nat :=
  let end_ := length p in
  if (end_ =? 0)%nat then (RuneError, 0%nat)
  else
    let start := (end_ - 1)%nat in
    let r := byteAt p start in
    if r <? RuneSelf then (r, 1%nat)
    else
      let lim := (end_ - UTFMax)%nat in
      let start :=
        match start with
        | O => O
        | S start' => lastStart p UTFMax start' lim
        end in
      let '(r, size) := DecodeRune (slice p start end_) in
      if negb (start + size =? end_)%nat then (RuneError, 1%nat)
      else (r, size).

(** The sequential decoding of [for i, r := range s]: every rune with the
    bytes it was read from; an invalid byte yields [RuneError] and
    advances by one byte. *)
Fixpoint decode_fuel (fuel : nat) (p : list ascii) : list (rune * list ascii) :=
  match fuel with
  | O => []
  | S fuel' =>
      match p with
      | [] => []
      | _ :: _ =>
          let '(r, s) := DecodeRune p in
          (r, firstn s p) :: decode_fuel fuel' (skipn s p)
      end
  end.

Definition decode (p : list ascii) : list (rune * list ascii) :=
  decode_fuel (length p) p.

(** [[]rune(s)] *)
Definition runes (p : list ascii) : list rune := map fst (decode p).

(** [utf8.Valid]: no step of the sequential decoding is an encoding
    error, which [DecodeRune] reports as [(RuneError, 1)]. *)
Definition Valid (p : list ascii) : bool :=
  forallb (fun rc => negb ((fst rc =? RuneError) && (length (snd rc) =? 1)%nat))
          (decode p).

(** [DecodeRune] read by cases on the leading byte, with the entry of
    [first] and [acceptRanges] evaluated in each case. *)
Definition decode2 (lo hi : Z) (p : list ascii) : rune * nat :=
  if (length p <? 2)%nat then (RuneError, 1%nat)
  else if (byteAt p 1 <? lo) || (hi <? byteAt p 1) then (RuneError, 1%nat)
  else (Z.lor (Z.shiftl (Z.land (byteAt p 0) mask2) 6)
              (Z.land (byteAt p 1) maskx), 2%nat).

Definition decode3 (lo hi : Z) (p : list ascii) : rune * nat :=
  if (length p <? 3)%nat then (RuneError, 1%nat)
  else if (byteAt p 1 <? lo) || (hi <? byteAt p 1) then (RuneError, 1%nat)
  else if (byteAt p 2 <? locb) || (hicb <? byteAt p 2) then (RuneError, 1%nat)
  else (Z.lor (Z.lor (Z.shiftl (Z.land (byteAt p 0) mask3) 12)
                     (Z.shiftl (Z.land (byteAt p 1) maskx) 6))
              (Z.land (byteAt p 2) maskx), 3%nat).

Definition decode4 (lo hi : Z) (p : list ascii) : rune * nat :=
  if (length p <? 4)%nat then (RuneError, 1%nat)
  else if (byteAt p 1 <? lo) || (hi <? byteAt p 1) then (RuneError, 1%nat)
  else if (byteAt p 2 <? locb) || (hicb <? byteAt p 2) then (RuneError, 1%nat)
  else if (byteAt p 3 <? locb) || (hicb <? byteAt p 3) then (RuneError, 1%nat)
  else (Z.lor (Z.lor (Z.lor (Z.shiftl (Z.land (byteAt p 0) mask4) 18)
                            (Z.shiftl (Z.land (byteAt p 1) maskx) 12))
                     (Z.shiftl (Z.land (byteAt p 2) maskx) 6))
              (Z.land (byteAt p 3) maskx), 4%nat).

Definition decodeBy (p : list ascii) : rune * nat :=
  match p with
  | [] => (RuneError, 0%nat)
  | _ :: _ =>
      let p0 := byteAt p 0 in
      if p0 <? 0x80 then (p0, 1%nat)
      else if p0 <? 0xC2 then (RuneError, 1%nat)
      else if p0 <? 0xE0 then decode2 0x80 0xBF p
      else if p0 =? 0xE0 then decode3 0xA0 0xBF p
      else if p0 <? 0xED then decode3 0x80 0xBF p
      else if p0 =? 0xED then decode3 0x80 0x9F p
      else if p0 <? 0xF0 then decode3 0x80 0xBF p
      else if p0 =? 0xF0 then decode4 0x90 0xBF p
      else if p0 <? 0xF4 then decode4 0x80 0xBF p
      else if p0 =? 0xF4 then decode4 0x80 0x8F p
      else (RuneError, 1%nat)
  end.

End utf8.

(** ** Package unicode *)

Module unicode.

Definition MaxLatin1 : Z := 0xFF.

(** The ranges of the table [White_Space] above Latin-1. *)
Definition White_Space_excludingLatin (r : rune) : bool :=
  (r =? 0x1680) || ((0x2000 <=? r) && (r <=? 0x200A))
  || (r =? 0x2028) || (r =? 0x2029) || (r =? 0x202F)
  || (r =? 0x205F) || (r =? 0x3000).

Definition IsSpace (r : rune) : bool :=
  if (0 <=? r) && (r <=? MaxLatin1) then
    (r =? 9) || (r =? 10) || (r =? 11) || (r =? 12) || (r =? 13)
    || (r =? 32) || (r =? 0x85) || (r =? 0xA0)
  else White_Space_excludingLatin r.

End unicode.

(** ** Errors

    [WrapTraceableErrorf(err, format, args...)] builds
    [fmt.Errorf("%s: %w", fmt.Sprintf(format, args...), err)]: an error that
    carries the formatted message and wraps [err] (which may be [nil]).
    A [message] is one of the format strings of [main.go] with its
    arguments. *)

Inductive message : Type :=
| MsgSkipInvalid (c : ascii) (idx : nat) (consumed : string)
    (* failed to skip spaces: invalid Unicode encoding char '%c' at index %d (%s) *)
| MsgEndQuoteInvalid (c : ascii) (idx : nat) (consumed : string)
    (* failed to find end matching quote: invalid Unicode encoding char ... *)
| MsgSplitInvalid (c : ascii) (idx : nat) (consumed : string)
    (* failed to find next space: invalid Unicode encoding char ... *)
| MsgNoEndQuote (q : rune)
    (* no end matching quote (%c) found *)
| MsgMatchingQuote (start : nat) (consumed : string)
    (* failed to find the matching quote starting at index %d (%s) *)
| MsgMissingEq (line : string)
    (* failed to parse /proc/bootconfig output line %q: missing '=' *)
| MsgAfterEq (line : string)
    (* failed to parse /proc/bootconfig output line %q after '=' *)
| MsgScan.
    (* failed to parse /proc/bootconfig output *)

(** A value of the interface type [error]: [nil], an error built by
    [fmt.Errorf] around a cause, or the sentinel [bufio.ErrTooLong]. *)
Inductive error : Type :=
| err_nil
| Errorf (msg : message) (cause : error)
| ErrTooLong.

Definition WrapTraceableErrorf (err : error) (msg : message) : error :=
  Errorf msg err.

(** [err != nil] *)
Definition is_err (e : error) : bool :=
  match e with err_nil => false | _ => true end.

(** The error taxonomy of the specification, read off the chain of causes. *)
Inductive ErrorKind : Type :=
| InvalidEncoding | UnterminatedQuote
| MissingSeparator | ValueParseError | ScanError.

Fixpoint tokenizerKind (e : error) : option ErrorKind :=
  match e with
  | Errorf (MsgSkipInvalid _ _ _) _ => Some InvalidEncoding
  | Errorf (MsgEndQuoteInvalid _ _ _) _ => Some InvalidEncoding
  | Errorf (MsgSplitInvalid _ _ _) _ => Some InvalidEncoding
  | Errorf (MsgNoEndQuote _) _ => Some UnterminatedQuote
  | Errorf (MsgMatchingQuote _ _) cause => tokenizerKind cause
  | _ => None
  end.

Definition configKind (e : error) : option ErrorKind :=
  match e with
  | Errorf (MsgMissingEq _) _ => Some MissingSeparator
  | Errorf (MsgAfterEq _) _ => Some ValueParseError
  | Errorf MsgScan _ => Some ScanError
  | _ => None
  end.

(** ** ShellSplitEx *)

Definition Result : Type := option (list string) * error.

Section Closures.

Variable b : list ascii.
Variable splitFn : rune -> bool.

(** [string(b[:idx])] *)
Definition consumed (idx : nat) : string := string_of_list_ascii (slice b 0 idx).

Fixpoint skipSplitCh (fuel idx : nat) : option (error * nat) :=
  match fuel with
  | O => None
  | S fuel' =>
      if (idx <? length b)%nat then
        let '(r, s) := utf8.DecodeRune (skipn idx b) in
        if r =? utf8.RuneError then
          Some (WrapTraceableErrorf err_nil
                  (MsgSkipInvalid (nth idx b zero) idx (consumed idx)), idx)
        else if negb (splitFn r) then Some (err_nil, idx)
        else skipSplitCh fuel' (idx + s)%nat
      else Some (err_nil, idx)
  end.

(** The loop of [findEndQuote]; the closure starts it with
    [prev := utf8.RuneError]. *)
Fixpoint findEndQuote_loop (q : rune) (fuel : nat) (prev : rune) (idx : nat)
  : option (error * nat) :=
  match fuel with
  | O => None
  | S fuel' =>
      if (idx <? length b)%nat then
        let '(r, s) := utf8.DecodeRune (skipn idx b) in
        if r =? utf8.RuneError then
          Some (WrapTraceableErrorf err_nil
                  (MsgEndQuoteInvalid (nth idx b zero) idx (consumed idx)), idx)
        else
          let idx := (idx + s)%nat in
          if (r =? q) && negb (prev =? backslash) then Some (err_nil, idx)
          else findEndQuote_loop q fuel' r idx
      else Some (WrapTraceableErrorf err_nil (MsgNoEndQuote q), idx)
  end.

Definition findEndQuote (q : rune) (fuel idx : nat) : option (error * nat) :=
  findEndQuote_loop q fuel utf8.RuneError idx.

(** The loop of [findSplitCh], started with [prev := utf8.RuneError]. *)
Fixpoint findSplitCh_loop (fuel : nat) (prev : rune) (idx : nat)
  : option (error * nat) :=
  match fuel with
  | O => None
  | S fuel' =>
      if (idx <? length b)%nat then
        let '(r, s) := utf8.DecodeRune (skipn idx b) in
        if r =? utf8.RuneError then
          Some (WrapTraceableErrorf err_nil
                  (MsgSplitInvalid (nth idx b zero) idx (consumed idx)), idx)
        else if splitFn r then Some (err_nil, idx)
        else
          let idx := (idx + s)%nat in
          if (r =? quote_dbl) || (r =? quote_sgl) then
            if prev =? backslash then findSplitCh_loop fuel' r idx
            else
              let start := idx in
              match findEndQuote r (S (length b)) idx with
              | None => None
              | Some (err, idx) =>
                  if is_err err then
                    Some (WrapTraceableErrorf err
                            (MsgMatchingQuote start (consumed start)), idx)
                  else findSplitCh_loop fuel' r idx
              end
          else findSplitCh_loop fuel' r idx
      else Some (err_nil, idx)
  end.

Definition findSplitCh (fuel idx : nat) : option (error * nat) :=
  findSplitCh_loop fuel utf8.RuneError idx.

(** The field appended for the span [start, idx) (lines 103-108).  Go
    panics on [b[start+1:idx-1]] when [start+1 > idx-1]; a span that starts
    with a quote holds at least two bytes ([scanSpans_spansFrom]), so the
    slice is always in range. *)
Definition field (start idx : nat) : string :=
  if (byteAt b start =? byteAt b (idx - 1))
     && ((byteAt b start =? quote_dbl) || (byteAt b start =? quote_sgl))
  then string_of_list_ascii (slice b (start + 1) (idx - 1))
  else string_of_list_ascii (slice b start idx).

(** The main loop of [ShellSplitEx] and the final test on [len(ss)]. *)
Fixpoint mainLoop (fuel idx : nat) (ss : list string) : option Result :=
  match fuel with
  | O => None
  | S fuel' =>
      if (idx <? length b)%nat then
        match skipSplitCh (S (length b)) idx with
        | None => None
        | Some (err, idx) =>
            if is_err err then Some (None, err)
            else
              let start := idx in
              match findSplitCh (S (length b)) idx with
              | None => None
              | Some (err, idx) =>
                  if is_err err then Some (None, err)
                  else if (start <? idx)%nat
                  then mainLoop fuel' idx (ss ++ [field start idx])
                  else mainLoop fuel' idx ss
              end
        end
      else
        if (length ss =? 0)%nat then Some (None, err_nil)
        else Some (Some ss, err_nil)
  end.

End Closures.

Definition ShellSplitEx (s : string) (splitFn : rune -> bool) : option Result :=
  let b := list_ascii_of_string s in
  mainLoop b splitFn (S (length b)) 0 [].

Definition ShellSplit (s : string) : option Result :=
  ShellSplitEx s unicode.IsSpace.

(** ** Packages strings and bufio, as far as [ParseBootConfig] uses them *)

Module strings.

(** [strings.Index(s, sep)] for a one-byte separator: the bytes before
    the first [sep] and the bytes after it. *)
Fixpoint cutAt (sep : ascii) (p : list ascii) : option (list ascii * list ascii) :=
  match p with
  | [] => None
  | c :: p' =>
      if Ascii.eqb c sep then Some ([], p')
      else
        match cutAt sep p' with
        | None => None
        | Some (before, after) => Some (c :: before, after)
        end
  end.

(** [strings.SplitN(s, sep, n)] for a one-byte [sep] and [n >= 0]: at most
    [n] substrings, the last one being the unsplit remainder. *)
Fixpoint SplitN_bytes (p : list ascii) (sep : ascii) (n : nat) : list (list ascii) :=
  match n with
  | O => []
  | S O => [p]
  | S n' =>
      match cutAt sep p with
      | None => [p]
      | Some (before, after) => before :: SplitN_bytes after sep n'
      end
  end.

Definition SplitN (s : string) (sep : ascii) (n : nat) : list string :=
  map string_of_list_ascii (SplitN_bytes (list_ascii_of_string s) sep n).

(** [strings.Join(elems, sep)] *)
Definition Join (elems : list string) (sep : string) : string :=
  String.concat sep elems.

(** [strings.TrimLeftFunc(s, unicode.IsSpace)]: drop leading runes while
    they are white space. *)
Fixpoint trimLeft (fuel : nat) (p : list ascii) : list ascii :=
  match fuel with
  | O => p
  | S fuel' =>
      let '(r, s) := utf8.DecodeRune p in
      if unicode.IsSpace r then trimLeft fuel' (skipn s p) else p
  end.

(** [strings.TrimRightFunc(s, unicode.IsSpace)]: drop trailing runes, as
    [utf8.DecodeLastRune] reads them, while they are white space. *)
Fixpoint trimRight (fuel : nat) (p : list ascii) : list ascii :=
  match fuel with
  | O => p
  | S fuel' =>
      let '(r, s) := utf8.DecodeLastRune p in
      if unicode.IsSpace r then trimRight fuel' (firstn (length p - s) p) else p
  end.

(** [strings.TrimSpace(s)]: all leading and trailing white space removed,
    as defined by Unicode. *)
Definition TrimSpace (s : string) : string :=
  let p := list_ascii_of_string s in
  let p := trimLeft (length p) p in
  string_of_list_ascii (trimRight (length p) p).

End strings.

Module bufio.

Definition MaxScanTokenSize : N := 65536.

Definition newline : ascii := "010".
Definition carriage_return : ascii := "013".

(** The input cut at every newline; a final line without newline counts
    when it is not empty ([ScanLines]). *)
Fixpoint rawLines (p cur : list ascii) : list (list ascii) :=
  match p with
  | [] => match cur with [] => [] | _ :: _ => [cur] end
  | c :: p' =>
      if Ascii.eqb c newline then cur :: rawLines p' []
      else rawLines p' (cur ++ [c])
  end.

(** [dropCR]: one trailing carriage return is dropped. *)
Definition dropCR (data : list ascii) : list ascii :=
  match rev data with
  | c :: r => if Ascii.eqb c carriage_return then rev r else data
  | [] => data
  end.

(** A scanner over an in-memory reader is the list of the lines it has
    not yet returned. *)
Definition Scanner : Type := list (list ascii).

Definition NewScanner (input : string) : Scanner :=
  rawLines (list_ascii_of_string input) [].

(** A line whose first [MaxScanTokenSize] bytes hold no newline fills the
    buffer: [Scan] stops with [ErrTooLong]. *)
Definition tooLong (raw : list ascii) : bool :=
  (MaxScanTokenSize <=? N.of_nat (length raw))%N.

(** [scanner.Text()] for the line just scanned. *)
Definition Text (raw : list ascii) : string := string_of_list_ascii (dropCR raw).

End bufio.

(** ** ParseBootConfig *)

Definition equals_sign : ascii := "061".
Definition comma : rune := 44.

(** The separator predicate of [ParseBootConfig]. *)
Definition spaceOrComma (r : rune) : bool := unicode.IsSpace r || (r =? comma).

(** The loop [for scanner.Scan() { ... }] and the code after it.  The
    scanner yields the next line, stops at the end of the input, or stops
    with [bufio.ErrTooLong], which [scanner.Err()] then reports. *)
Fixpoint ParseBootConfig_loop (scanner : bufio.Scanner) (cmds : list string)
  : option Result :=
  match scanner with
  | [] => Some (Some cmds, err_nil)
  | raw :: scanner' =>
      if bufio.tooLong raw then
        Some (None, WrapTraceableErrorf ErrTooLong MsgScan)
      else
        let line := bufio.Text raw in
        let kv := strings.SplitN line equals_sign 2 in
        if negb (length kv =? 2)%nat then
          Some (None, WrapTraceableErrorf err_nil (MsgMissingEq line))
        else
          let key := strings.TrimSpace (nth 0 kv EmptyString) in
          match ShellSplitEx (nth 1 kv EmptyString) spaceOrComma with
          | None => None
          | Some (fields, err) =>
              if is_err err then
                Some (None, WrapTraceableErrorf err (MsgAfterEq line))
              else
                let value :=
                  strings.Join (match fields with Some fs => fs | None => [] end)
                               (String "," EmptyString) in
                ParseBootConfig_loop scanner'
                  (cmds ++ [String.append key (String.append (String "=" EmptyString) value)])
          end
  end.

Definition ParseBootConfig (input : string) : option Result :=
  ParseBootConfig_loop (bufio.NewScanner input) [].


(** ** Notions used to state the properties *)

(** [c] is the encoding of the rune [r], and [r] is not [utf8.RuneError]. *)
Definition isRune (rc : rune * list ascii) : Prop :=
  utf8.DecodeRune (snd rc) = (fst rc, length (snd rc)) /\ fst rc <> utf8.RuneError.

Definition bytesOf (cs : list (rune * list ascii)) : list ascii :=
  concat (map snd cs).

(** [p] decodes, rune after rune, without ever yielding [utf8.RuneError]. *)
Definition clean (p : list ascii) : Prop :=
  exists cs, Forall isRune cs /\ bytesOf cs = p.

Definition isQuote (r : rune) : bool := (r =? quote_dbl) || (r =? quote_sgl).

(** The maximal runs of consecutive runes that are not separators, in
    order of appearance: [cur] collects the bytes of the run being read,
    and a run is kept only when it is not empty. *)
Definition emit (cur : list ascii) : list (list ascii) :=
  match cur with [] => [] | _ :: _ => [cur] end.

Fixpoint runsAcc (sep : rune -> bool) (cur : list ascii)
         (cs : list (rune * list ascii)) : list (list ascii) :=
  match cs with
  | [] => emit cur
  | (r, c) :: cs' =>
      if sep r then emit cur ++ runsAcc sep [] cs'
      else runsAcc sep (cur ++ c) cs'
  end.

Definition maximalRuns (sep : rune -> bool) (p : list ascii) : list string :=
  map string_of_list_ascii (runsAcc sep [] (utf8.decode p)).

(** The fields of a result, the [nil] slice having none. *)
Definition fieldsOf (res : option (list string)) : list string :=
  match res with Some fs => fs | None => [] end.

(** The spans [start, idx) for which the main loop of [ShellSplitEx]
    appends a field, collected by the same loop. *)
Fixpoint scanSpans (b : list ascii) (splitFn : rune -> bool) (fuel idx : nat)
  : option (list (nat * nat)) :=
  match fuel with
  | O => None
  | S fuel' =>
      if (idx <? length b)%nat then
        match skipSplitCh b splitFn (S (length b)) idx with
        | None => None
        | Some (err, idx) =>
            if is_err err then None
            else
              let start := idx in
              match findSplitCh b splitFn (S (length b)) idx with
              | None => None
              | Some (err, idx) =>
                  if is_err err then None
                  else
                    match scanSpans b splitFn fuel' idx with
                    | None => None
                    | Some sp =>
                        if (start <? idx)%nat then Some ((start, idx) :: sp)
                        else Some sp
                    end
              end
        end
      else Some []
  end.

(** The cursor moved from [idx] to [idx'] over runes that are not
    [RuneError]. *)
Definition advanced (b : list ascii) (idx idx' : nat) : Prop :=
  (idx <= idx' <= length b)%nat /\ clean (slice b idx idx').

(** What a closure may report: an encoding error, or a missing end quote
    once the end of the input is reached. *)
Definition failed (b : list ascii) (e : error) (idx' : nat) : Prop :=
  is_err e = true /\
  (tokenizerKind e = Some InvalidEncoding \/
   (tokenizerKind e = Some UnterminatedQuote /\ idx' = length b)).

(** The rune at [idx] is not [RuneError] and [splitFn] answers [sep] on it. *)
Definition at_rune (b : list ascii) (splitFn : rune -> bool) (idx : nat) (sep : bool)
  : Prop :=
  exists r s, utf8.DecodeRune (skipn idx b) = (r, s) /\
              r <> utf8.RuneError /\ splitFn r = sep.

Definition cleanS (f : string) : Prop := clean (list_ascii_of_string f).

(** The leading runes on which [f] answers [true], and the runes after
    them. *)
Fixpoint takeRunes (f : rune -> bool) (cs : list (rune * list ascii))
  : list (rune * list ascii) :=
  match cs with
  | [] => []
  | rc :: cs' => if f (fst rc) then rc :: takeRunes f cs' else []
  end.

Fixpoint dropRunes (f : rune -> bool) (cs : list (rune * list ascii))
  : list (rune * list ascii) :=
  match cs with
  | [] => []
  | rc :: cs' => if f (fst rc) then dropRunes f cs' else cs
  end.

(** The result of [ShellSplitEx] when it appended the fields [fs]. *)
Definition wrap (fs : list string) : Result :=
  match fs with
  | [] => (None, err_nil)
  | _ :: _ => (Some fs, err_nil)
  end.

(** What follows the runes under consideration: nothing, or a rune on
    which [splitFn] answers [sep]. *)
Definition followed (splitFn : rune -> bool) (rest : list ascii) (sep : bool) : Prop :=
  rest = [] \/
  exists r s, utf8.DecodeRune rest = (r, s) /\ r <> utf8.RuneError /\ splitFn r = sep.

(** The spans of a scan that starts at [idx]: in order, disjoint, not
    empty, inside the input, and at least two bytes long when they start
    with a quote. *)
Fixpoint spansFrom (b : list ascii) (idx : nat) (sp : list (nat * nat)) : Prop :=
  match sp with
  | [] => True
  | (start, end_) :: sp' =>
      (idx <= start)%nat /\ (start < end_ <= length b)%nat /\
      (isQuote (byteAt b start) = true -> (start + 2 <= end_)%nat) /\
      spansFrom b end_ sp'
  end.

Definition dquote : ascii := "034".
Definition squote : ascii := "039".

(** The byte at [start] equals the byte at [end_ - 1] and is a quote. *)
Definition quotedSpan (s : string) (start end_ : nat) : bool :=
  match String.get start s, String.get (end_ - 1) s with
  | Some c1, Some c2 =>
      Ascii.eqb c1 c2 && (Ascii.eqb c1 dquote || Ascii.eqb c1 squote)
  | _, _ => false
  end.

(** The field emitted for the span [start, end_) of [s], in the words of
    the specification. *)
Definition emitted (s : string) (span : nat * nat) (f : string) : Prop :=
  let '(start, end_) := span in
  if quotedSpan s start end_
  then f = String.substring (start + 1) (end_ - start - 2) s
  else f = String.substring start (end_ - start) s.

(** The line holds an equals sign. *)
Definition hasEquals (line : string) : Prop :=
  In equals_sign (list_ascii_of_string line).

(** [out] is the normalized entry of the scanned line [raw]: the key is
    what precedes the first equals sign, the value what follows it. *)
Definition entryOf (raw : list ascii) (out : string) : Prop :=
  exists key value fields,
    bufio.Text raw = String.append key (String.append (String "=" EmptyString) value) /\
    ~ hasEquals key /\
    ShellSplitEx value spaceOrComma = Some (fields, err_nil) /\
    out = String.append (strings.TrimSpace key)
            (String.append (String "=" EmptyString)
               (strings.Join (fieldsOf fields) (String "," EmptyString))).

(** The scanner returns the line [raw] and its value is tokenized without
    error. *)
Definition lineParses (raw : list ascii) : Prop :=
  bufio.tooLong raw = false /\ exists out, entryOf raw out.

(** The runes of several fields with the rune [sp] between two fields. *)
Fixpoint joinChunks (sp : rune * list ascii) (css : list (list (rune * list ascii)))
  : list (rune * list ascii) :=
  match css with
  | [] => []
  | cs :: rest =>
      match rest with
      | [] => cs
      | _ :: _ => cs ++ sp :: joinChunks sp rest
      end
  end.

Definition space : rune := 32.
Definition spaceChunk : rune * list ascii := (space, [" "%char]).

(** The runes of a field: none is a separator, none opens a quote, and
    there is at least one. *)
Definition fieldChunks (sep : rune -> bool) (cs : list (rune * list ascii)) : Prop :=
  cs <> [] /\ Forall isRune cs /\
  Forall (fun rc => sep (fst rc) = false /\ isQuote (fst rc) = false) cs.

(** An error message of one of the three closures for a rune that does
    not decode at offset [idx]: it names the byte [b[idx]], the offset and
    [string(b[:idx])]. *)
Definition encodingMessage (b : list ascii) (m : message) (idx : nat) : Prop :=
  m = MsgSkipInvalid (nth idx b zero) idx (consumed b idx) \/
  m = MsgEndQuoteInvalid (nth idx b zero) idx (consumed b idx) \/
  m = MsgSplitInvalid (nth idx b zero) idx (consumed b idx).

(** [utf8.DecodeRune(b[idx:])] yields [utf8.RuneError], with [idx < len(b)]. *)
Definition undecodable (b : list ascii) (idx : nat) : Prop :=
  (idx < length b)%nat /\ fst (utf8.DecodeRune (skipn idx b)) = utf8.RuneError.

(** The byte before offset [start] is the quote [q]. *)
Definition openedAt (b : list ascii) (start : nat) (q : rune) : Prop :=
  (1 <= start <= length b)%nat /\ isQuote q = true /\ byteAt b (start - 1) = q.

(** The message at the root of the chain of causes: the one [findSplitCh]
    wraps when [findEndQuote] fails, the message itself otherwise. *)
Fixpoint rootMessage (e : error) : option message :=
  match e with
  | Errorf (MsgMatchingQuote _ _) cause => rootMessage cause
  | Errorf m _ => Some m
  | _ => None
  end.

(** The offset of the first rune of [cs] that is [RuneError], counted from
    [off]. *)
Fixpoint firstBad_from (off : nat) (cs : list (rune * list ascii)) : option nat :=
  match cs with
  | [] => None
  | (r, c) :: cs' =>
      if r =? utf8.RuneError then Some off
      else firstBad_from (off + length c) cs'
  end.

(** The first offset at which the sequential decoding of [p] yields
    [RuneError], if there is one. *)
Definition firstBad (p : list ascii) : option nat :=
  firstBad_from 0 (utf8.decode p).

(** The three closures of [ShellSplitEx] read as the states of one
    automaton that takes one rune at a time: [skipSplitCh] between two
    fields ([Skip]), [findSplitCh] inside a field and outside quotes
    ([InField], with its [prev]), [findEndQuote] inside a quoted part of a
    field ([InQuote], with its [q] and [prev]). *)
Inductive scanState : Type :=
| Skip
| InField (prev : rune)
| InQuote (q prev : rune).

(** A rune of a field read outside quotes: a quote that does not follow a
    backslash opens a quoted part. *)
Definition enterRune (prev r : rune) : scanState :=
  if isQuote r && negb (prev =? backslash) then InQuote r utf8.RuneError
  else InField r.

(** A rune read inside quotes: the same quote, when it does not follow a
    backslash, closes the quoted part. *)
Definition quoteRune (q prev r : rune) : scanState :=
  if (r =? q) && negb (prev =? backslash) then InField q else InQuote q r.

(** The field the main loop appends for a span whose bytes are [cur]. *)
Definition emitField (cur : list ascii) : string := field cur 0 (length cur).

(** The fields of the runes [cs], read from the state [st] with the bytes
    [cur] of the current field; [None] when the input ends inside quotes. *)
Fixpoint automaton (sep : rune -> bool) (st : scanState) (cur : list ascii)
         (cs : list (rune * list ascii)) : option (list string) :=
  match cs with
  | [] =>
      match st with
      | Skip => Some []
      | InField _ => Some [emitField cur]
      | InQuote _ _ => None
      end
  | (r, c) :: cs' =>
      match st with
      | Skip =>
          if sep r then automaton sep Skip [] cs'
          else automaton sep (enterRune utf8.RuneError r) c cs'
      | InField prev =>
          if sep r
          then option_map (cons (emitField cur)) (automaton sep Skip [] cs')
          else automaton sep (enterRune prev r) (cur ++ c) cs'
      | InQuote q prev => automaton sep (quoteRune q prev r) (cur ++ c) cs'
      end
  end.

(** Some rune of [rs] is the quote [q] and does not follow a backslash,
    [prev] being the rune before [rs]. *)
Fixpoint closesQuote (q prev : rune) (rs : list rune) : bool :=
  match rs with
  | [] => false
  | r :: rs' => ((r =? q) && negb (prev =? backslash)) || closesQuote q r rs'
  end.

(** Every quote of [rs] that is not a separator follows, inside its run, a
    backslash; [prev] is the rune before [rs] in the run, [RuneError] when
    the run starts. *)
Fixpoint quotesEscaped (sep : rune -> bool) (prev : rune) (rs : list rune) : bool :=
  match rs with
  | [] => true
  | r :: rs' =>
      if sep r then quotesEscaped sep utf8.RuneError rs'
      else (negb (isQuote r) || (prev =? backslash)) && quotesEscaped sep r rs'
  end.

(** ** Sample inputs *)

Definition DQ : string := String dquote EmptyString.
Definition SQ : string := String squote EmptyString.
Definition NL : string := String bufio.newline EmptyString.

(** The command line of [main]: four words, the third one a double-quoted
    pair of words with spaces; the quotes are written [DQ]. *)
Definition sample_quoted : string :=
  ("test me " ++ DQ ++ "here and there" ++ DQ ++ " ok")%string.

(** The escaped quotes of [main]: a double-quoted field that holds
    backslash-escaped double and single quotes. *)
Definition sample_escaped : string :=
  (DQ ++ "here, \" ++ DQ ++ "quoted\" ++ DQ ++ ", \" ++ SQ ++ "too\" ++ SQ
      ++ ", there" ++ DQ)%string.

Definition sample_escaped_field : string :=
  ("here, \" ++ DQ ++ "quoted\" ++ DQ ++ ", \" ++ SQ ++ "too\" ++ SQ
      ++ ", there")%string.

(** The word say, a space, then a double quote that is never closed. *)
Definition sample_unterminated : string := ("say " ++ DQ ++ "hello")%string.

(** An adjacent pair of double quotes between the words a and b. *)
Definition sample_empty_quotes : string := ("a " ++ DQ ++ DQ ++ " b")%string.

(** U+FFFD in its valid encoding EF BF BD. *)
Definition sample_replacement : string :=
  String "239" (String "191" (String "189" EmptyString)).

(** The lone byte FF, which is no encoding of any rune. *)
Definition sample_invalid : string := String "255" EmptyString.

(** The first line of [bootcfg] without its [kernel.] prefix, as in the
    comment of [ParseBootConfig]. *)
Definition sample_config_line : string :=
  ("CabCmdBranches = " ++ DQ ++ "test\x20me" ++ DQ ++ ", " ++ DQ ++ "here" ++ DQ
      ++ ", " ++ DQ ++ "ok" ++ DQ)%string.

(** Two lines: a value with an unterminated quote, then a line without
    equals sign. *)
Definition sample_two_bad_lines : string := ("a=" ++ SQ ++ NL ++ "foo")%string.

(** Two lines: a well-formed entry, then a line without equals sign. *)
Definition sample_missing_equals : string := ("a=1" ++ NL ++ "foo")%string.

(** The other inputs of [main]: the value of a configuration line, the line
    with escaped quotes, and the constant [bootcfg]. *)
Definition main_values : string :=
  (" " ++ DQ ++ "test\x20me" ++ DQ ++ ", " ++ DQ ++ "here" ++ DQ ++ ", "
       ++ DQ ++ "ok" ++ DQ)%string.

Definition main_escaped : string :=
  ("CabCmdBranches = " ++ DQ ++ "test me" ++ DQ ++ "," ++ sample_escaped ++ " "
       ++ DQ ++ "ok" ++ DQ)%string.

Definition bootcfg : string :=
  ("kernel.CabCmdBranches = " ++ DQ ++ "test\x20me" ++ DQ ++ ", " ++ DQ ++ "here"
       ++ DQ ++ ", " ++ DQ ++ "ok" ++ DQ ++ NL
   ++ "kernel.CabCmdDryRun = " ++ DQ ++ "1" ++ DQ ++ NL
   ++ "kernel.CabIP = " ++ DQ ++ "10.10.1.234" ++ DQ ++ NL)%string.

(** A separator predicate for which the space is no separator. *)
Definition commaOnly (r : rune) : bool := r =? comma.

(** A separator predicate that accepts white space and U+FFFD. *)
Definition spaceOrReplacement (r : rune) : bool :=
  unicode.IsSpace r || (r =? utf8.RuneError).

(** U+FFFD in its valid encoding between two spaces. *)
Definition sample_separator_replacement : string :=
  (" " ++ sample_replacement ++ " ")%string.

(** A line of [bufio.MaxScanTokenSize] letters a. *)
Definition long_line : list ascii :=
  repeat "a"%char (N.to_nat bufio.MaxScanTokenSize).

(** An entry, then a line whose value opens a quote and never closes it,
    then a line without equals sign. *)
Definition sample_bad_value : string :=
  ("a=1" ++ NL ++ "b=" ++ SQ ++ NL ++ "foo")%string.

(** * Properties *)

(** ** Comparisons and lists *)

Ltac split_if_in H :=
  repeat match type of H with
  | context [if ?c then _ else _] => destruct c eqn:?
  end.

Ltac nat_cmp :=
  repeat match goal with
  | E : (_ <? _)%nat = false |- _ => apply Nat.ltb_ge in E
  | E : (_ <? _)%nat = true |- _ => apply Nat.ltb_lt in E
  | E : (_ <=? _)%nat = false |- _ => apply Nat.leb_gt in E
  | E : (_ <=? _)%nat = true |- _ => apply Nat.leb_le in E
  | E : (_ =? _)%nat = false |- _ => apply Nat.eqb_neq in E
  | E : (_ =? _)%nat = true |- _ => apply Nat.eqb_eq in E
  end.

Ltac z_cmp :=
  repeat match goal with
  | E : _ || _ = false |- _ => apply orb_false_elim in E; destruct E
  | E : (_ <? _) = false |- _ => apply Z.ltb_ge in E
  | E : (_ <? _) = true |- _ => apply Z.ltb_lt in E
  | E : (_ =? _) = false |- _ => apply Z.eqb_neq in E
  | E : (_ =? _) = true |- _ => apply Z.eqb_eq in E
  end.

Lemma firstn_add {A} (n m : nat) (q : list A) :
  firstn (n + m) q = firstn n q ++ firstn m (skipn n q).
Proof.
  revert q. induction n as [|n IH]; intros q; [reflexivity|].
  destruct q as [|x q]; cbn; [now rewrite firstn_nil|].
  now rewrite IH.
Qed.

Lemma skipn_add {A} (n m : nat) (q : list A) :
  skipn (n + m) q = skipn m (skipn n q).
Proof.
  revert q. induction n as [|n IH]; intros q; [reflexivity|].
  destruct q as [|x q]; cbn; [now rewrite skipn_nil|]. apply IH.
Qed.

Lemma slice_nil (p : list ascii) (i : nat) : slice p i i = [].
Proof. unfold slice. now rewrite Nat.sub_diag. Qed.

Lemma slice_app (p : list ascii) (i j k : nat) :
  (i <= j <= k)%nat -> slice p i k = slice p i j ++ slice p j k.
Proof.
  intros H. unfold slice.
  replace (k - i)%nat with ((j - i) + (k - j))%nat by lia.
  rewrite firstn_add, <- skipn_add. do 3 f_equal. lia.
Qed.

Lemma slice_all (p : list ascii) : slice p 0 (length p) = p.
Proof. unfold slice. cbn. rewrite Nat.sub_0_r. apply firstn_all. Qed.


Lemma slice_prefix (pre suf : list ascii) (n : nat) :
  slice (pre ++ suf) (length pre) (length pre + n) = firstn n suf.
Proof.
  unfold slice. rewrite skipn_app, skipn_all, Nat.sub_diag. cbn.
  f_equal. lia.
Qed.

Lemma byteAt_skipn (p : list ascii) (i k : nat) :
  byteAt (skipn i p) k = byteAt p (i + k).
Proof.
  unfold byteAt. f_equal. revert p. induction i as [|i IH]; intros p; [reflexivity|].
  destruct p as [|x p]; cbn; [now destruct k|]. apply IH.
Qed.

Lemma byteAt_firstn (p : list ascii) (n k : nat) :
  (k < n)%nat -> byteAt (firstn n p) k = byteAt p k.
Proof.
  unfold byteAt. intros H. f_equal. revert p k H.
  induction n as [|n IH]; intros p k H; [lia|].
  destruct p as [|x p]; [reflexivity|]. destruct k as [|k]; [reflexivity|].
  cbn. apply IH. lia.
Qed.

Lemma byteAt_app_l (p q : list ascii) (k : nat) :
  (k < length p)%nat -> byteAt (p ++ q) k = byteAt p k.
Proof. intros H. unfold byteAt. now rewrite app_nth1. Qed.

Lemma byteAt_app_r (p q : list ascii) (k : nat) :
  byteAt (p ++ q) (length p + k) = byteAt q k.
Proof.
  unfold byteAt. rewrite app_nth2 by lia. do 2 f_equal. lia.
Qed.

(** ** utf8.DecodeRune *)

Lemma DecodeRune_eq (p : list ascii) : utf8.DecodeRune p = utf8.decodeBy p.
Proof.
  destruct p as [|c t]; [reflexivity|].
  unfold utf8.DecodeRune, utf8.decodeBy, utf8.first.
  set (p := c :: t).
  change (length p <? 1)%nat with false. cbv iota.
  set (p0 := byteAt p 0).
  destruct (p0 <? 128).
  { change (utf8.as_ >=? utf8.as_) with true. cbv iota.
    change (- Z.land utf8.as_ 1) with 0. change (Z.lnot 0) with (-1).
    rewrite Z.land_m1_r, Z.land_0_r, Z.lor_0_r. reflexivity. }
  destruct (p0 <? 194).
  { change (utf8.xx >=? utf8.as_) with true. cbv iota.
    change (- Z.land utf8.xx 1) with (-1). change (Z.lnot (-1)) with 0.
    rewrite Z.land_0_r. reflexivity. }
  destruct (p0 <? 224); [reflexivity|].
  destruct (p0 =? 224); [reflexivity|].
  destruct (p0 <? 237); [reflexivity|].
  destruct (p0 =? 237); [reflexivity|].
  destruct (p0 <? 240); [reflexivity|].
  destruct (p0 =? 240); [reflexivity|].
  destruct (p0 <? 244); [reflexivity|].
  destruct (p0 =? 244); [reflexivity|].
  change (utf8.xx >=? utf8.as_) with true. cbv iota.
  change (- Z.land utf8.xx 1) with (-1). change (Z.lnot (-1)) with 0.
  rewrite Z.land_0_r. reflexivity.
Qed.

Ltac decode_cases H :=
  rewrite DecodeRune_eq in H; unfold utf8.decodeBy in H;
  split_if_in H; unfold utf8.decode2, utf8.decode3, utf8.decode4 in H;
  split_if_in H.

Lemma DecodeRune_size (p : list ascii) (r : rune) (s : nat) :
  utf8.DecodeRune p = (r, s) -> p <> [] -> (1 <= s <= length p)%nat.
Proof.
  intros H Hp. destruct p as [|c t]; [congruence|].
  decode_cases H; inversion H; nat_cmp; cbn [length] in *; lia.
Qed.

Lemma DecodeRune_size_le (p : list ascii) (r : rune) (s : nat) :
  utf8.DecodeRune p = (r, s) -> (s <= length p)%nat.
Proof.
  intros H. destruct p as [|c t]; [inversion H; cbn; lia|].
  apply DecodeRune_size in H; [lia|discriminate].
Qed.

Lemma DecodeRune_ascii (c : ascii) (t : list ascii) :
  byteZ c < 0x80 -> utf8.DecodeRune (c :: t) = (byteZ c, 1%nat).
Proof.
  intros H. rewrite DecodeRune_eq. unfold utf8.decodeBy.
  change (byteAt (c :: t) 0) with (byteZ c).
  destruct (byteZ c <? 128) eqn:E; [reflexivity|]. apply Z.ltb_ge in E. lia.
Qed.

(** A rune that is not [RuneError] is read from its own bytes only. *)
Lemma DecodeRune_indep (p q : list ascii) (r : rune) (s : nat) :
  utf8.DecodeRune p = (r, s) -> r <> utf8.RuneError ->
  (s <= length q)%nat ->
  (forall i, (i < s)%nat -> byteAt q i = byteAt p i) ->
  utf8.DecodeRune q = (r, s).
Proof.
  intros H Hr Hq Hb.
  assert (Hp : p <> []) by (intros ->; cbn in H; inversion H; congruence).
  pose proof (DecodeRune_size _ _ _ H Hp) as Hs.
  assert (Hq' : q <> []) by (intros ->; cbn in Hq; lia).
  rewrite DecodeRune_eq in *. unfold utf8.decodeBy in *.
  destruct p as [|c t]; [congruence|]. destruct q as [|c' t']; [congruence|].
  rewrite (Hb 0%nat) by lia.
  split_if_in H; try (inversion H; subst; congruence).
  all: unfold utf8.decode2, utf8.decode3, utf8.decode4 in *.
  all: split_if_in H; try (inversion H; subst; congruence).
  all: apply pair_equal_spec in H; destruct H as [<- <-].
  all: rewrite ?(Hb 0%nat), ?(Hb 1%nat), ?(Hb 2%nat), ?(Hb 3%nat) by lia.
  all: repeat match goal with
         | E : ?c = false |- context [if ?c then _ else _] => rewrite E
         end.
  all: match goal with
       | |- context [if (?a <? ?b)%nat then _ else _] =>
           destruct (a <? b)%nat eqn:?; [nat_cmp; lia|]
       end.
  all: reflexivity.
Qed.

Lemma DecodeRune_single (p : list ascii) (r : rune) :
  utf8.DecodeRune p = (r, 1%nat) -> r <> utf8.RuneError ->
  r = byteAt p 0 /\ r < 0x80.
Proof.
  intros H Hr. destruct p as [|c t]; [inversion H|].
  decode_cases H; inversion H; subst; try congruence.
  split; [reflexivity|]. apply Z.ltb_lt. assumption.
Qed.

Lemma DecodeRune_multi (p : list ascii) (r : rune) (s : nat) :
  utf8.DecodeRune p = (r, s) -> r <> utf8.RuneError -> (2 <= s)%nat ->
  0x80 <= byteAt p 0 /\ 0x80 <= byteAt p (s - 1).
Proof.
  intros H Hr Hs. destruct p as [|c t]; [inversion H; lia|].
  decode_cases H; inversion H; subst; try congruence; try lia.
  all: cbn [Nat.sub].
  all: z_cmp; unfold utf8.locb, utf8.hicb in *; lia.
Qed.

(** ** Runes and clean byte sequences *)

Lemma isRune_nonempty (r : rune) (c : list ascii) : isRune (r, c) -> c <> [].
Proof.
  intros [H Hr] ->. cbn in H. inversion H. cbn in Hr. congruence.
Qed.

Lemma isRune_length (r : rune) (c : list ascii) : isRune (r, c) -> (1 <= length c)%nat.
Proof.
  intros H. apply isRune_nonempty in H. destruct c; [congruence|cbn; lia].
Qed.

Lemma isRune_ctx (r : rune) (c rest : list ascii) :
  isRune (r, c) -> utf8.DecodeRune (c ++ rest) = (r, length c).
Proof.
  intros [H Hr]. cbn in *.
  apply (DecodeRune_indep c); auto.
  - rewrite length_app. lia.
  - intros i Hi. now apply byteAt_app_l.
Qed.

Lemma isRune_of_decode (p : list ascii) (r : rune) (s : nat) :
  utf8.DecodeRune p = (r, s) -> r <> utf8.RuneError ->
  isRune (r, firstn s p) /\ length (firstn s p) = s.
Proof.
  intros H Hr. pose proof (DecodeRune_size_le _ _ _ H) as Hs.
  assert (Hl : length (firstn s p) = s) by (rewrite length_firstn; lia).
  split; [|exact Hl]. split; [|exact Hr]. cbn. rewrite Hl.
  apply (DecodeRune_indep p); auto; [lia|].
  intros i Hi. now apply byteAt_firstn.
Qed.

Lemma bytesOf_cons (rc : rune * list ascii) (cs : list (rune * list ascii)) :
  bytesOf (rc :: cs) = snd rc ++ bytesOf cs.
Proof. reflexivity. Qed.

Lemma bytesOf_app (cs1 cs2 : list (rune * list ascii)) :
  bytesOf (cs1 ++ cs2) = bytesOf cs1 ++ bytesOf cs2.
Proof. unfold bytesOf. now rewrite map_app, concat_app. Qed.

Lemma chunks_length (cs : list (rune * list ascii)) :
  Forall isRune cs -> (length cs <= length (bytesOf cs))%nat.
Proof.
  induction 1 as [|[r c] cs H _ IH]; [cbn; lia|].
  rewrite bytesOf_cons, length_app. cbn [length snd].
  apply isRune_length in H. lia.
Qed.

Lemma clean_nil : clean [].
Proof. exists []. split; [constructor|reflexivity]. Qed.

Lemma clean_app (p q : list ascii) : clean p -> clean q -> clean (p ++ q).
Proof.
  intros [cs1 [H1 <-]] [cs2 [H2 <-]]. exists (cs1 ++ cs2). split.
  - apply Forall_app. now split.
  - apply bytesOf_app.
Qed.

Lemma clean_rune (r : rune) (c : list ascii) : isRune (r, c) -> clean c.
Proof.
  intros H. exists [(r, c)]. split; [now constructor|].
  unfold bytesOf. cbn. apply app_nil_r.
Qed.

Lemma clean_step (p : list ascii) (r : rune) (s : nat) :
  utf8.DecodeRune p = (r, s) -> r <> utf8.RuneError -> clean (firstn s p).
Proof.
  intros H Hr. apply (clean_rune r). now apply isRune_of_decode.
Qed.

Lemma decode_fuel_bytesOf (cs : list (rune * list ascii)) (fuel : nat) :
  Forall isRune cs -> (length cs <= fuel)%nat ->
  utf8.decode_fuel fuel (bytesOf cs) = cs.
Proof.
  intros H. revert fuel. induction H as [|[r c] cs H _ IH]; intros fuel Hf.
  - destruct fuel; reflexivity.
  - destruct fuel as [|fuel]; [cbn in Hf; lia|].
    rewrite bytesOf_cons. cbn [snd utf8.decode_fuel].
    pose proof (isRune_nonempty _ _ H) as Hc.
    destruct (c ++ bytesOf cs) as [|x t] eqn:E.
    { destruct c; [congruence|discriminate]. }
    rewrite <- E. rewrite (isRune_ctx _ _ _ H).
    rewrite firstn_app, Nat.sub_diag, firstn_all. cbn [firstn]. rewrite app_nil_r.
    rewrite skipn_app, Nat.sub_diag, skipn_all. cbn [skipn app].
    f_equal. apply IH. cbn in Hf. lia.
Qed.

Lemma decode_bytesOf (cs : list (rune * list ascii)) :
  Forall isRune cs -> utf8.decode (bytesOf cs) = cs.
Proof.
  intros H. apply decode_fuel_bytesOf; [assumption|]. now apply chunks_length.
Qed.

Lemma decode_fuel_spec (fuel : nat) (p : list ascii) :
  (length p <= fuel)%nat ->
  bytesOf (utf8.decode_fuel fuel p) = p /\
  Forall (fun rc => fst rc <> utf8.RuneError -> isRune rc) (utf8.decode_fuel fuel p).
Proof.
  revert p. induction fuel as [|fuel IH]; intros p Hp.
  - destruct p; [|cbn in Hp; lia]. split; [reflexivity|constructor].
  - destruct p as [|x t]; [split; [reflexivity|constructor]|].
    cbn [utf8.decode_fuel]. destruct (utf8.DecodeRune (x :: t)) as [r s] eqn:E.
    pose proof (DecodeRune_size _ _ _ E ltac:(discriminate)) as Hs.
    destruct (IH (skipn s (x :: t))) as [IH1 IH2].
    { rewrite length_skipn. cbn [length] in *. lia. }
    split.
    + rewrite bytesOf_cons, IH1. cbn [snd]. apply firstn_skipn.
    + constructor; [|exact IH2]. cbn [fst]. intros Hr.
      now apply isRune_of_decode.
Qed.

Lemma bytesOf_decode (p : list ascii) : bytesOf (utf8.decode p) = p.
Proof. apply decode_fuel_spec. unfold utf8.decode. lia. Qed.

Lemma decode_isRune (p : list ascii) :
  Forall (fun r => r <> utf8.RuneError) (utf8.runes p) -> Forall isRune (utf8.decode p).
Proof.
  unfold utf8.runes. intros H.
  pose proof (proj2 (decode_fuel_spec (length p) p (Nat.le_refl _))) as H2.
  fold (utf8.decode p) in H2.
  rewrite Forall_map in H. rewrite Forall_forall in *.
  intros rc Hin. apply H2; auto.
Qed.

Lemma clean_iff (p : list ascii) :
  clean p <-> Forall (fun r => r <> utf8.RuneError) (utf8.runes p).
Proof.
  split.
  - intros [cs [H <-]]. unfold utf8.runes. rewrite decode_bytesOf by assumption.
    rewrite Forall_map. eapply Forall_impl; [|exact H]. now intros rc [_ Hr].
  - intros H. exists (utf8.decode p). split; [now apply decode_isRune|apply bytesOf_decode].
Qed.

Lemma clean_Valid (p : list ascii) : clean p -> utf8.Valid p = true.
Proof.
  intros H. apply clean_iff in H. unfold utf8.Valid, utf8.runes in *.
  rewrite Forall_map in H. apply forallb_forall. rewrite Forall_forall in H.
  intros rc Hin. specialize (H rc Hin).
  destruct (fst rc =? utf8.RuneError) eqn:E; [apply Z.eqb_eq in E; now elim H|reflexivity].
Qed.

Lemma clean_strip_first (c : ascii) (p : list ascii) :
  clean (c :: p) -> byteZ c < 0x80 -> clean p.
Proof.
  intros [cs [H E]] Hc. destruct cs as [|[r c0] cs]; [discriminate|].
  rewrite bytesOf_cons in E. cbn [snd] in E. inversion H as [|? ? H1 H2]; subst.
  pose proof (isRune_ctx _ _ (bytesOf cs) H1) as Hd. rewrite E in Hd.
  rewrite (DecodeRune_ascii _ _ Hc) in Hd. inversion Hd as [[Hr Hl]].
  destruct c0 as [|y [|z c0]]; try discriminate. cbn in E. inversion E; subst.
  now exists cs.
Qed.

Lemma clean_strip_last (c : ascii) (p : list ascii) :
  clean (p ++ [c]) -> byteZ c < 0x80 -> clean p.
Proof.
  intros [cs [H E]] Hc. revert p E.
  induction cs as [|[r c0] cs IH] using rev_ind; intros p E.
  { destruct p; discriminate. }
  rewrite bytesOf_app in E. unfold bytesOf at 2 in E. cbn in E. rewrite app_nil_r in E.
  apply Forall_app in H. destruct H as [H1 H2]. inversion H2 as [|? ? H3 _]; subst.
  destruct H3 as [Hd Hr]. cbn [fst snd] in *.
  destruct (Nat.le_gt_cases 2 (length c0)) as [Hl|Hl].
  - exfalso. destruct (DecodeRune_multi _ _ _ Hd Hr Hl) as [_ Hm].
    destruct (exists_last (l := c0)) as [c1 [y Ey]]; [intros ->; cbn in Hl; lia|].
    subst c0. rewrite app_assoc in E. apply app_inj_tail in E. destruct E as [_ ->].
    rewrite length_app in Hm. cbn [length] in Hm.
    replace (length c1 + 1 - 1)%nat with (length c1 + 0)%nat in Hm by lia.
    rewrite byteAt_app_r in Hm. unfold byteAt in Hm. cbn [nth] in Hm. lia.
  - destruct c0 as [|y [|z c0]]; [| |cbn in Hl; lia].
    + cbn in Hd. inversion Hd. congruence.
    + apply app_inj_tail in E. destruct E as [<- _]. now exists cs.
Qed.

(** ** The closures on an arbitrary input *)

Section ClosureSpecs.

Variable b : list ascii.
Variable splitFn : rune -> bool.

Lemma advanced_refl (idx : nat) : (idx <= length b)%nat -> advanced b idx idx.
Proof.
  intros H. split; [lia|]. rewrite slice_nil. apply clean_nil.
Qed.

Lemma advanced_trans (i j k : nat) : advanced b i j -> advanced b j k -> advanced b i k.
Proof.
  intros [H1 H2] [H3 H4]. split; [lia|].
  rewrite (slice_app b i j k) by lia. now apply clean_app.
Qed.

Lemma advanced_step (idx : nat) (r : rune) (s : nat) :
  (idx < length b)%nat -> utf8.DecodeRune (skipn idx b) = (r, s) ->
  r <> utf8.RuneError ->
  (1 <= s)%nat /\ advanced b idx (idx + s).
Proof.
  intros Hlt D Hr.
  assert (Hne : skipn idx b <> []).
  { intros E. apply (f_equal (@length _)) in E. rewrite length_skipn in E. cbn in E. lia. }
  pose proof (DecodeRune_size _ _ _ D Hne) as Hs. rewrite length_skipn in Hs.
  split; [lia|]. split; [lia|].
  unfold slice. replace (idx + s - idx)%nat with s by lia.
  now apply (clean_step _ r).
Qed.

Lemma skipSplitCh_spec (fuel idx : nat) :
  (idx <= length b)%nat -> (length b - idx < fuel)%nat ->
  exists e idx',
    skipSplitCh b splitFn fuel idx = Some (e, idx') /\ advanced b idx idx' /\
    ((e = err_nil /\ (idx' = length b \/ ((idx' < length b)%nat /\ at_rune b splitFn idx' false))) \/
     (is_err e = true /\ tokenizerKind e = Some InvalidEncoding)).
Proof.
  revert idx. induction fuel as [|fuel IH]; intros idx Hle Hf; [lia|].
  cbn [skipSplitCh]. destruct (idx <? length b)%nat eqn:E; nat_cmp.
  - destruct (utf8.DecodeRune (skipn idx b)) as [r s] eqn:D.
    destruct (r =? utf8.RuneError) eqn:Er; z_cmp.
    + eexists _, _. split; [reflexivity|]. split; [now apply advanced_refl|].
      right. split; reflexivity.
    + destruct (advanced_step _ _ _ E D Er) as [Hs Ha].
      destruct (splitFn r) eqn:Ep; cbn [negb].
      * destruct (IH (idx + s)%nat) as (e & idx' & H1 & H2 & H3);
          [destruct Ha; lia|lia|].
        exists e, idx'. split; [exact H1|]. split; [|exact H3].
        now apply (advanced_trans _ (idx + s)%nat).
      * eexists _, _. split; [reflexivity|]. split; [now apply advanced_refl|].
        left. split; [reflexivity|]. right. split; [assumption|]. now exists r, s.
  - eexists _, _. split; [reflexivity|]. split; [now apply advanced_refl|].
    left. split; [reflexivity|]. left. lia.
Qed.

Lemma findEndQuote_loop_spec (q : rune) (fuel : nat) (prev : rune) (idx : nat) :
  (idx <= length b)%nat -> (length b - idx < fuel)%nat ->
  exists e idx',
    findEndQuote_loop b q fuel prev idx = Some (e, idx') /\ advanced b idx idx' /\
    ((e = err_nil /\ (idx < idx')%nat) \/ failed b e idx').
Proof.
  revert prev idx. induction fuel as [|fuel IH]; intros prev idx Hle Hf; [lia|].
  cbn [findEndQuote_loop]. destruct (idx <? length b)%nat eqn:E; nat_cmp.
  - destruct (utf8.DecodeRune (skipn idx b)) as [r s] eqn:D.
    destruct (r =? utf8.RuneError) eqn:Er; z_cmp.
    + eexists _, _. split; [reflexivity|]. split; [now apply advanced_refl|].
      right. split; [reflexivity|]. left. reflexivity.
    + destruct (advanced_step _ _ _ E D Er) as [Hs Ha].
      destruct ((r =? q) && negb (prev =? backslash)).
      * eexists _, _. split; [reflexivity|]. split; [exact Ha|]. left. split; [reflexivity|lia].
      * destruct (IH r (idx + s)%nat) as (e & idx' & H1 & H2 & H3);
          [destruct Ha; lia|lia|].
        exists e, idx'. split; [exact H1|].
        split; [now apply (advanced_trans _ (idx + s)%nat)|].
        destruct H3 as [[-> H3]|H3]; [left|right; exact H3].
        split; [reflexivity|]. destruct H2. lia.
  - eexists _, _. split; [reflexivity|]. split; [now apply advanced_refl|].
    right. split; [reflexivity|]. right. split; [reflexivity|lia].
Qed.

Lemma findSplitCh_loop_spec (fuel : nat) (prev : rune) (idx : nat) :
  (idx <= length b)%nat -> (length b - idx < fuel)%nat ->
  exists e idx',
    findSplitCh_loop b splitFn fuel prev idx = Some (e, idx') /\ advanced b idx idx' /\
    ((e = err_nil /\
      (idx' = length b \/ ((idx' < length b)%nat /\ at_rune b splitFn idx' true)) /\
      (at_rune b splitFn idx false -> (idx < length b)%nat -> (idx < idx')%nat)) \/
     failed b e idx').
Proof.
  revert prev idx. induction fuel as [|fuel IH]; intros prev idx Hle Hf; [lia|].
  cbn [findSplitCh_loop]. destruct (idx <? length b)%nat eqn:E; nat_cmp.
  - destruct (utf8.DecodeRune (skipn idx b)) as [r s] eqn:D.
    destruct (r =? utf8.RuneError) eqn:Er; z_cmp.
    + eexists _, _. split; [reflexivity|]. split; [now apply advanced_refl|].
      right. split; [reflexivity|]. left. reflexivity.
    + destruct (advanced_step _ _ _ E D Er) as [Hs Ha].
      destruct (splitFn r) eqn:Ep.
      * eexists _, _. split; [reflexivity|]. split; [now apply advanced_refl|].
        left. split; [reflexivity|]. split.
        -- right. split; [assumption|]. now exists r, s.
        -- intros (r' & s' & D' & _ & Hp') _. rewrite D in D'. inversion D'; subst.
           congruence.
      * assert (Hcont : forall idx1, advanced b (idx + s) idx1 ->
                  exists e idx',
                    findSplitCh_loop b splitFn fuel r idx1 = Some (e, idx') /\
                    advanced b idx idx' /\
                    ((e = err_nil /\
                      (idx' = length b \/ ((idx' < length b)%nat /\ at_rune b splitFn idx' true)) /\
                      (at_rune b splitFn idx false -> (idx < length b)%nat -> (idx < idx')%nat)) \/
                     failed b e idx')).
        { intros idx1 Ha1.
          destruct (IH r idx1) as (e & idx' & H1 & H2 & H3);
            [destruct Ha1; lia|destruct Ha1; lia|].
          exists e, idx'. split; [exact H1|].
          assert (Ha' : advanced b idx idx').
          { apply (advanced_trans _ (idx + s)%nat); [exact Ha|].
            now apply (advanced_trans _ idx1). }
          split; [exact Ha'|].
          destruct H3 as [(-> & H3 & _)|H3]; [left|right; exact H3].
          split; [reflexivity|]. split; [exact H3|].
          intros _ _. destruct Ha1, H2. lia. }
        destruct ((r =? quote_dbl) || (r =? quote_sgl)).
        -- destruct (prev =? backslash).
           ++ apply Hcont. apply advanced_refl. destruct Ha; lia.
           ++ unfold findEndQuote.
              destruct (findEndQuote_loop_spec r (S (length b)) utf8.RuneError (idx + s)%nat)
                as (e1 & idx1 & H1 & H2 & H3); [destruct Ha; lia|lia|].
              rewrite H1. destruct H3 as [[-> H3]|H3].
              ** cbn [is_err]. now apply Hcont.
              ** destruct H3 as [He H3]. rewrite He.
                 eexists _, _. split; [reflexivity|].
                 split; [now apply (advanced_trans _ (idx + s)%nat)|].
                 right. split; [reflexivity|]. exact H3.
        -- apply Hcont. apply advanced_refl. destruct Ha; lia.
  - eexists _, _. split; [reflexivity|]. split; [now apply advanced_refl|].
    left. split; [reflexivity|]. split; [left; lia|]. intros _ H. lia.
Qed.

End ClosureSpecs.

(** ** The main loop on an arbitrary input *)

Lemma slice_cons (p : list ascii) (i j : nat) :
  (i < j)%nat -> (i < length p)%nat ->
  slice p i j = nth i p zero :: slice p (S i) j.
Proof.
  intros Hij Hi. unfold slice.
  destruct (skipn i p) as [|x t] eqn:E.
  { apply (f_equal (@length _)) in E. rewrite length_skipn in E. cbn in E. lia. }
  assert (Hx : nth i p zero = x).
  { rewrite <- (firstn_skipn i p) at 1. rewrite E, app_nth2; rewrite length_firstn; [|lia].
    replace (i - Nat.min i (length p))%nat with 0%nat by lia. reflexivity. }
  assert (Ht : skipn (S i) p = t).
  { replace (S i) with (i + 1)%nat by lia. rewrite skipn_add, E. reflexivity. }
  rewrite Hx, Ht. replace (j - i)%nat with (S (j - S i)) by lia. reflexivity.
Qed.

Lemma slice_snoc (p : list ascii) (i j : nat) :
  (i <= j)%nat -> (j < length p)%nat ->
  slice p i (S j) = slice p i j ++ [nth j p zero].
Proof.
  intros Hij Hj. rewrite (slice_app p i j (S j)) by lia. f_equal.
  rewrite (slice_cons p j (S j)) by lia. now rewrite slice_nil.
Qed.

Lemma field_clean (b : list ascii) (start idx : nat) :
  (start < idx <= length b)%nat -> clean (slice b start idx) ->
  cleanS (field b start idx).
Proof.
  intros H Hc. unfold field, cleanS.
  destruct ((byteAt b start =? byteAt b (idx - 1)) &&
            ((byteAt b start =? quote_dbl) || (byteAt b start =? quote_sgl))) eqn:E;
    rewrite list_ascii_of_string_of_list_ascii; [|exact Hc].
  apply andb_prop in E. destruct E as [E1 E2]. apply Z.eqb_eq in E1.
  assert (Hq : byteAt b start < 0x80).
  { apply orb_prop in E2. unfold quote_dbl, quote_sgl in E2.
    destruct E2 as [E2|E2]; apply Z.eqb_eq in E2; lia. }
  destruct (Nat.eq_dec idx (S start)) as [->|Hn].
  { unfold slice. replace (S start - 1 - (start + 1))%nat with 0%nat by lia. apply clean_nil. }
  rewrite (slice_cons b start idx) in Hc by lia.
  apply clean_strip_first in Hc; [|exact Hq].
  replace idx with (S (idx - 1)) in Hc by lia.
  rewrite (slice_snoc b (S start) (idx - 1)) in Hc by lia.
  apply clean_strip_last in Hc; [|unfold byteAt in *; lia].
  now replace (start + 1)%nat with (S start) by lia.
Qed.

Section MainLoopSpec.

Variable b : list ascii.
Variable splitFn : rune -> bool.

Lemma mainLoop_spec (fuel idx : nat) (ss : list string) :
  (idx <= length b)%nat -> (length b - idx < fuel)%nat ->
  clean (slice b 0 idx) -> Forall cleanS ss ->
  exists res e,
    mainLoop b splitFn fuel idx ss = Some (res, e) /\
    ((e = err_nil /\ clean b /\
      match res with
      | None => True
      | Some fs => fs <> [] /\ Forall cleanS fs
      end) \/
     (res = None /\ is_err e = true /\
      (tokenizerKind e = Some InvalidEncoding \/
       (tokenizerKind e = Some UnterminatedQuote /\ clean b)))).
Proof.
  revert idx ss. induction fuel as [|fuel IH]; intros idx ss Hle Hf Hc Hss; [lia|].
  cbn [mainLoop]. destruct (idx <? length b)%nat eqn:E; nat_cmp.
  - destruct (skipSplitCh_spec b splitFn (S (length b)) idx) as (e1 & idx1 & H1 & A1 & P1);
      [lia|lia|].
    rewrite H1. destruct P1 as [[-> P1]|[He1 K1]].
    2:{ rewrite He1. eexists _, _. split; [reflexivity|]. right. auto. }
    cbn [is_err]. unfold findSplitCh.
    destruct (findSplitCh_loop_spec b splitFn (S (length b)) utf8.RuneError idx1)
      as (e2 & idx2 & H2 & A2 & P2); [destruct A1; lia|lia|].
    rewrite H2.
    assert (Hc1 : clean (slice b 0 idx1)).
    { destruct A1 as [? ?]. rewrite (slice_app b 0 idx idx1) by lia. now apply clean_app. }
    assert (Hc2 : clean (slice b 0 idx2)).
    { destruct A1 as [? ?], A2 as [? ?].
      rewrite (slice_app b 0 idx1 idx2) by lia. now apply clean_app. }
    destruct P2 as [(-> & _ & P2)|[He2 K2]].
    2:{ rewrite He2. eexists _, _. split; [reflexivity|]. right.
        split; [reflexivity|]. split; [exact He2|].
        destruct K2 as [K2|[K2 ->]]; [now left|right]. split; [exact K2|].
        now rewrite slice_all in Hc2. }
    cbn [is_err].
    assert (Hprog : (idx < idx2)%nat).
    { destruct A1 as [? _], A2 as [? _]. destruct (Nat.eq_dec idx1 idx) as [->|?]; [|lia].
      destruct P1 as [P1|[P1 P1']]; [lia|]. now apply P2. }
    destruct A2 as [B2 C2].
    destruct (idx1 <? idx2)%nat eqn:E2; nat_cmp.
    + apply IH; [lia|lia|exact Hc2|].
      apply Forall_app. split; [exact Hss|]. constructor; [|constructor].
      apply field_clean; [lia|exact C2].
    + apply IH; [lia|lia|exact Hc2|exact Hss].
  - assert (idx = length b) by lia. subst idx. rewrite slice_all in Hc.
    destruct (length ss =? 0)%nat eqn:E0; nat_cmp.
    + eexists _, _. split; [reflexivity|]. left. auto.
    + eexists _, _. split; [reflexivity|]. left. split; [reflexivity|].
      split; [exact Hc|]. split; [|exact Hss]. intros ->. cbn in E0. lia.
Qed.

End MainLoopSpec.

(** [ShellSplitEx] returns for every input: the fuel of the model never
    runs out. *)
Theorem ShellSplitEx_terminates (s : string) (splitFn : rune -> bool) :
  exists res, ShellSplitEx s splitFn = Some res.
Proof.
  unfold ShellSplitEx.
  destruct (mainLoop_spec (list_ascii_of_string s) splitFn
              (S (length (list_ascii_of_string s))) 0 [])
    as (res & e & H & _); [lia|lia|rewrite slice_nil; apply clean_nil|constructor|].
  now exists (res, e).
Qed.

Lemma ShellSplitEx_spec (s : string) (splitFn : rune -> bool) :
  exists res e,
    ShellSplitEx s splitFn = Some (res, e) /\
    ((e = err_nil /\ clean (list_ascii_of_string s) /\
      match res with
      | None => True
      | Some fs => fs <> [] /\ Forall cleanS fs
      end) \/
     (res = None /\ is_err e = true /\
      (tokenizerKind e = Some InvalidEncoding \/
       (tokenizerKind e = Some UnterminatedQuote /\ clean (list_ascii_of_string s))))).
Proof.
  unfold ShellSplitEx.
  apply mainLoop_spec; [lia|lia|rewrite slice_nil; apply clean_nil|constructor].
Qed.

(** ** The closures on runes that open no quote *)

Lemma take_drop_runes (f : rune -> bool) (cs : list (rune * list ascii)) :
  takeRunes f cs ++ dropRunes f cs = cs.
Proof.
  induction cs as [|rc cs IH]; [reflexivity|]. cbn.
  destruct (f (fst rc)); [cbn; now rewrite IH|reflexivity].
Qed.

Lemma takeRunes_all (f : rune -> bool) (cs : list (rune * list ascii)) :
  Forall (fun rc => f (fst rc) = true) (takeRunes f cs).
Proof.
  induction cs as [|rc cs IH]; [constructor|]. cbn.
  destruct (f (fst rc)) eqn:E; [now constructor|constructor].
Qed.

Lemma dropRunes_head (f : rune -> bool) (cs : list (rune * list ascii)) :
  match dropRunes f cs with
  | [] => True
  | rc :: _ => f (fst rc) = false
  end.
Proof.
  induction cs as [|rc cs IH]; [exact I|]. cbn.
  destruct (f (fst rc)) eqn:E; [exact IH|exact E].
Qed.

Lemma dropRunes_incl (f : rune -> bool) (P : rune * list ascii -> Prop)
      (cs : list (rune * list ascii)) :
  Forall P cs -> Forall P (dropRunes f cs).
Proof.
  intros H. rewrite <- (take_drop_runes f cs) in H. now apply Forall_app in H.
Qed.

Lemma takeRunes_incl (f : rune -> bool) (P : rune * list ascii -> Prop)
      (cs : list (rune * list ascii)) :
  Forall P cs -> Forall P (takeRunes f cs).
Proof.
  intros H. rewrite <- (take_drop_runes f cs) in H. now apply Forall_app in H.
Qed.

Lemma bytesOf_nonempty (cs : list (rune * list ascii)) :
  Forall isRune cs -> cs <> [] -> bytesOf cs <> [].
Proof.
  intros H Hn E. apply chunks_length in H. rewrite E in H.
  destruct cs; [congruence|cbn in H; lia].
Qed.

Lemma runsAcc_field (sep : rune -> bool) (cur : list ascii)
      (cs : list (rune * list ascii)) :
  runsAcc sep cur cs =
  emit (cur ++ bytesOf (takeRunes (fun r => negb (sep r)) cs))
  ++ runsAcc sep [] (dropRunes (fun r => negb (sep r)) cs).
Proof.
  revert cur. induction cs as [|[r c] cs IH]; intros cur.
  - cbn. now rewrite !app_nil_r.
  - cbn [runsAcc takeRunes dropRunes fst]. destruct (sep r) eqn:E; cbn [negb].
    + cbn. now rewrite E, app_nil_r.
    + rewrite IH, bytesOf_cons. cbn [snd]. now rewrite app_assoc.
Qed.

Lemma runsAcc_sep (sep : rune -> bool) (cs : list (rune * list ascii)) :
  runsAcc sep [] cs = runsAcc sep [] (dropRunes sep cs).
Proof.
  induction cs as [|[r c] cs IH]; [reflexivity|].
  cbn [runsAcc dropRunes fst]. destruct (sep r) eqn:E; [exact IH|].
  cbn [runsAcc]. now rewrite E.
Qed.

Section PlainInput.

Variable splitFn : rune -> bool.


Lemma followed_chunks (cs : list (rune * list ascii)) (sep : bool) :
  Forall isRune cs ->
  match cs with [] => True | rc :: _ => splitFn (fst rc) = sep end ->
  followed splitFn (bytesOf cs) sep.
Proof.
  intros H. destruct cs as [|[r c] cs]; intros Hh; [now left|]. right.
  apply Forall_inv in H. rename H into H1. exists r, (length c).
  rewrite bytesOf_cons. cbn [snd fst] in *. split; [now apply isRune_ctx|].
  split; [apply H1|exact Hh].
Qed.

Lemma skipSplitCh_exact (cs : list (rune * list ascii)) :
  forall (b pre rest : list ascii) (fuel : nat),
    b = pre ++ bytesOf cs ++ rest ->
    Forall isRune cs -> Forall (fun rc => splitFn (fst rc) = true) cs ->
    followed splitFn rest false -> (length cs < fuel)%nat ->
    skipSplitCh b splitFn fuel (length pre)
    = Some (err_nil, (length pre + length (bytesOf cs))%nat).
Proof.
  induction cs as [|[r c] cs IH]; intros b pre rest fuel Hb Hr Hs Hf Hfuel;
    (destruct fuel as [|fuel]; [cbn in Hfuel; lia|]); cbn [skipSplitCh].
  - cbn in Hb. subst b. rewrite Nat.add_0_r.
    destruct Hf as [->|(r & s & D & Hne & Hp)].
    + rewrite app_nil_r, Nat.ltb_irrefl. reflexivity.
    + rewrite skipn_app, skipn_all, Nat.sub_diag. cbn [skipn app].
      rewrite D. destruct (r =? utf8.RuneError) eqn:E; z_cmp; [congruence|].
      rewrite Hp. cbn [negb].
      destruct (length pre <? length (pre ++ rest))%nat; reflexivity.
  - inversion Hr as [|? ? H1 H2]; subst. inversion Hs as [|? ? H3 H4]; subst.
    cbn [fst] in H3. rewrite bytesOf_cons. cbn [snd].
    pose proof (isRune_length _ _ H1) as Hc.
    destruct (length pre <? length (pre ++ (c ++ bytesOf cs) ++ rest))%nat eqn:E; nat_cmp.
    2:{ rewrite !length_app in E. lia. }
    rewrite skipn_app, skipn_all, Nat.sub_diag. cbn [skipn app].
    rewrite <- app_assoc, (isRune_ctx _ _ _ H1).
    destruct H1 as [_ H1]. cbn [fst] in H1.
    destruct (r =? utf8.RuneError) eqn:Er; z_cmp; [congruence|].
    rewrite H3. cbn [negb].
    rewrite <- (length_app pre c).
    rewrite (IH _ (pre ++ c) rest); auto.
    + rewrite !length_app. do 2 f_equal. lia.
    + now rewrite <- !app_assoc.
    + cbn in Hfuel. lia.
Qed.

Lemma findSplitCh_exact (cs : list (rune * list ascii)) :
  forall (b pre rest : list ascii) (fuel : nat) (prev : rune),
    b = pre ++ bytesOf cs ++ rest ->
    Forall isRune cs ->
    Forall (fun rc => splitFn (fst rc) = false /\ isQuote (fst rc) = false) cs ->
    followed splitFn rest true -> (length cs < fuel)%nat ->
    findSplitCh_loop b splitFn fuel prev (length pre)
    = Some (err_nil, (length pre + length (bytesOf cs))%nat).
Proof.
  induction cs as [|[r c] cs IH]; intros b pre rest fuel prev Hb Hr Hs Hf Hfuel;
    (destruct fuel as [|fuel]; [cbn in Hfuel; lia|]); cbn [findSplitCh_loop].
  - cbn in Hb. subst b. rewrite Nat.add_0_r.
    destruct Hf as [->|(r & s & D & Hne & Hp)].
    + rewrite app_nil_r, Nat.ltb_irrefl. reflexivity.
    + rewrite skipn_app, skipn_all, Nat.sub_diag. cbn [skipn app].
      rewrite D. destruct (r =? utf8.RuneError) eqn:E; z_cmp; [congruence|].
      rewrite Hp.
      destruct (length pre <? length (pre ++ rest))%nat; reflexivity.
  - inversion Hr as [|? ? H1 H2]; subst. inversion Hs as [|? ? H3 H4]; subst.
    cbn [fst] in H3. destruct H3 as [H3 Hq]. rewrite bytesOf_cons. cbn [snd].
    pose proof (isRune_length _ _ H1) as Hc.
    destruct (length pre <? length (pre ++ (c ++ bytesOf cs) ++ rest))%nat eqn:E; nat_cmp.
    2:{ rewrite !length_app in E. lia. }
    rewrite skipn_app, skipn_all, Nat.sub_diag. cbn [skipn app].
    rewrite <- app_assoc, (isRune_ctx _ _ _ H1).
    destruct H1 as [_ H1]. cbn [fst] in H1.
    destruct (r =? utf8.RuneError) eqn:Er; z_cmp; [congruence|].
    rewrite H3. unfold isQuote in Hq. rewrite Hq.
    rewrite <- (length_app pre c).
    rewrite (IH _ (pre ++ c) rest); auto.
    + rewrite !length_app. do 2 f_equal. lia.
    + now rewrite <- !app_assoc.
    + cbn in Hfuel. lia.
Qed.


Lemma field_plain (b pre rest : list ascii) (fld : list (rune * list ascii)) :
  b = pre ++ bytesOf fld ++ rest ->
  Forall isRune fld ->
  match fld with [] => False | rc :: _ => isQuote (fst rc) = false end ->
  field b (length pre) (length pre + length (bytesOf fld))
  = string_of_list_ascii (bytesOf fld).
Proof.
  intros -> Hr Hq. unfold field.
  assert (Hs : slice (pre ++ bytesOf fld ++ rest) (length pre)
                     (length pre + length (bytesOf fld)) = bytesOf fld).
  { rewrite slice_prefix, firstn_app, Nat.sub_diag, firstn_all. cbn. apply app_nil_r. }
  destruct fld as [|[r c] fld]; [contradiction|].
  apply Forall_inv in Hr. cbn [fst] in Hq.
  assert (Hb : (byteAt (pre ++ bytesOf ((r, c) :: fld) ++ rest) (length pre) =? quote_dbl)
               || (byteAt (pre ++ bytesOf ((r, c) :: fld) ++ rest) (length pre) =? quote_sgl)
               = false).
  { rewrite <- (Nat.add_0_r (length pre)), byteAt_app_r, bytesOf_cons. cbn [snd].
    pose proof (isRune_nonempty _ _ Hr) as Hne.
    destruct c as [|x c]; [congruence|]. cbn [app]. unfold byteAt. cbn [nth].
    destruct ((byteZ x =? quote_dbl) || (byteZ x =? quote_sgl)) eqn:E; [|reflexivity].
    assert (Hx : byteZ x < 0x80).
    { apply orb_prop in E. unfold quote_dbl, quote_sgl in E.
      destruct E as [E|E]; apply Z.eqb_eq in E; lia. }
    destruct Hr as [Hd _]. cbn [fst snd] in Hd.
    rewrite (DecodeRune_ascii _ _ Hx) in Hd. inversion Hd; subst r.
    unfold isQuote in Hq. congruence. }
  rewrite Hb, andb_false_r, Hs. reflexivity.
Qed.

Lemma mainLoop_exact (fuel : nat) :
  forall (cs : list (rune * list ascii)) (b pre : list ascii) (ss : list string),
    b = pre ++ bytesOf cs ->
    Forall isRune cs ->
    Forall (fun rc => splitFn (fst rc) = false -> isQuote (fst rc) = false) cs ->
    (length cs < fuel)%nat ->
    mainLoop b splitFn fuel (length pre) ss
    = Some (wrap (ss ++ map string_of_list_ascii (runsAcc splitFn [] cs))).
Proof.
  induction fuel as [|fuel IH]; intros cs b pre ss Hb Hr Hq Hfuel; [lia|].
  cbn [mainLoop].
  destruct cs as [|rc0 cs0] eqn:Ecs.
  { cbn in Hb. rewrite app_nil_r in Hb. subst b. rewrite Nat.ltb_irrefl.
    cbn [runsAcc emit map]. rewrite app_nil_r. now destruct ss. }
  rewrite <- Ecs in *. assert (Hne : cs <> []) by (rewrite Ecs; discriminate).
  clear Ecs rc0 cs0.
  pose proof (chunks_length _ Hr) as Hlen.
  pose proof (bytesOf_nonempty _ Hr Hne) as Hbn.
  assert (Hl : length b = (length pre + length (bytesOf cs))%nat)
    by (subst b; apply length_app).
  destruct (length pre <? length b)%nat eqn:E; nat_cmp.
  2:{ destruct (bytesOf cs); [congruence|cbn in Hl; lia]. }
  set (seps := takeRunes splitFn cs).
  set (cs1 := dropRunes splitFn cs).
  set (nonsep := fun r => negb (splitFn r)).
  set (fld := takeRunes nonsep cs1).
  set (cs2 := dropRunes nonsep cs1).
  assert (E1 : cs = seps ++ cs1) by (symmetry; apply take_drop_runes).
  assert (E2 : cs1 = fld ++ cs2) by (symmetry; apply take_drop_runes).
  assert (Hn1 : length cs = (length seps + length cs1)%nat)
    by (rewrite E1 at 1; apply length_app).
  assert (Hn2 : length cs1 = (length fld + length cs2)%nat)
    by (rewrite E2 at 1; apply length_app).
  assert (Hr1 : Forall isRune cs1) by now apply dropRunes_incl.
  assert (Hrs : Forall isRune seps) by now apply takeRunes_incl.
  assert (Hrf : Forall isRune fld) by now apply takeRunes_incl.
  assert (Hr2 : Forall isRune cs2) by now apply dropRunes_incl.
  assert (Hb1 : b = pre ++ bytesOf seps ++ bytesOf cs1).
  { now rewrite <- bytesOf_app, <- E1. }
  assert (Hb2 : b = (pre ++ bytesOf seps) ++ bytesOf fld ++ bytesOf cs2).
  { now rewrite <- bytesOf_app, <- E2, <- app_assoc. }
  rewrite (skipSplitCh_exact seps b pre (bytesOf cs1)); auto.
  2:{ apply takeRunes_all. }
  2:{ apply followed_chunks; [exact Hr1|]. apply (dropRunes_head splitFn cs). }
  2:{ lia. }
  cbn [is_err]. unfold findSplitCh. rewrite <- length_app.
  rewrite (findSplitCh_exact fld b (pre ++ bytesOf seps) (bytesOf cs2)); auto.
  2:{ pose proof (takeRunes_all nonsep cs1) as Ht. fold fld in Ht.
      assert (Hqf : Forall (fun rc => splitFn (fst rc) = false -> isQuote (fst rc) = false) fld).
      { apply takeRunes_incl. now apply dropRunes_incl. }
      rewrite Forall_forall in *. intros rc Hin.
      specialize (Ht rc Hin). specialize (Hqf rc Hin). unfold nonsep in Ht.
      destruct (splitFn (fst rc)); [discriminate|]. auto. }
  2:{ apply followed_chunks; [exact Hr2|].
      pose proof (dropRunes_head nonsep cs1) as Hh. fold cs2 in Hh.
      destruct cs2 as [|rc ?]; [exact I|]. unfold nonsep in Hh.
      now destruct (splitFn (fst rc)). }
  2:{ lia. }
  cbn [is_err].
  assert (Hruns : runsAcc splitFn [] cs
                  = emit (bytesOf fld) ++ runsAcc splitFn [] cs2).
  { rewrite runsAcc_sep. fold cs1. now rewrite runsAcc_field. }
  destruct fld as [|rc fld'] eqn:Ef.
  - (* only separators were left *)
    assert (Hc1 : cs1 = []).
    { pose proof (dropRunes_head splitFn cs) as Hh. fold cs1 in Hh.
      destruct cs1 as [|rc cs1']; [reflexivity|]. exfalso.
      unfold fld, nonsep in Ef. cbn in Ef. rewrite Hh in Ef. discriminate. }
    assert (Hc2 : cs2 = []) by (rewrite Hc1 in E2; now destruct cs2).
    cbn [bytesOf map concat length]. rewrite Nat.add_0_r, Nat.ltb_irrefl.
    rewrite (IH [] b (pre ++ bytesOf seps) ss).
    + rewrite Hruns, Hc2. reflexivity.
    + rewrite Hb2, Hc2. reflexivity.
    + constructor.
    + constructor.
    + destruct cs; [congruence|cbn in Hfuel; cbn; lia].
  - rewrite <- Ef in *.
    assert (Hfn : bytesOf fld <> []) by (apply bytesOf_nonempty; [exact Hrf|rewrite Ef; discriminate]).
    destruct (length (pre ++ bytesOf seps) <?
              length (pre ++ bytesOf seps) + length (bytesOf fld))%nat eqn:E3; nat_cmp.
    2:{ destruct (bytesOf fld); [congruence|cbn in E3; lia]. }
    rewrite (field_plain b (pre ++ bytesOf seps) (bytesOf cs2) fld); auto.
    2:{ rewrite Ef. pose proof (takeRunes_all nonsep cs1) as Ht. fold fld in Ht.
        rewrite Ef in Ht. apply Forall_inv in Ht.
        assert (Hin : In rc cs).
        { rewrite E1, E2, Ef. apply in_or_app. right. now left. }
        rewrite Forall_forall in Hq. apply Hq; [exact Hin|].
        unfold nonsep in Ht. now destruct (splitFn (fst rc)). }
    rewrite <- length_app.
    rewrite (IH cs2 b ((pre ++ bytesOf seps) ++ bytesOf fld) _).
    + rewrite Hruns. destruct (bytesOf fld) eqn:Ebf; [congruence|].
      cbn [emit app map]. rewrite <- Ebf. now rewrite <- app_assoc.
    + now rewrite <- app_assoc.
    + exact Hr2.
    + apply dropRunes_incl. now apply dropRunes_incl.
    + assert (length fld <> 0)%nat by (rewrite Ef; discriminate). lia.
Qed.

End PlainInput.

(** The fields of a valid input that opens no quote: the maximal runs of
    runes that are not separators.  A quote counts only when it is not a
    separator itself, and U+FFFD must not occur (see [DecodeRune]). *)
Theorem ShellSplitEx_plain (s : string) (splitFn : rune -> bool) :
  Forall (fun r => r <> utf8.RuneError /\ (splitFn r = false -> isQuote r = false))
         (utf8.runes (list_ascii_of_string s)) ->
  ShellSplitEx s splitFn
  = Some (wrap (maximalRuns splitFn (list_ascii_of_string s))).
Proof.
  intros H. unfold ShellSplitEx, maximalRuns.
  set (b := list_ascii_of_string s) in *.
  assert (Hr : Forall isRune (utf8.decode b)).
  { apply decode_isRune. eapply Forall_impl; [|exact H]. now intros r [? _]. }
  apply (mainLoop_exact splitFn (S (length b)) (utf8.decode b) b [] []).
  - now rewrite bytesOf_decode.
  - exact Hr.
  - unfold utf8.runes in H. rewrite Forall_map in H.
    eapply Forall_impl; [|exact H]. now intros rc [_ ?].
  - pose proof (chunks_length _ Hr) as Hl. rewrite bytesOf_decode in Hl. lia.
Qed.

(** ** Spans and fields *)

Lemma substring_slice (s : string) (i n : nat) :
  string_of_list_ascii (firstn n (skipn i (list_ascii_of_string s)))
  = String.substring i n s.
Proof.
  revert i n. induction s as [|c s IH]; intros i n.
  - destruct i, n; reflexivity.
  - destruct i as [|i].
    + destruct n as [|n]; [reflexivity|]. cbn. f_equal. apply (IH 0%nat).
    + cbn. apply IH.
Qed.

Lemma get_nth (s : string) (i : nat) :
  (i < length (list_ascii_of_string s))%nat ->
  String.get i s = Some (nth i (list_ascii_of_string s) zero).
Proof.
  revert i. induction s as [|c s IH]; intros i H; [cbn in H; lia|].
  destruct i as [|i]; [reflexivity|]. cbn. apply IH. cbn in H. lia.
Qed.

Lemma byteZ_inj (c1 c2 : ascii) : byteZ c1 = byteZ c2 -> c1 = c2.
Proof.
  unfold byteZ. intros H. apply N2Z.inj in H.
  rewrite <- (ascii_N_embedding c1), <- (ascii_N_embedding c2). now rewrite H.
Qed.

Lemma byteZ_eqb (c1 c2 : ascii) : (byteZ c1 =? byteZ c2) = Ascii.eqb c1 c2.
Proof.
  destruct (Ascii.eqb c1 c2) eqn:E.
  - apply Ascii.eqb_eq in E. subst. apply Z.eqb_refl.
  - apply Z.eqb_neq. intros H. apply byteZ_inj in H. subst.
    rewrite Ascii.eqb_refl in E. discriminate.
Qed.

Lemma quotedSpan_field (s : string) (start end_ : nat) :
  (start < end_ <= length (list_ascii_of_string s))%nat ->
  quotedSpan s start end_
  = (byteAt (list_ascii_of_string s) start =? byteAt (list_ascii_of_string s) (end_ - 1))
    && ((byteAt (list_ascii_of_string s) start =? quote_dbl)
        || (byteAt (list_ascii_of_string s) start =? quote_sgl)).
Proof.
  intros H. unfold quotedSpan. rewrite !get_nth by lia. unfold byteAt.
  rewrite byteZ_eqb.
  change quote_dbl with (byteZ dquote). change quote_sgl with (byteZ squote).
  now rewrite !byteZ_eqb.
Qed.

Section Spans.

Variable b : list ascii.
Variable splitFn : rune -> bool.

Lemma scanSpans_mainLoop (fuel : nat) :
  forall (idx : nat) (sp : list (nat * nat)) (ss : list string),
    scanSpans b splitFn fuel idx = Some sp ->
    mainLoop b splitFn fuel idx ss
    = Some (wrap (ss ++ map (fun ac => field b (fst ac) (snd ac)) sp)).
Proof.
  induction fuel as [|fuel IH]; intros idx sp ss H; [discriminate|].
  cbn [scanSpans mainLoop] in *.
  destruct (idx <? length b)%nat.
  2:{ inversion H; subst. cbn [map]. rewrite app_nil_r. now destruct ss. }
  destruct (skipSplitCh b splitFn (S (length b)) idx) as [[e1 idx1]|]; [|discriminate].
  destruct (is_err e1); [discriminate|].
  destruct (findSplitCh b splitFn (S (length b)) idx1) as [[e2 idx2]|]; [|discriminate].
  destruct (is_err e2); [discriminate|].
  destruct (scanSpans b splitFn fuel idx2) as [sp'|] eqn:E; [|discriminate].
  destruct (idx1 <? idx2)%nat; inversion H; subst.
  - rewrite (IH _ _ _ E). cbn [map fst snd]. now rewrite <- app_assoc.
  - now apply IH.
Qed.

Lemma mainLoop_scanSpans (fuel : nat) :
  forall (idx : nat) (ss : list string) (res : option (list string)),
    mainLoop b splitFn fuel idx ss = Some (res, err_nil) ->
    exists sp, scanSpans b splitFn fuel idx = Some sp.
Proof.
  induction fuel as [|fuel IH]; intros idx ss res H; [discriminate|].
  cbn [scanSpans mainLoop] in *.
  destruct (idx <? length b)%nat; [|now exists []].
  destruct (skipSplitCh b splitFn (S (length b)) idx) as [[e1 idx1]|]; [|discriminate].
  destruct (is_err e1) eqn:E1; [inversion H; subst; discriminate|].
  destruct (findSplitCh b splitFn (S (length b)) idx1) as [[e2 idx2]|]; [|discriminate].
  destruct (is_err e2) eqn:E2; [inversion H; subst; discriminate|].
  destruct (idx1 <? idx2)%nat; apply IH in H; destruct H as [sp' ->]; eauto.
Qed.

(** A span that starts with a quote holds the closing quote as well. *)
Lemma findSplitCh_quoted (idx idx' : nat) :
  (idx < length b)%nat -> isQuote (byteAt b idx) = true ->
  findSplitCh b splitFn (S (length b)) idx = Some (err_nil, idx') ->
  (idx < idx')%nat -> (idx + 2 <= idx')%nat.
Proof.
  intros Hlt Hq H Hprog. unfold findSplitCh in H. cbn [findSplitCh_loop] in H.
  destruct (idx <? length b)%nat eqn:E; nat_cmp; [|lia].
  destruct (skipn idx b) as [|x t] eqn:Es.
  { apply (f_equal (@length _)) in Es. rewrite length_skipn in Es. cbn in Es. lia. }
  assert (Hx : byteAt b idx = byteZ x).
  { replace idx with (idx + 0)%nat at 1 by lia. rewrite <- byteAt_skipn, Es. reflexivity. }
  rewrite Hx in Hq.
  assert (Hx80 : byteZ x < 0x80).
  { unfold isQuote, quote_dbl, quote_sgl in Hq. apply orb_prop in Hq.
    destruct Hq as [Hq|Hq]; apply Z.eqb_eq in Hq; lia. }
  rewrite (DecodeRune_ascii _ _ Hx80) in H.
  destruct (byteZ x =? utf8.RuneError) eqn:Er.
  { apply Z.eqb_eq in Er. unfold utf8.RuneError in Er. lia. }
  destruct (splitFn (byteZ x)); [inversion H; lia|].
  unfold isQuote in Hq. rewrite Hq in H.
  change (utf8.RuneError =? backslash) with false in H. cbv iota in H.
  unfold findEndQuote in H.
  destruct (findEndQuote_loop_spec b (byteZ x) (S (length b)) utf8.RuneError (idx + 1)%nat)
    as (e1 & idx1 & H1 & A1 & P1); [lia|lia|].
  rewrite H1 in H. destruct P1 as [[-> P1]|[He1 _]].
  2:{ rewrite He1 in H. inversion H. }
  cbn [is_err] in H.
  destruct (findSplitCh_loop_spec b splitFn (length b) (byteZ x) idx1)
    as (e2 & idx2 & H2 & A2 & _); [destruct A1; lia|lia|].
  rewrite H2 in H. inversion H; subst. destruct A2 as [? _]. lia.
Qed.

Lemma spansFrom_weaken (i j : nat) (sp : list (nat * nat)) :
  (i <= j)%nat -> spansFrom b j sp -> spansFrom b i sp.
Proof.
  intros Hij H. destruct sp as [|[a c] sp]; [exact I|]. cbn [spansFrom] in *.
  destruct H as (? & ? & ? & ?). repeat split; auto; lia.
Qed.

Lemma scanSpans_spansFrom (fuel : nat) :
  forall (idx : nat) (sp : list (nat * nat)),
    (idx <= length b)%nat ->
    scanSpans b splitFn fuel idx = Some sp -> spansFrom b idx sp.
Proof.
  induction fuel as [|fuel IH]; intros idx sp Hle H; [discriminate|].
  cbn [scanSpans] in H.
  destruct (idx <? length b)%nat eqn:E; nat_cmp; [|inversion H; exact I].
  destruct (skipSplitCh_spec b splitFn (S (length b)) idx) as (e1 & idx1 & H1 & A1 & _);
    [lia|lia|].
  rewrite H1 in H. destruct (is_err e1); [discriminate|].
  destruct (findSplitCh b splitFn (S (length b)) idx1) as [[e2 idx2]|] eqn:H2; [|discriminate].
  destruct (is_err e2) eqn:E2; [discriminate|].
  assert (e2 = err_nil) by (destruct e2; try discriminate; reflexivity). subst e2.
  unfold findSplitCh in H2.
  destruct (findSplitCh_loop_spec b splitFn (S (length b)) utf8.RuneError idx1)
    as (e2 & idx2' & H2' & A2 & _); [destruct A1; lia|lia|].
  pose proof H2 as H2c. rewrite H2' in H2c. inversion H2c; subst e2 idx2'.
  destruct A1 as [B1 _], A2 as [B2 _].
  destruct (scanSpans b splitFn fuel idx2) as [sp'|] eqn:Es; [|discriminate].
  apply IH in Es; [|lia].
  destruct (idx1 <? idx2)%nat eqn:E3; nat_cmp; inversion H; subst.
  - cbn [spansFrom]. split; [lia|]. split; [lia|]. split; [|exact Es].
    intros Hq. apply findSplitCh_quoted; auto. lia.
  - apply (spansFrom_weaken idx idx2); [lia|exact Es].
Qed.

End Spans.

Lemma field_emitted (s : string) (start end_ : nat) :
  (start < end_ <= length (list_ascii_of_string s))%nat ->
  (isQuote (byteAt (list_ascii_of_string s) start) = true -> (start + 2 <= end_)%nat) ->
  emitted s (start, end_) (field (list_ascii_of_string s) start end_).
Proof.
  intros H Hq. unfold emitted, field. rewrite quotedSpan_field by lia.
  unfold slice. rewrite !substring_slice.
  destruct (_ && _) eqn:E; [|reflexivity].
  f_equal. lia.
Qed.

(** ** ParseBootConfig *)

Lemma string_of_list_ascii_app (p q : list ascii) :
  string_of_list_ascii (p ++ q)
  = String.append (string_of_list_ascii p) (string_of_list_ascii q).
Proof. induction p as [|c p IH]; [reflexivity|]. cbn. now rewrite IH. Qed.

Lemma list_ascii_of_string_app (s t : string) :
  list_ascii_of_string (String.append s t)
  = list_ascii_of_string s ++ list_ascii_of_string t.
Proof. induction s as [|c s IH]; [reflexivity|]. cbn. now rewrite IH. Qed.

Lemma cutAt_Some (sep : ascii) (p before after : list ascii) :
  strings.cutAt sep p = Some (before, after) ->
  p = before ++ sep :: after /\ ~ In sep before.
Proof.
  revert before after. induction p as [|c p IH]; intros before after H; [discriminate|].
  cbn in H. destruct (Ascii.eqb c sep) eqn:E.
  - apply Ascii.eqb_eq in E. inversion H; subst. split; [reflexivity|]. intros [].
  - destruct (strings.cutAt sep p) as [[k v]|]; [|discriminate]. inversion H; subst.
    destruct (IH _ _ eq_refl) as [-> Hn]. split; [reflexivity|].
    intros [->|Hin]; [|contradiction]. rewrite Ascii.eqb_refl in E. discriminate.
Qed.

Lemma cutAt_None (sep : ascii) (p : list ascii) :
  strings.cutAt sep p = None <-> ~ In sep p.
Proof.
  induction p as [|c p IH]; [split; [intros _ []|reflexivity]|].
  cbn. destruct (Ascii.eqb c sep) eqn:E.
  - apply Ascii.eqb_eq in E. subst. split; [discriminate|]. intros H. elim H. now left.
  - destruct (strings.cutAt sep p) as [[k v]|].
    + split; [discriminate|]. intros H.
      assert (Hx : Some (k, v) = None) by (apply IH; intros Hin; apply H; now right).
      discriminate.
    + split; [|reflexivity]. intros _ [->|Hin].
      * rewrite Ascii.eqb_refl in E. discriminate.
      * now apply (proj1 IH).
Qed.

(** [strings.SplitN] with the equals sign and the limit 2 cuts at the first
    equals sign only. *)
Lemma SplitN_equals (line : string) :
  (hasEquals line /\
   exists key value,
     strings.SplitN line equals_sign 2 = [key; value] /\
     line = String.append key (String.append (String "=" EmptyString) value) /\
     ~ hasEquals key) \/
  (~ hasEquals line /\ strings.SplitN line equals_sign 2 = [line]).
Proof.
  unfold strings.SplitN, hasEquals. cbn [strings.SplitN_bytes].
  destruct (strings.cutAt equals_sign (list_ascii_of_string line)) as [[k v]|] eqn:E.
  - left. apply cutAt_Some in E. destruct E as [E Hn]. split.
    + rewrite E. apply in_or_app. right. now left.
    + exists (string_of_list_ascii k), (string_of_list_ascii v). split; [reflexivity|].
      split.
      * rewrite <- (string_of_list_ascii_of_string line), E.
        now rewrite string_of_list_ascii_app.
      * now rewrite list_ascii_of_string_of_list_ascii.
  - right. apply cutAt_None in E. split; [exact E|]. cbn.
    now rewrite string_of_list_ascii_of_string.
Qed.

Lemma ParseBootConfig_loop_terminates (scanner : bufio.Scanner) :
  forall cmds, exists res, ParseBootConfig_loop scanner cmds = Some res.
Proof.
  induction scanner as [|raw scanner IH]; intros cmds; cbn [ParseBootConfig_loop].
  - eauto.
  - destruct (bufio.tooLong raw); [eauto|].
    destruct (negb _); [eauto|].
    destruct (ShellSplitEx_terminates
                (nth 1 (strings.SplitN (bufio.Text raw) equals_sign 2) EmptyString)
                spaceOrComma) as [[fields err] ->].
    destruct (is_err err); [eauto|]. apply IH.
Qed.

Lemma ParseBootConfig_loop_error (scanner : bufio.Scanner) :
  forall cmds res e,
    ParseBootConfig_loop scanner cmds = Some (res, e) ->
    (is_err e = true -> res = None) /\ (e = err_nil -> res <> None).
Proof.
  induction scanner as [|raw scanner IH]; intros cmds res e H; cbn [ParseBootConfig_loop] in H.
  - inversion H; subst. split; [discriminate|discriminate].
  - destruct (bufio.tooLong raw); [inversion H; subst; split; [reflexivity|discriminate]|].
    destruct (negb _); [inversion H; subst; split; [reflexivity|discriminate]|].
    destruct (ShellSplitEx _ _) as [[fields err]|]; [|discriminate].
    destruct (is_err err); [inversion H; subst; split; [reflexivity|discriminate]|].
    now apply IH in H.
Qed.

Lemma ParseBootConfig_loop_entries (scanner : bufio.Scanner) :
  forall cmds outs e,
    ParseBootConfig_loop scanner cmds = Some (Some outs, e) ->
    e = err_nil /\ exists outs', outs = cmds ++ outs' /\ Forall2 entryOf scanner outs'.
Proof.
  induction scanner as [|raw scanner IH]; intros cmds outs e H; cbn [ParseBootConfig_loop] in H.
  - inversion H; subst. split; [reflexivity|]. exists []. split; [now rewrite app_nil_r|constructor].
  - destruct (bufio.tooLong raw); [discriminate|].
    destruct (SplitN_equals (bufio.Text raw)) as [[_ (key & value & Hkv & Hline & Hkey)]|[_ Hkv]];
      rewrite Hkv in H; cbn [length Nat.eqb negb nth] in H; [|discriminate].
    destruct (ShellSplitEx value spaceOrComma) as [[fields err]|] eqn:Es; [|discriminate].
    destruct (is_err err) eqn:Ee; [discriminate|].
    assert (err = err_nil) by (destruct err; try discriminate; reflexivity). subst err.
    apply IH in H. destruct H as [-> (outs' & -> & Hf)]. split; [reflexivity|].
    eexists (_ :: outs'). split; [now rewrite <- app_assoc|].
    constructor; [|exact Hf]. exists key, value, fields. repeat split; auto.
Qed.

Lemma ParseBootConfig_loop_missing (pre : bufio.Scanner) :
  forall (raw : list ascii) (post : bufio.Scanner) (cmds : list string),
    Forall lineParses pre ->
    bufio.tooLong raw = false -> ~ hasEquals (bufio.Text raw) ->
    ParseBootConfig_loop (pre ++ raw :: post) cmds
    = Some (None, Errorf (MsgMissingEq (bufio.Text raw)) err_nil).
Proof.
  induction pre as [|raw0 pre IH]; intros raw post cmds Hpre Hlong Hne;
    cbn [app ParseBootConfig_loop].
  - rewrite Hlong.
    destruct (SplitN_equals (bufio.Text raw)) as [[He _]|[_ Hkv]]; [contradiction|].
    rewrite Hkv. reflexivity.
  - inversion Hpre as [|? ? [Hl0 (out & key & value & fields & Hline & Hkey & Hs & _)] Hpre'];
      subst.
    rewrite Hl0.
    destruct (SplitN_equals (bufio.Text raw0))
      as [[_ (key' & value' & Hkv & Hline' & Hkey')]|[Hn _]].
    2:{ elim Hn. unfold hasEquals. rewrite Hline, !list_ascii_of_string_app.
        apply in_or_app. right. now left. }
    assert (key' = key /\ value' = value) as [-> ->].
    { rewrite Hline in Hline'. clear - Hline' Hkey Hkey'. unfold hasEquals in *.
      revert key' Hline' Hkey'. induction key as [|c key IHk]; intros key' E Hk'.
      - destruct key' as [|c' key']; cbn in E.
        + inversion E. auto.
        + inversion E; subst. elim Hk'. now left.
      - destruct key' as [|c' key']; cbn in E.
        + inversion E; subst. elim Hkey. now left.
        + inversion E; subst. destruct (IHk (fun H => Hkey (or_intror H)) key' H1
                                          (fun H => Hk' (or_intror H))) as [-> ->].
          auto. }
    rewrite Hkv. cbn [length Nat.eqb negb nth]. rewrite Hs. cbn [is_err].
    now apply IH.
Qed.

Lemma ParseBootConfig_loop_fails (scanner : bufio.Scanner) :
  forall (raw : list ascii) (cmds : list string),
    In raw scanner -> ~ hasEquals (bufio.Text raw) ->
    exists e, ParseBootConfig_loop scanner cmds = Some (None, e) /\ is_err e = true.
Proof.
  induction scanner as [|raw0 scanner IH]; intros raw cmds Hin Hne; [destruct Hin|].
  cbn [ParseBootConfig_loop].
  destruct (bufio.tooLong raw0); [eauto|].
  destruct (SplitN_equals (bufio.Text raw0)) as [[He (key & value & Hkv & _)]|[_ Hkv]];
    rewrite Hkv; cbn [length Nat.eqb negb nth]; [|eauto].
  destruct (ShellSplitEx_terminates value spaceOrComma) as [[fields err] Hs].
  rewrite Hs. destruct (is_err err) eqn:Ee; [eauto|].
  destruct Hin as [->|Hin]; [contradiction|]. now apply (IH raw).
Qed.

(** ** Joining fields with single spaces *)

Lemma spaceChunk_isRune : isRune spaceChunk.
Proof. split; [reflexivity|discriminate]. Qed.

Lemma runsAcc_nonsep (sep : rune -> bool) (cs rest : list (rune * list ascii)) :
  forall cur,
    Forall (fun rc => sep (fst rc) = false) cs ->
    runsAcc sep cur (cs ++ rest) = runsAcc sep (cur ++ bytesOf cs) rest.
Proof.
  induction cs as [|[r c] cs IH]; intros cur H.
  - cbn. now rewrite app_nil_r.
  - inversion H as [|? ? H1 H2]; subst. cbn [fst] in H1.
    cbn [app runsAcc]. rewrite H1, IH, bytesOf_cons by assumption.
    cbn [snd]. now rewrite app_assoc.
Qed.

Section Join.

Variable sep : rune -> bool.
Hypothesis sep_space : sep space = true.

Lemma runsAcc_joinChunks (css : list (list (rune * list ascii))) :
  Forall (fieldChunks sep) css ->
  runsAcc sep [] (joinChunks spaceChunk css) = map bytesOf css.
Proof.
  induction 1 as [|cs css (Hne & Hr & Hs) Hcss IH]; [reflexivity|].
  assert (Hns : Forall (fun rc => sep (fst rc) = false) cs).
  { eapply Forall_impl; [|exact Hs]. now intros rc [? _]. }
  pose proof (bytesOf_nonempty _ Hr Hne) as Hb.
  cbn [joinChunks map]. destruct css as [|cs' css].
  - rewrite <- (app_nil_r cs) at 1. rewrite runsAcc_nonsep by assumption.
    cbn. destruct (bytesOf cs); [congruence|reflexivity].
  - rewrite runsAcc_nonsep by assumption. unfold spaceChunk at 1.
    cbn [runsAcc app]. rewrite sep_space, IH.
    destruct (bytesOf cs); [congruence|reflexivity].
Qed.

Lemma joinChunks_isRune (css : list (list (rune * list ascii))) :
  Forall (fieldChunks sep) css ->
  Forall (fun rc => isRune rc /\ (sep (fst rc) = false -> isQuote (fst rc) = false))
         (joinChunks spaceChunk css).
Proof.
  induction 1 as [|cs css (Hne & Hr & Hs) Hcss IH]; [constructor|].
  assert (Hcs : Forall (fun rc => isRune rc /\
                                  (sep (fst rc) = false -> isQuote (fst rc) = false)) cs).
  { rewrite Forall_forall in *. intros rc Hin. split; [now apply Hr|].
    intros _. now apply Hs. }
  cbn [joinChunks]. destruct css as [|cs' css]; [exact Hcs|].
  apply Forall_app. split; [exact Hcs|]. constructor; [|exact IH].
  split; [apply spaceChunk_isRune|]. cbn [fst spaceChunk]. rewrite sep_space. discriminate.
Qed.

End Join.

Lemma Join_bytes (fs : list string) :
  list_ascii_of_string (strings.Join fs (String " " EmptyString))
  = bytesOf (joinChunks spaceChunk
               (map (fun f => utf8.decode (list_ascii_of_string f)) fs)).
Proof.
  unfold strings.Join. induction fs as [|f fs IH]; [reflexivity|].
  destruct fs as [|f' fs]; cbn [String.concat map joinChunks].
  - now rewrite bytesOf_decode.
  - cbn [String.concat map joinChunks] in IH.
    rewrite !list_ascii_of_string_app, IH, bytesOf_app, bytesOf_cons, bytesOf_decode.
    reflexivity.
Qed.

(** * The claims *)

Ltac forall_concrete :=
  repeat match goal with
  | |- Forall ?P ?l =>
      let l' := eval vm_compute in l in
      change (Forall P l'); (apply Forall_nil || apply Forall_cons); cbv beta
  | |- _ /\ _ => split
  | |- _ <> _ => let H := fresh in intro H; vm_compute in H; discriminate H
  | |- _ = _ => vm_compute; reflexivity
  end.

Lemma wrap_Some (l fs : list string) : wrap l = (Some fs, err_nil) -> l = fs.
Proof. destruct l; cbn; intros H; inversion H; reflexivity. Qed.

Lemma wrap_None (l : list string) (e : error) : wrap l = (None, e) -> l = [].
Proof. destruct l; cbn; intros H; [reflexivity|inversion H]. Qed.

Lemma fields_emitted (s : string) (sp : list (nat * nat)) :
  forall idx,
    spansFrom (list_ascii_of_string s) idx sp ->
    Forall2 (emitted s) sp
            (map (fun ac => field (list_ascii_of_string s) (fst ac) (snd ac)) sp).
Proof.
  induction sp as [|[a c] sp IH]; intros idx H; [constructor|].
  cbn [spansFrom] in H. destruct H as (_ & Hac & Hq & H).
  cbn [map fst snd]. constructor; [now apply field_emitted|]. now apply (IH c).
Qed.

Lemma runsAcc_all_sep (sep : rune -> bool) (cs : list (rune * list ascii)) :
  Forall (fun rc => sep (fst rc) = true) cs -> runsAcc sep [] cs = [].
Proof.
  induction 1 as [|[r c] cs H _ IH]; [reflexivity|].
  cbn [fst] in H. cbn [runsAcc]. now rewrite H.
Qed.

(** C1 (the code departs from the claim).  U+FFFD in its valid encoding
    EF BF BD is valid UTF-8 and holds no quote; its only maximal run is the
    input itself.  [ShellSplit] nevertheless reports an invalid encoding at
    index 0: each closure tests [r == utf8.RuneError] without looking at the
    size that [DecodeRune] returned. *)
Theorem C1_replacement_character_rejected :
  utf8.Valid (list_ascii_of_string sample_replacement) = true /\
  utf8.runes (list_ascii_of_string sample_replacement) = [utf8.RuneError] /\
  maximalRuns unicode.IsSpace (list_ascii_of_string sample_replacement)
  = [sample_replacement] /\
  ShellSplit sample_replacement
  = Some (None, Errorf (MsgSkipInvalid "239" 0 EmptyString) err_nil).
Proof. repeat split; vm_compute; reflexivity. Qed.

(** C2.  [ShellSplit] on the command line of [main] succeeds with the four
    fields test, me, here and there, ok, in that order. *)
Theorem C2_quoted_words :
  ShellSplit sample_quoted
  = Some (Some ["test"; "me"; "here and there"; "ok"]%string, err_nil).
Proof. vm_compute. reflexivity. Qed.

(** C3.  When [ShellSplitEx] succeeds with the fields [fs], the scan found
    spans [start, end) with [start < end], in order, one per field, and
    each field is what the span emits: the substring strictly between the
    first and the last byte when these are equal and a quote, the whole
    substring otherwise.  Nothing is un-escaped: the escaped quotes of
    [sample_escaped] stay in the field with their backslashes. *)
Theorem C3_field_of_span (s : string) (splitFn : rune -> bool) (fs : list string) :
  (ShellSplitEx s splitFn = Some (Some fs, err_nil) ->
   exists spans,
     scanSpans (list_ascii_of_string s) splitFn
               (S (length (list_ascii_of_string s))) 0 = Some spans /\
     spansFrom (list_ascii_of_string s) 0 spans /\
     Forall2 (emitted s) spans fs) /\
  ShellSplit sample_escaped = Some (Some [sample_escaped_field], err_nil).
Proof.
  split; [|vm_compute; reflexivity].
  unfold ShellSplitEx. intros H.
  destruct (mainLoop_scanSpans _ _ _ _ _ _ H) as [sp Hsp]. exists sp.
  split; [exact Hsp|].
  assert (Hf : spansFrom (list_ascii_of_string s) 0 sp).
  { eapply scanSpans_spansFrom; [|exact Hsp]. lia. }
  split; [exact Hf|].
  rewrite (scanSpans_mainLoop _ _ _ _ _ [] Hsp) in H. cbn [app] in H.
  inversion H as [Hw]. apply wrap_Some in Hw. subst fs.
  now apply (fields_emitted s sp 0%nat).
Qed.

Lemma C3_field_of_span_witness :
  exists spans,
    scanSpans (list_ascii_of_string sample_quoted) unicode.IsSpace
              (S (length (list_ascii_of_string sample_quoted))) 0 = Some spans /\
    spansFrom (list_ascii_of_string sample_quoted) 0 spans /\
    Forall2 (emitted sample_quoted) spans
            ["test"; "me"; "here and there"; "ok"]%string.
Proof.
  apply (proj1 (C3_field_of_span sample_quoted unicode.IsSpace
                  ["test"; "me"; "here and there"; "ok"]%string)).
  vm_compute. reflexivity.
Defined.

(** C4, as the code has it.  [ShellSplit] on [sample_unterminated] returns
    no fields and an error whose cause is the missing end quote; the error
    names index 5, where the search for the end quote starts, and the
    consumed prefix up to and including the opening quote, which stands at
    offset 4. *)
Theorem C4_unterminated_quote :
  ShellSplit sample_unterminated
  = Some (None,
          Errorf (MsgMatchingQuote 5 ("say " ++ DQ)%string)
                 (Errorf (MsgNoEndQuote quote_dbl) err_nil)) /\
  tokenizerKind (Errorf (MsgMatchingQuote 5 ("say " ++ DQ)%string)
                        (Errorf (MsgNoEndQuote quote_dbl) err_nil))
  = Some UnterminatedQuote /\
  String.index 0 DQ sample_unterminated = Some 4%nat.
Proof. repeat split; vm_compute; reflexivity. Qed.

(** C4, as stated, fails: the opening quote of [sample_unterminated] is at
    offset 4, and the error does not name offset 4. *)
Lemma C4_offset_counterexample :
  String.index 0 DQ sample_unterminated = Some 4%nat /\
  ~ (exists consumed cause,
        ShellSplit sample_unterminated
        = Some (None, Errorf (MsgMatchingQuote 4 consumed) cause)).
Proof.
  split; [vm_compute; reflexivity|].
  intros (consumed & cause & H). vm_compute in H. discriminate.
Qed.

(** C5.  An input that is not valid UTF-8 makes [ShellSplitEx] fail with an
    encoding error, whatever the predicate; and whenever [ShellSplitEx] or
    [ParseBootConfig] returns an error, the slice it returns is nil.  Both
    functions return for every input. *)
Theorem C5_invalid_encoding_no_partial_result (s : string) (splitFn : rune -> bool) :
  (utf8.Valid (list_ascii_of_string s) = false ->
   exists e, ShellSplitEx s splitFn = Some (None, e) /\ is_err e = true /\
             tokenizerKind e = Some InvalidEncoding) /\
  (forall res e, ShellSplitEx s splitFn = Some (res, e) -> is_err e = true -> res = None) /\
  (forall res e, ParseBootConfig s = Some (res, e) -> is_err e = true -> res = None) /\
  (exists r, ShellSplitEx s splitFn = Some r) /\
  (exists r, ParseBootConfig s = Some r).
Proof.
  destruct (ShellSplitEx_spec s splitFn) as (res & e & H & P).
  split; [|split; [|split; [|split]]].
  - intros Hv. destruct P as [(_ & Hc & _)|(-> & He & [K|[_ Hc]])].
    + apply clean_Valid in Hc. congruence.
    + now exists e.
    + apply clean_Valid in Hc. congruence.
  - intros res' e' H' He'. rewrite H in H'. inversion H'; subst res' e'.
    destruct P as [(-> & _)|(-> & _)]; [discriminate|reflexivity].
  - intros res' e' H' He'. unfold ParseBootConfig in H'.
    now apply (ParseBootConfig_loop_error _ _ _ _ H').
  - now exists (res, e).
  - apply ParseBootConfig_loop_terminates.
Qed.

Lemma C5_invalid_encoding_witness :
  (exists e, ShellSplitEx sample_invalid unicode.IsSpace = Some (None, e) /\
             is_err e = true /\ tokenizerKind e = Some InvalidEncoding) /\
  @None (list string) = None /\ @None (list string) = None.
Proof.
  split; [|split].
  - apply (proj1 (C5_invalid_encoding_no_partial_result sample_invalid unicode.IsSpace)).
    vm_compute. reflexivity.
  - apply (proj1 (proj2 (C5_invalid_encoding_no_partial_result
                           sample_unterminated unicode.IsSpace))
                 None
                 (Errorf (MsgMatchingQuote 5 ("say " ++ DQ)%string)
                         (Errorf (MsgNoEndQuote quote_dbl) err_nil)));
      vm_compute; reflexivity.
  - apply (proj1 (proj2 (proj2 (C5_invalid_encoding_no_partial_result
                                  sample_missing_equals unicode.IsSpace)))
                 None (Errorf (MsgMissingEq "foo") err_nil));
      vm_compute; reflexivity.
Defined.

(** C6 (the code departs from the claim).  [sample_separator_replacement]
    is valid UTF-8 and each of its runes is a separator for
    [spaceOrReplacement]: it has no maximal run of runes that are not
    separators, so no field is produced and the claim promises the nil
    slice with the nil error.  [ShellSplitEx] returns the encoding error of
    [skipSplitCh] at index 1 instead: the closure tests
    [r == utf8.RuneError] before it asks the predicate, and without looking
    at the size that [DecodeRune] returned. *)
Theorem C6_separator_replacement_rejected :
  utf8.Valid (list_ascii_of_string sample_separator_replacement) = true /\
  utf8.runes (list_ascii_of_string sample_separator_replacement)
  = [space; utf8.RuneError; space] /\
  Forall (fun r => spaceOrReplacement r = true)
         (utf8.runes (list_ascii_of_string sample_separator_replacement)) /\
  maximalRuns spaceOrReplacement (list_ascii_of_string sample_separator_replacement)
  = [] /\
  ShellSplitEx sample_separator_replacement spaceOrReplacement
  = Some (None, Errorf (MsgSkipInvalid "239" 1 " ") err_nil) /\
  tokenizerKind (Errorf (MsgSkipInvalid "239" 1 " ") err_nil) = Some InvalidEncoding.
Proof.
  split; [vm_compute; reflexivity|].
  split; [vm_compute; reflexivity|].
  split; [forall_concrete|].
  repeat split; vm_compute; reflexivity.
Qed.

(** C7.  [ParseBootConfig] on the sample line yields the one entry
    CabCmdBranches=test\x20me,here,ok.  In general a successful call yields
    one entry per scanned line, in order: the trimmed key, an equals sign
    with no space around it, and the fields of the value joined by commas,
    where key and value are the two sides of the first equals sign. *)
Theorem C7_config_entries (input : string) (outs : list string) (e : error) :
  ParseBootConfig sample_config_line
  = Some (Some ["CabCmdBranches=test\x20me,here,ok"%string], err_nil) /\
  (ParseBootConfig input = Some (Some outs, e) ->
   e = err_nil /\ Forall2 entryOf (bufio.NewScanner input) outs).
Proof.
  split; [vm_compute; reflexivity|].
  unfold ParseBootConfig. intros H.
  apply ParseBootConfig_loop_entries in H. destruct H as [-> (outs' & -> & H)].
  split; [reflexivity|exact H].
Qed.

Lemma C7_config_entries_witness :
  err_nil = err_nil /\
  Forall2 entryOf (bufio.NewScanner sample_config_line)
          ["CabCmdBranches=test\x20me,here,ok"%string].
Proof.
  apply (proj2 (C7_config_entries sample_config_line
                  ["CabCmdBranches=test\x20me,here,ok"%string] err_nil)).
  vm_compute. reflexivity.
Defined.

(** C8, as the code has it.  The call stops at the first line it cannot
    parse.  When the lines before [raw] all parse and [raw], a line the
    scanner returns, holds no equals sign, the call returns no entries and
    the error that names [raw] as scanned.  Whenever some scanned line holds
    no equals sign the call fails and returns no entries.  A line with an
    equals sign is cut at the first one only. *)
Theorem C8_missing_equals (input : string) :
  (forall pre raw post,
      bufio.NewScanner input = pre ++ raw :: post ->
      Forall lineParses pre ->
      bufio.tooLong raw = false -> ~ hasEquals (bufio.Text raw) ->
      ParseBootConfig input
      = Some (None, Errorf (MsgMissingEq (bufio.Text raw)) err_nil) /\
      configKind (Errorf (MsgMissingEq (bufio.Text raw)) err_nil)
      = Some MissingSeparator) /\
  (forall raw,
      In raw (bufio.NewScanner input) -> ~ hasEquals (bufio.Text raw) ->
      exists e, ParseBootConfig input = Some (None, e) /\ is_err e = true) /\
  (forall line,
      hasEquals line ->
      exists key value,
        strings.SplitN line equals_sign 2 = [key; value] /\
        line = String.append key (String.append (String "=" EmptyString) value) /\
        ~ hasEquals key).
Proof.
  split; [|split].
  - intros pre raw post E Hpre Hlong Hne. split; [|reflexivity].
    unfold ParseBootConfig. rewrite E. now apply ParseBootConfig_loop_missing.
  - intros raw Hin Hne. unfold ParseBootConfig.
    now apply (ParseBootConfig_loop_fails _ raw).
  - intros line He.
    destruct (SplitN_equals line) as [[_ H]|[Hn _]]; [exact H|contradiction].
Qed.

Lemma C8_missing_equals_witness :
  (ParseBootConfig sample_missing_equals
   = Some (None, Errorf (MsgMissingEq (bufio.Text (list_ascii_of_string "foo"))) err_nil) /\
   configKind (Errorf (MsgMissingEq (bufio.Text (list_ascii_of_string "foo"))) err_nil)
   = Some MissingSeparator) /\
  (exists e, ParseBootConfig sample_two_bad_lines = Some (None, e) /\ is_err e = true) /\
  (exists key value,
      strings.SplitN "a=b=c" equals_sign 2 = [key; value] /\
      "a=b=c"%string
      = String.append key (String.append (String "=" EmptyString) value) /\
      ~ hasEquals key).
Proof.
  assert (Hfoo : ~ hasEquals (bufio.Text (list_ascii_of_string "foo"))).
  { intros H. vm_compute in H.
    destruct H as [H|[H|[H|H]]]; try discriminate; exact H. }
  split; [|split].
  - apply (proj1 (C8_missing_equals sample_missing_equals)
                 [list_ascii_of_string "a=1"] (list_ascii_of_string "foo") []).
    + vm_compute. reflexivity.
    + apply Forall_cons; [|apply Forall_nil]. split; [vm_compute; reflexivity|].
      exists "a=1"%string, "a"%string, "1"%string, (Some ["1"%string]).
      split; [vm_compute; reflexivity|]. split; [|split; vm_compute; reflexivity].
      intros H. vm_compute in H. destruct H as [H|H]; [discriminate|exact H].
    + vm_compute. reflexivity.
    + exact Hfoo.
  - apply (proj1 (proj2 (C8_missing_equals sample_two_bad_lines))
                 (list_ascii_of_string "foo")).
    + vm_compute. right. left. reflexivity.
    + exact Hfoo.
  - apply (proj2 (proj2 (C8_missing_equals EmptyString)) "a=b=c"%string).
    vm_compute. right. left. reflexivity.
Defined.

(** C8, as stated, fails: [sample_two_bad_lines] holds the line foo, which
    has no equals sign, yet the error is the one of the value of the first
    line, whose quote is never closed. *)
Lemma C8_first_failure_counterexample :
  In (list_ascii_of_string "foo") (bufio.NewScanner sample_two_bad_lines) /\
  ~ hasEquals "foo" /\
  ParseBootConfig sample_two_bad_lines
  = Some (None,
          Errorf (MsgAfterEq ("a=" ++ SQ)%string)
                 (Errorf (MsgMatchingQuote 1 SQ)
                         (Errorf (MsgNoEndQuote quote_sgl) err_nil))) /\
  ~ (exists cause,
        ParseBootConfig sample_two_bad_lines
        = Some (None, Errorf (MsgMissingEq "foo") cause)).
Proof.
  split; [vm_compute; right; left; reflexivity|].
  split.
  { intros H. vm_compute in H. destruct H as [H|[H|[H|H]]]; try discriminate; exact H. }
  split; [vm_compute; reflexivity|].
  intros (cause & H). vm_compute in H. discriminate.
Qed.

(** C9, as the code has it.  Let [ShellSplitEx] succeed on [s] with a
    predicate for which the space is a separator, and let every returned
    field be non-empty and hold no separator and no quote.  Then splitting
    the fields joined by single spaces returns the same result. *)
Theorem C9_rejoin (s : string) (splitFn : rune -> bool)
      (res : option (list string)) :
  ShellSplitEx s splitFn = Some (res, err_nil) ->
  splitFn space = true ->
  Forall (fun f => f <> EmptyString /\
                   Forall (fun r => splitFn r = false /\ isQuote r = false)
                          (utf8.runes (list_ascii_of_string f)))
         (fieldsOf res) ->
  ShellSplitEx (strings.Join (fieldsOf res) (String " " EmptyString)) splitFn
  = Some (res, err_nil).
Proof.
  intros H Hsp Hf.
  destruct (ShellSplitEx_spec s splitFn) as (res' & e' & H' & P).
  rewrite H in H'. inversion H'; subst res' e'. clear H'.
  destruct P as [(_ & _ & P)|(_ & He & _)]; [|discriminate].
  destruct res as [fs|]; [|reflexivity].
  destruct P as [Hne Hc]. cbn [fieldsOf] in *.
  set (css := map (fun f => utf8.decode (list_ascii_of_string f)) fs).
  assert (Hcss : Forall (fieldChunks splitFn) css).
  { unfold css. rewrite Forall_map. rewrite Forall_forall in *. intros f Hin.
    destruct (Hf f Hin) as [Hfe Hfr]. specialize (Hc f Hin).
    assert (Hd : Forall isRune (utf8.decode (list_ascii_of_string f))).
    { apply decode_isRune. now apply clean_iff. }
    split; [|split; [exact Hd|]].
    - intros E. apply Hfe. rewrite <- (string_of_list_ascii_of_string f).
      rewrite <- (bytesOf_decode (list_ascii_of_string f)), E. reflexivity.
    - unfold utf8.runes in Hfr. now rewrite Forall_map in Hfr. }
  unfold ShellSplitEx. rewrite Join_bytes. fold css.
  pose proof (joinChunks_isRune splitFn Hsp css Hcss) as Hj.
  assert (Hr : Forall isRune (joinChunks spaceChunk css)).
  { eapply Forall_impl; [|exact Hj]. now intros rc [? _]. }
  pose proof (mainLoop_exact splitFn
                (S (length (bytesOf (joinChunks spaceChunk css))))
                (joinChunks spaceChunk css)
                (bytesOf (joinChunks spaceChunk css)) [] []) as Hm.
  cbn [length app] in Hm. rewrite Hm.
  - rewrite (runsAcc_joinChunks splitFn Hsp css Hcss). unfold css.
    rewrite !map_map.
    rewrite (map_ext _ (fun f => f)), map_id.
    + now destruct fs.
    + intros f. rewrite bytesOf_decode. apply string_of_list_ascii_of_string.
  - reflexivity.
  - exact Hr.
  - eapply Forall_impl; [|exact Hj]. now intros rc [_ ?].
  - pose proof (chunks_length _ Hr). lia.
Qed.

Lemma C9_rejoin_witness :
  ShellSplitEx (strings.Join (fieldsOf (Some ["test"; "me"; "here"]%string))
                             (String " " EmptyString))
               unicode.IsSpace
  = Some (Some ["test"; "me"; "here"]%string, err_nil).
Proof.
  apply (C9_rejoin ("  test me" ++ NL ++ "here ")%string unicode.IsSpace
                   (Some ["test"; "me"; "here"]%string)).
  - vm_compute. reflexivity.
  - reflexivity.
  - forall_concrete.
Defined.

(** C9, as stated, fails twice.  With the white-space predicate, the pair
    of quotes of [sample_empty_quotes] yields an empty field, which holds
    no separator and no quote, and the joined fields split into two fields,
    not three.  With a predicate that only knows the comma, the two fields
    of a,b join into a b, which is a single field. *)
Lemma C9_rejoin_counterexample :
  (ShellSplit sample_empty_quotes
   = Some (Some ["a"; EmptyString; "b"]%string, err_nil) /\
   Forall (fun f => Forall (fun r => unicode.IsSpace r = false /\ isQuote r = false)
                           (utf8.runes (list_ascii_of_string f)))
          ["a"; EmptyString; "b"]%string /\
   ShellSplit (strings.Join ["a"; EmptyString; "b"]%string (String " " EmptyString))
   = Some (Some ["a"; "b"]%string, err_nil)) /\
  (ShellSplitEx "a,b" commaOnly = Some (Some ["a"; "b"]%string, err_nil) /\
   Forall (fun f => Forall (fun r => commaOnly r = false /\ isQuote r = false)
                           (utf8.runes (list_ascii_of_string f)))
          ["a"; "b"]%string /\
   ShellSplitEx (strings.Join ["a"; "b"]%string (String " " EmptyString)) commaOnly
   = Some (Some ["a b"%string], err_nil)).
Proof.
  split; (split; [vm_compute; reflexivity|]);
    (split; [forall_concrete|vm_compute; reflexivity]).
Qed.

(** C10.  On [sample_empty_quotes] the scan finds the spans [0,1), [2,4)
    and [5,6); the middle one is the pair of quotes, it is not empty, and
    the field it emits is the empty string: the result is a, the empty
    string, b. *)
Theorem C10_empty_field :
  scanSpans (list_ascii_of_string sample_empty_quotes) unicode.IsSpace
            (S (length (list_ascii_of_string sample_empty_quotes))) 0
  = Some [(0, 1); (2, 4); (5, 6)]%nat /\
  field (list_ascii_of_string sample_empty_quotes) 2 4 = EmptyString /\
  ShellSplit sample_empty_quotes
  = Some (Some ["a"; EmptyString; "b"]%string, err_nil).
Proof. repeat split; vm_compute; reflexivity. Qed.

(** ** The calls of [main] *)

Example main_ShellSplitEx_values :
  ShellSplitEx main_values spaceOrComma
  = Some (Some ["test\x20me"; "here"; "ok"]%string, err_nil).
Proof. vm_compute. reflexivity. Qed.

Example main_ShellSplitEx_escaped :
  ShellSplitEx main_escaped spaceOrComma
  = Some (Some ["CabCmdBranches"%string; "="%string; "test me"%string;
                sample_escaped_field; "ok"%string], err_nil).
Proof. vm_compute. reflexivity. Qed.

Example main_ParseBootConfig :
  ParseBootConfig bootcfg
  = Some (Some ["kernel.CabCmdBranches=test\x20me,here,ok";
                "kernel.CabCmdDryRun=1"; "kernel.CabIP=10.10.1.234"]%string,
          err_nil).
Proof. vm_compute. reflexivity. Qed.

Example TrimSpace_ascii :
  strings.TrimSpace (String "009" " a b  " ++ NL)%string = "a b"%string.
Proof. vm_compute. reflexivity. Qed.

(** ** Further properties *)

(** When the scan appends no field, [ShellSplitEx] returns the nil slice
    and the nil error; this is so for every input whose runes are all
    separators and none of them U+FFFD, the empty input among them; and
    [ShellSplitEx] never returns a slice that is present and empty. *)
Theorem ShellSplitEx_no_fields_nil (s : string) (splitFn : rune -> bool) :
  (scanSpans (list_ascii_of_string s) splitFn
             (S (length (list_ascii_of_string s))) 0 = Some [] ->
   ShellSplitEx s splitFn = Some (None, err_nil)) /\
  (Forall (fun r => r <> utf8.RuneError /\ splitFn r = true)
          (utf8.runes (list_ascii_of_string s)) ->
   scanSpans (list_ascii_of_string s) splitFn
             (S (length (list_ascii_of_string s))) 0 = Some [] /\
   ShellSplitEx s splitFn = Some (None, err_nil)) /\
  (forall e, ShellSplitEx s splitFn <> Some (Some [], e)) /\
  ShellSplitEx EmptyString splitFn = Some (None, err_nil).
Proof.
  split; [|split; [|split; [|reflexivity]]].
  - intros H. unfold ShellSplitEx.
    now rewrite (scanSpans_mainLoop _ _ _ _ _ [] H).
  - intros H.
    assert (Hs : ShellSplitEx s splitFn = Some (None, err_nil)).
    { rewrite ShellSplitEx_plain.
      - unfold maximalRuns. rewrite runsAcc_all_sep; [reflexivity|].
        unfold utf8.runes in H. rewrite Forall_map in H.
        eapply Forall_impl; [|exact H]. now intros rc [_ ?].
      - eapply Forall_impl; [|exact H]. intros r [Hr Hp]. split; [exact Hr|].
        congruence. }
    split; [|exact Hs]. unfold ShellSplitEx in Hs.
    destruct (mainLoop_scanSpans _ _ _ _ _ _ Hs) as [sp Hsp].
    rewrite (scanSpans_mainLoop _ _ _ _ _ [] Hsp) in Hs. cbn [app] in Hs.
    inversion Hs as [Hw]. apply wrap_None in Hw.
    destruct sp; [exact Hsp|discriminate].
  - intros e H. destruct (ShellSplitEx_spec s splitFn) as (res & e' & H' & P).
    rewrite H in H'. inversion H'; subst res e'.
    destruct P as [(_ & _ & Hne & _)|(Hn & _)]; [now apply Hne|discriminate].
Qed.

Lemma ShellSplitEx_no_fields_nil_witness :
  ShellSplitEx "   " unicode.IsSpace = Some (None, err_nil) /\
  (scanSpans (list_ascii_of_string "   ") unicode.IsSpace
             (S (length (list_ascii_of_string "   "))) 0 = Some [] /\
   ShellSplitEx "   " unicode.IsSpace = Some (None, err_nil)).
Proof.
  split.
  - apply (proj1 (ShellSplitEx_no_fields_nil "   " unicode.IsSpace)).
    vm_compute. reflexivity.
  - apply (proj1 (proj2 (ShellSplitEx_no_fields_nil "   " unicode.IsSpace))).
    forall_concrete.
Defined.

Lemma runsAcc_nonempty (sep : rune -> bool) (cs : list (rune * list ascii)) :
  forall cur, Forall (fun f => f <> []) (runsAcc sep cur cs).
Proof.
  assert (He : forall cur, Forall (fun f : list ascii => f <> []) (emit cur)).
  { intros [|x cur]; cbn; [constructor|]. constructor; [discriminate|constructor]. }
  induction cs as [|[r c] cs IH]; intros cur; cbn [runsAcc]; [apply He|].
  destruct (sep r); [|apply IH]. apply Forall_app. split; [apply He|apply IH].
Qed.

(** On valid UTF-8 without U+FFFD and without quotes, [ShellSplitEx]
    succeeds with the maximal runs of runes that are not separators, in
    order; none of them is empty. *)
Theorem ShellSplitEx_maximal_runs (s : string) (splitFn : rune -> bool) :
  utf8.Valid (list_ascii_of_string s) = true ->
  ~ In utf8.RuneError (utf8.runes (list_ascii_of_string s)) ->
  ~ In quote_dbl (utf8.runes (list_ascii_of_string s)) ->
  ~ In quote_sgl (utf8.runes (list_ascii_of_string s)) ->
  ShellSplitEx s splitFn
  = Some (wrap (maximalRuns splitFn (list_ascii_of_string s))) /\
  snd (wrap (maximalRuns splitFn (list_ascii_of_string s))) = err_nil /\
  fieldsOf (fst (wrap (maximalRuns splitFn (list_ascii_of_string s))))
  = maximalRuns splitFn (list_ascii_of_string s) /\
  Forall (fun f => f <> EmptyString) (maximalRuns splitFn (list_ascii_of_string s)).
Proof.
  intros _ Hr Hd Hs. split; [|split; [|split]].
  - apply ShellSplitEx_plain. apply Forall_forall. intros r Hin.
    split; [intros ->; contradiction|]. intros _. unfold isQuote.
    destruct (r =? quote_dbl) eqn:E1; [apply Z.eqb_eq in E1; subst; contradiction|].
    destruct (r =? quote_sgl) eqn:E2; [apply Z.eqb_eq in E2; subst; contradiction|].
    reflexivity.
  - now destruct (maximalRuns _ _).
  - now destruct (maximalRuns _ _).
  - unfold maximalRuns. rewrite Forall_map.
    eapply Forall_impl; [|apply runsAcc_nonempty]. intros f Hf E. apply Hf.
    now destruct f.
Qed.

Lemma ShellSplitEx_maximal_runs_witness :
  ShellSplitEx " a  bc " unicode.IsSpace
  = Some (wrap (maximalRuns unicode.IsSpace (list_ascii_of_string " a  bc "))) /\
  snd (wrap (maximalRuns unicode.IsSpace (list_ascii_of_string " a  bc "))) = err_nil /\
  fieldsOf (fst (wrap (maximalRuns unicode.IsSpace (list_ascii_of_string " a  bc "))))
  = maximalRuns unicode.IsSpace (list_ascii_of_string " a  bc ") /\
  Forall (fun f => f <> EmptyString)
         (maximalRuns unicode.IsSpace (list_ascii_of_string " a  bc ")).
Proof.
  apply (ShellSplitEx_maximal_runs " a  bc " unicode.IsSpace).
  - vm_compute. reflexivity.
  - intros H. vm_compute in H. repeat (destruct H as [H|H]; [discriminate|]). exact H.
  - intros H. vm_compute in H. repeat (destruct H as [H|H]; [discriminate|]). exact H.
  - intros H. vm_compute in H. repeat (destruct H as [H|H]; [discriminate|]). exact H.
Defined.

(** A call of [ShellSplitEx] that succeeds has read valid UTF-8, and every
    field it returns is valid UTF-8. *)
Theorem ShellSplitEx_success_valid (s : string) (splitFn : rune -> bool)
        (res : option (list string)) :
  ShellSplitEx s splitFn = Some (res, err_nil) ->
  utf8.Valid (list_ascii_of_string s) = true /\
  Forall (fun f => utf8.Valid (list_ascii_of_string f) = true) (fieldsOf res).
Proof.
  intros H. destruct (ShellSplitEx_spec s splitFn) as (res' & e' & H' & P).
  rewrite H in H'. inversion H'; subst res' e'.
  destruct P as [(_ & Hc & P)|(_ & He & _)]; [|discriminate].
  split; [now apply clean_Valid|].
  destruct res as [fs|]; [|constructor]. destruct P as [_ P]. cbn [fieldsOf].
  eapply Forall_impl; [|exact P]. intros f Hf. now apply clean_Valid.
Qed.

Lemma ShellSplitEx_success_valid_witness :
  utf8.Valid (list_ascii_of_string sample_quoted) = true /\
  Forall (fun f => utf8.Valid (list_ascii_of_string f) = true)
         (fieldsOf (Some ["test"; "me"; "here and there"; "ok"]%string)).
Proof.
  apply (ShellSplitEx_success_valid sample_quoted unicode.IsSpace).
  vm_compute. reflexivity.
Defined.

(** An error of [ShellSplitEx] is an encoding error or a missing end
    quote, and a missing end quote is reported only for valid UTF-8. *)
Theorem ShellSplitEx_error_kinds (s : string) (splitFn : rune -> bool)
        (res : option (list string)) (e : error) :
  ShellSplitEx s splitFn = Some (res, e) -> is_err e = true ->
  tokenizerKind e = Some InvalidEncoding \/
  (tokenizerKind e = Some UnterminatedQuote /\
   utf8.Valid (list_ascii_of_string s) = true).
Proof.
  intros H He. destruct (ShellSplitEx_spec s splitFn) as (res' & e' & H' & P).
  rewrite H in H'. inversion H'; subst res' e'.
  destruct P as [(-> & _)|(_ & _ & [K|[K Hc]])]; [discriminate|now left|right].
  split; [exact K|now apply clean_Valid].
Qed.

Lemma ShellSplitEx_error_kinds_witness :
  tokenizerKind (Errorf (MsgMatchingQuote 5 ("say " ++ DQ)%string)
                        (Errorf (MsgNoEndQuote quote_dbl) err_nil))
  = Some InvalidEncoding \/
  (tokenizerKind (Errorf (MsgMatchingQuote 5 ("say " ++ DQ)%string)
                         (Errorf (MsgNoEndQuote quote_dbl) err_nil))
   = Some UnterminatedQuote /\
   utf8.Valid (list_ascii_of_string sample_unterminated) = true).
Proof.
  apply (ShellSplitEx_error_kinds sample_unterminated unicode.IsSpace None).
  - vm_compute. reflexivity.
  - reflexivity.
Defined.

(** ** Runes of one byte and of several bytes *)

Lemma lor_ge (a b : Z) : 0 <= a -> 0 <= b -> a <= Z.lor a b /\ b <= Z.lor a b.
Proof.
  intros Ha Hb. pose proof (Z.add_lor_land a b) as H.
  assert (H1 : 0 <= Z.land a (Z.lnot b)) by (apply Z.land_nonneg; now left).
  assert (H2 : 0 <= Z.land b (Z.lnot a)) by (apply Z.land_nonneg; now left).
  pose proof (Z.sub_lor_l_same_r a b) as H3.
  pose proof (Z.sub_lor_l_same_r b a) as H4. rewrite Z.lor_comm in H4. lia.
Qed.

Lemma masked_shifted (x : Z) (n k : Z) :
  0 <= n -> 0 <= k ->
  Z.shiftl (Z.land x (Z.ones n)) k = (x mod 2 ^ n) * 2 ^ k /\
  0 <= Z.shiftl (Z.land x (Z.ones n)) k.
Proof.
  intros Hn Hk. rewrite Z.land_ones, Z.shiftl_mul_pow2 by assumption.
  split; [reflexivity|]. apply Z.mul_nonneg_nonneg.
  - apply Z.mod_pos_bound. now apply Z.pow_pos_nonneg.
  - apply Z.pow_nonneg. lia.
Qed.

Lemma masked (x : Z) (n : Z) :
  0 <= n -> Z.land x (Z.ones n) = x mod 2 ^ n /\ 0 <= Z.land x (Z.ones n).
Proof.
  intros Hn. rewrite Z.land_ones by assumption. split; [reflexivity|].
  apply Z.mod_pos_bound. now apply Z.pow_pos_nonneg.
Qed.

Lemma rune2_ge (p0 b1 : Z) :
  194 <= p0 < 224 ->
  128 <= Z.lor (Z.shiftl (Z.land p0 utf8.mask2) 6) (Z.land b1 utf8.maskx).
Proof.
  intros H. change utf8.mask2 with (Z.ones 5). change utf8.maskx with (Z.ones 6).
  destruct (masked_shifted p0 5 6) as [E1 N1]; [lia|lia|].
  destruct (masked b1 6) as [E2 N2]; [lia|].
  destruct (lor_ge _ _ N1 N2) as [L1 L2]. rewrite E1 in L1 at 1.
  change (2 ^ 5) with 32 in L1. change (2 ^ 6) with 64 in L1.
  assert (2 <= p0 mod 32) by (Z.div_mod_to_equations; lia). lia.
Qed.

Lemma rune3_ge (p0 b1 b2 : Z) :
  224 <= p0 < 240 -> 128 <= b1 <= 191 -> (p0 = 224 -> 160 <= b1) ->
  128 <= Z.lor (Z.lor (Z.shiftl (Z.land p0 utf8.mask3) 12)
                      (Z.shiftl (Z.land b1 utf8.maskx) 6))
               (Z.land b2 utf8.maskx).
Proof.
  intros H Hb1 H0. change utf8.mask3 with (Z.ones 4). change utf8.maskx with (Z.ones 6).
  destruct (masked_shifted p0 4 12) as [E1 N1]; [lia|lia|].
  destruct (masked_shifted b1 6 6) as [E2 N2]; [lia|lia|].
  destruct (masked b2 6) as [E3 N3]; [lia|].
  destruct (lor_ge _ _ N1 N2) as [L1 L2].
  assert (N12 : 0 <= Z.lor (Z.shiftl (Z.land p0 (Z.ones 4)) 12)
                           (Z.shiftl (Z.land b1 (Z.ones 6)) 6)) by lia.
  destruct (lor_ge _ _ N12 N3) as [L3 L4]. rewrite E1 in L1 at 1. rewrite E2 in L2 at 1.
  change (2 ^ 4) with 16 in L1. change (2 ^ 12) with 4096 in L1.
  change (2 ^ 6) with 64 in L2.
  destruct (Z.eq_dec p0 224) as [->|Hn].
  - assert (32 <= b1 mod 64) by (specialize (H0 eq_refl); Z.div_mod_to_equations; lia). lia.
  - assert (1 <= p0 mod 16) by (Z.div_mod_to_equations; lia). lia.
Qed.

Lemma rune4_ge (p0 b1 b2 b3 : Z) :
  240 <= p0 < 245 -> 128 <= b1 <= 191 -> (p0 = 240 -> 144 <= b1) ->
  128 <= Z.lor (Z.lor (Z.lor (Z.shiftl (Z.land p0 utf8.mask4) 18)
                             (Z.shiftl (Z.land b1 utf8.maskx) 12))
                      (Z.shiftl (Z.land b2 utf8.maskx) 6))
               (Z.land b3 utf8.maskx).
Proof.
  intros H Hb1 H0. change utf8.mask4 with (Z.ones 3). change utf8.maskx with (Z.ones 6).
  destruct (masked_shifted p0 3 18) as [E1 N1]; [lia|lia|].
  destruct (masked_shifted b1 6 12) as [E2 N2]; [lia|lia|].
  destruct (masked_shifted b2 6 6) as [E3 N3]; [lia|lia|].
  destruct (masked b3 6) as [E4 N4]; [lia|].
  destruct (lor_ge _ _ N1 N2) as [L1 L2].
  assert (N12 : 0 <= Z.lor (Z.shiftl (Z.land p0 (Z.ones 3)) 18)
                           (Z.shiftl (Z.land b1 (Z.ones 6)) 12)) by lia.
  destruct (lor_ge _ _ N12 N3) as [L3 L4].
  assert (N123 : 0 <= Z.lor (Z.lor (Z.shiftl (Z.land p0 (Z.ones 3)) 18)
                                   (Z.shiftl (Z.land b1 (Z.ones 6)) 12))
                            (Z.shiftl (Z.land b2 (Z.ones 6)) 6)) by lia.
  destruct (lor_ge _ _ N123 N4) as [L5 L6]. rewrite E1 in L1 at 1. rewrite E2 in L2 at 1.
  change (2 ^ 3) with 8 in L1. change (2 ^ 18) with 262144 in L1.
  change (2 ^ 6) with 64 in L2. change (2 ^ 12) with 4096 in L2.
  destruct (Z.eq_dec p0 240) as [->|Hn].
  - assert (16 <= b1 mod 64) by (specialize (H0 eq_refl); Z.div_mod_to_equations; lia). lia.
  - assert (1 <= p0 mod 8) by (Z.div_mod_to_equations; lia). lia.
Qed.

(** A rune read from several bytes is no ASCII character: the decoder
    accepts no overlong encoding. *)
Lemma DecodeRune_multi_value (p : list ascii) (r : rune) (s : nat) :
  utf8.DecodeRune p = (r, s) -> r <> utf8.RuneError -> (2 <= s)%nat -> 0x80 <= r.
Proof.
  intros H Hr Hs. destruct p as [|c t]; [inversion H; lia|].
  decode_cases H; apply pair_equal_spec in H; destruct H as [<- <-];
    try congruence; try lia.
  all: z_cmp; unfold utf8.locb, utf8.hicb in *.
  all: match goal with
       | |- _ <= Z.lor (Z.shiftl _ 6) _ => apply rune2_ge
       | |- _ <= Z.lor (Z.lor (Z.shiftl _ 12) _) _ => apply rune3_ge
       | |- _ <= Z.lor (Z.lor (Z.lor _ _) _) _ => apply rune4_ge
       end; lia.
Qed.

Lemma DecodeRune_ascii_inv (p : list ascii) (r : rune) (s : nat) :
  utf8.DecodeRune p = (r, s) -> r <> utf8.RuneError -> r < 0x80 ->
  s = 1%nat /\ byteAt p 0 = r.
Proof.
  intros H Hr Hlt.
  assert (Hp : p <> []) by (intros ->; cbn in H; inversion H; congruence).
  pose proof (DecodeRune_size _ _ _ H Hp) as Hs.
  destruct (Nat.le_gt_cases 2 s) as [H2|H2].
  - pose proof (DecodeRune_multi_value _ _ _ H Hr H2). lia.
  - assert (s = 1%nat) by lia. subst s. split; [reflexivity|].
    symmetry. now apply DecodeRune_single.
Qed.

(** ** What the errors of the closures name *)

Section ErrorContext.

Variable b : list ascii.
Variable splitFn : rune -> bool.

Lemma skipSplitCh_err (fuel : nat) :
  forall idx e idx',
    skipSplitCh b splitFn fuel idx = Some (e, idx') -> is_err e = true ->
    e = Errorf (MsgSkipInvalid (nth idx' b zero) idx' (consumed b idx')) err_nil /\
    undecodable b idx'.
Proof.
  induction fuel as [|fuel IH]; intros idx e idx' H He; [discriminate|].
  cbn [skipSplitCh] in H. destruct (idx <? length b)%nat eqn:E; nat_cmp.
  2:{ inversion H; subst. discriminate. }
  destruct (utf8.DecodeRune (skipn idx b)) as [r s] eqn:D.
  destruct (r =? utf8.RuneError) eqn:Er; z_cmp.
  - inversion H; subst. split; [reflexivity|]. split; [assumption|]. now rewrite D.
  - destruct (negb (splitFn r)); [inversion H; subst; discriminate|]. now apply (IH _ _ _ H).
Qed.

Lemma findEndQuote_loop_err (q : rune) (fuel : nat) :
  forall prev idx e idx',
    findEndQuote_loop b q fuel prev idx = Some (e, idx') -> is_err e = true ->
    (e = Errorf (MsgEndQuoteInvalid (nth idx' b zero) idx' (consumed b idx')) err_nil /\
     undecodable b idx') \/
    (e = Errorf (MsgNoEndQuote q) err_nil /\ (length b <= idx')%nat).
Proof.
  induction fuel as [|fuel IH]; intros prev idx e idx' H He; [discriminate|].
  cbn [findEndQuote_loop] in H. destruct (idx <? length b)%nat eqn:E; nat_cmp.
  2:{ inversion H; subst. right. split; [reflexivity|lia]. }
  destruct (utf8.DecodeRune (skipn idx b)) as [r s] eqn:D.
  destruct (r =? utf8.RuneError) eqn:Er; z_cmp.
  - inversion H; subst. left. split; [reflexivity|]. split; [assumption|]. now rewrite D.
  - destruct ((r =? q) && negb (prev =? backslash)); [inversion H; subst; discriminate|].
    now apply (IH _ _ _ _ H).
Qed.

Lemma findSplitCh_loop_err (fuel : nat) :
  forall prev idx e idx',
    findSplitCh_loop b splitFn fuel prev idx = Some (e, idx') -> is_err e = true ->
    (e = Errorf (MsgSplitInvalid (nth idx' b zero) idx' (consumed b idx')) err_nil /\
     undecodable b idx') \/
    (exists start q cause,
        e = Errorf (MsgMatchingQuote start (consumed b start)) cause /\
        openedAt b start q /\ (idx < start)%nat /\
        ((cause = Errorf (MsgEndQuoteInvalid (nth idx' b zero) idx' (consumed b idx')) err_nil /\
          undecodable b idx') \/
         (cause = Errorf (MsgNoEndQuote q) err_nil /\ (length b <= idx')%nat))).
Proof.
  induction fuel as [|fuel IH]; intros prev idx e idx' H He; [discriminate|].
  cbn [findSplitCh_loop] in H. destruct (idx <? length b)%nat eqn:E; nat_cmp.
  2:{ inversion H; subst. discriminate. }
  destruct (utf8.DecodeRune (skipn idx b)) as [r s] eqn:D.
  destruct (r =? utf8.RuneError) eqn:Er; z_cmp.
  { inversion H; subst. left. split; [reflexivity|]. split; [assumption|]. now rewrite D. }
  destruct (splitFn r); [inversion H; subst; discriminate|].
  assert (Hs : (1 <= s)%nat).
  { apply (DecodeRune_size _ _ _ D). intros En.
    apply (f_equal (@length _)) in En. rewrite length_skipn in En. cbn in En. lia. }
  assert (Hnext : forall idx1, (idx < idx1)%nat ->
            findSplitCh_loop b splitFn fuel r idx1 = Some (e, idx') ->
            (e = Errorf (MsgSplitInvalid (nth idx' b zero) idx' (consumed b idx')) err_nil /\
             undecodable b idx') \/
            (exists start q cause,
                e = Errorf (MsgMatchingQuote start (consumed b start)) cause /\
                openedAt b start q /\ (idx < start)%nat /\
                ((cause = Errorf (MsgEndQuoteInvalid (nth idx' b zero) idx' (consumed b idx'))
                                 err_nil /\ undecodable b idx') \/
                 (cause = Errorf (MsgNoEndQuote q) err_nil /\ (length b <= idx')%nat)))).
  { intros idx1 Hlt H1. destruct (IH _ _ _ _ H1 He) as [Hl|(start & q & cause & H2 & H3 & H4 & H5)].
    - now left.
    - right. exists start, q, cause. repeat split; auto; try apply H3. lia. }
  destruct ((r =? quote_dbl) || (r =? quote_sgl)) eqn:Eq.
  2:{ apply (Hnext (idx + s)%nat); [lia|exact H]. }
  destruct (prev =? backslash); [apply (Hnext (idx + s)%nat); [lia|exact H]|].
  assert (Hr80 : r < 0x80).
  { apply orb_prop in Eq. unfold quote_dbl, quote_sgl in Eq.
    destruct Eq as [Eq'|Eq']; apply Z.eqb_eq in Eq'; lia. }
  destruct (DecodeRune_ascii_inv _ _ _ D Er Hr80) as [-> Hb].
  rewrite byteAt_skipn, Nat.add_0_r in Hb.
  unfold findEndQuote in H.
  destruct (findEndQuote_loop b r (S (length b)) utf8.RuneError (idx + 1)) as [[e1 idx1]|] eqn:E1;
    [|discriminate].
  destruct (is_err e1) eqn:He1.
  - inversion H; subst e idx'. right. exists (idx + 1)%nat, r, e1.
    split; [reflexivity|]. split.
    { split; [lia|]. split; [exact Eq|]. now replace (idx + 1 - 1)%nat with idx by lia. }
    split; [lia|]. apply (findEndQuote_loop_err _ _ _ _ _ _ E1 He1).
  - assert (Hmono : (idx + 1 <= idx1)%nat).
    { destruct (findEndQuote_loop_spec b r (S (length b)) utf8.RuneError (idx + 1)%nat)
        as (e1' & idx1' & H1' & [A _] & _); [lia|lia|].
      rewrite E1 in H1'. inversion H1'; subst. lia. }
    apply (Hnext idx1); [lia|exact H].
Qed.

Lemma mainLoop_err (fuel : nat) :
  forall idx ss res e,
    (idx <= length b)%nat -> clean (slice b 0 idx) ->
    mainLoop b splitFn fuel idx ss = Some (res, e) -> is_err e = true ->
    (exists idx' m, rootMessage e = Some m /\ encodingMessage b m idx' /\
                    undecodable b idx' /\ clean (slice b 0 idx')) \/
    (exists start q,
        e = Errorf (MsgMatchingQuote start (consumed b start))
                   (Errorf (MsgNoEndQuote q) err_nil) /\
        openedAt b start q /\ clean b).
Proof.
  induction fuel as [|fuel IH]; intros idx ss res e Hle Hc H He; [discriminate|].
  cbn [mainLoop] in H. destruct (idx <? length b)%nat eqn:E; nat_cmp.
  2:{ destruct (length ss =? 0)%nat; inversion H; subst; discriminate. }
  destruct (skipSplitCh_spec b splitFn (S (length b)) idx) as (e1 & idx1 & H1 & A1 & _);
    [lia|lia|].
  rewrite H1 in H.
  assert (Hc1 : clean (slice b 0 idx1)).
  { destruct A1 as [? ?]. rewrite (slice_app b 0 idx idx1) by lia. now apply clean_app. }
  destruct (is_err e1) eqn:He1.
  { inversion H; subst res e. left.
    destruct (skipSplitCh_err _ _ _ _ H1 He1) as [-> Hu].
    exists idx1, (MsgSkipInvalid (nth idx1 b zero) idx1 (consumed b idx1)).
    split; [reflexivity|]. split; [now left|]. split; assumption. }
  unfold findSplitCh in H.
  destruct (findSplitCh_loop_spec b splitFn (S (length b)) utf8.RuneError idx1)
    as (e2 & idx2 & H2 & A2 & _); [destruct A1; lia|lia|].
  rewrite H2 in H.
  assert (Hc2 : clean (slice b 0 idx2)).
  { destruct A1 as [? ?], A2 as [? ?].
    rewrite (slice_app b 0 idx1 idx2) by lia. now apply clean_app. }
  destruct (is_err e2) eqn:He2.
  { inversion H; subst res e.
    destruct (findSplitCh_loop_err _ _ _ _ _ H2 He2)
      as [[-> Hu]|(start & q & cause & -> & Ho & _ & [[-> Hu]|[-> Hl]])].
    - left. exists idx2, (MsgSplitInvalid (nth idx2 b zero) idx2 (consumed b idx2)).
      split; [reflexivity|]. split; [right; now right|]. split; assumption.
    - left. exists idx2, (MsgEndQuoteInvalid (nth idx2 b zero) idx2 (consumed b idx2)).
      split; [reflexivity|]. split; [right; now left|]. split; assumption.
    - right. exists start, q. split; [reflexivity|]. split; [exact Ho|].
      destruct A2 as [? _]. assert (idx2 = length b) by lia. subst idx2.
      now rewrite slice_all in Hc2. }
  destruct A1 as [B1 _], A2 as [B2 _].
  destruct (idx1 <? idx2)%nat; (eapply IH; [| |exact H|exact He]; [lia|exact Hc2]).
Qed.

End ErrorContext.

(** ** The first rune that does not decode *)

Lemma decode_fuel_enough (fuel : nat) :
  forall p, (length p <= fuel)%nat -> utf8.decode_fuel fuel p = utf8.decode p.
Proof.
  unfold utf8.decode.
  assert (H : forall f1 f2 p, (length p <= f1)%nat -> (length p <= f2)%nat ->
                              utf8.decode_fuel f1 p = utf8.decode_fuel f2 p).
  { induction f1 as [|f1 IH]; intros f2 p H1 H2.
    - destruct p; [|cbn in H1; lia]. now destruct f2.
    - destruct p as [|x t]; [now destruct f2|].
      destruct f2 as [|f2]; [cbn in H2; lia|]. cbn [utf8.decode_fuel].
      destruct (utf8.DecodeRune (x :: t)) as [r s] eqn:D.
      pose proof (DecodeRune_size _ _ _ D ltac:(discriminate)) as Hs.
      f_equal. apply IH; rewrite length_skipn; cbn [length] in *; lia. }
  intros p Hp. now apply H.
Qed.

Lemma decode_app_clean (cs : list (rune * list ascii)) (rest : list ascii) :
  Forall isRune cs -> utf8.decode (bytesOf cs ++ rest) = cs ++ utf8.decode rest.
Proof.
  induction 1 as [|[r c] cs H _ IH]; [reflexivity|].
  rewrite bytesOf_cons. cbn [snd]. rewrite <- app_assoc.
  pose proof (isRune_length _ _ H) as Hc.
  unfold utf8.decode at 1.
  destruct (c ++ bytesOf cs ++ rest) as [|x t] eqn:E.
  { destruct c; [cbn in Hc; lia|discriminate]. }
  cbn [length utf8.decode_fuel]. rewrite <- E. rewrite (isRune_ctx _ _ _ H).
  rewrite firstn_app, Nat.sub_diag, firstn_all. cbn [firstn]. rewrite app_nil_r.
  rewrite skipn_app, Nat.sub_diag, skipn_all. cbn [skipn app].
  rewrite decode_fuel_enough, IH; [reflexivity|].
  apply (f_equal (@length _)) in E. cbn [length] in E.
  rewrite length_app in E. lia.
Qed.

Lemma firstBad_from_clean (cs rest : list (rune * list ascii)) (off : nat) :
  Forall isRune cs ->
  firstBad_from off (cs ++ rest) = firstBad_from (off + length (bytesOf cs)) rest.
Proof.
  intros H. revert off. induction H as [|[r c] cs [_ H] _ IH]; intros off.
  - cbn. now rewrite Nat.add_0_r.
  - cbn [app firstBad_from]. cbn [fst] in H.
    destruct (r =? utf8.RuneError) eqn:E; z_cmp; [congruence|].
    rewrite IH, bytesOf_cons, length_app. cbn [snd]. f_equal. lia.
Qed.

Lemma firstBad_clean (p : list ascii) : clean p -> firstBad p = None.
Proof.
  intros [cs [H <-]]. unfold firstBad. rewrite decode_bytesOf by assumption.
  rewrite <- (app_nil_r cs), firstBad_from_clean by assumption. reflexivity.
Qed.


Lemma rootMessage_encoding (b : list ascii) (e : error) (m : message) (idx : nat) :
  rootMessage e = Some m -> encodingMessage b m idx ->
  tokenizerKind e = Some InvalidEncoding.
Proof.
  intros H Hm. induction e as [|msg cause IH|]; try discriminate.
  destruct msg; cbn [rootMessage tokenizerKind] in *; try reflexivity;
    try (apply IH; exact H);
    inversion H; subst m; destruct Hm as [Hm|[Hm|Hm]]; discriminate.
Qed.



(** ** The scan as a one-pass automaton over runes *)

Lemma field_slice (pre x rest : list ascii) :
  x <> [] ->
  field (pre ++ x ++ rest) (length pre) (length pre + length x) = emitField x.
Proof.
  intros Hx. unfold emitField, field.
  assert (Hl : (1 <= length x)%nat) by (destruct x; [congruence|cbn; lia]).
  assert (H0 : byteAt (pre ++ x ++ rest) (length pre) = byteAt x 0).
  { rewrite <- (Nat.add_0_r (length pre)), byteAt_app_r. now apply byteAt_app_l. }
  assert (H1 : byteAt (pre ++ x ++ rest) (length pre + length x - 1)
               = byteAt x (length x - 1)).
  { replace (length pre + length x - 1)%nat with (length pre + (length x - 1))%nat by lia.
    rewrite byteAt_app_r. apply byteAt_app_l. lia. }
  assert (H2 : slice (pre ++ x ++ rest) (length pre) (length pre + length x) = x).
  { rewrite slice_prefix, firstn_app, Nat.sub_diag, firstn_all. cbn. apply app_nil_r. }
  assert (H3 : slice (pre ++ x ++ rest) (length pre + 1) (length pre + length x - 1)
               = slice x (0 + 1) (length x - 1)).
  { unfold slice. rewrite skipn_add, skipn_app, skipn_all, Nat.sub_diag. cbn [skipn app].
    replace (length pre + length x - 1 - (length pre + 1))%nat with (length x - 2)%nat by lia.
    replace (length x - 1 - (0 + 1))%nat with (length x - 2)%nat by lia.
    destruct x as [|a x]; [congruence|]. cbn [skipn app Nat.add].
    rewrite firstn_app. cbn [length].
    replace (S (length x) - 2 - length x)%nat with 0%nat by lia.
    cbn [firstn]. apply app_nil_r. }
  rewrite H0, H1, H2, H3, slice_all. reflexivity.
Qed.

Section Refinement.

Variable splitFn : rune -> bool.

Lemma automaton_skip (cs : list (rune * list ascii)) :
  automaton splitFn Skip [] cs = automaton splitFn Skip [] (dropRunes splitFn cs).
Proof.
  induction cs as [|[r c] cs IH]; [reflexivity|].
  cbn [automaton dropRunes fst]. destruct (splitFn r) eqn:E; [exact IH|].
  cbn [automaton]. now rewrite E.
Qed.

Lemma automaton_start (cs : list (rune * list ascii)) :
  match cs with [] => False | rc :: _ => splitFn (fst rc) = false end ->
  automaton splitFn Skip [] cs = automaton splitFn (InField utf8.RuneError) [] cs.
Proof.
  destruct cs as [|[r c] cs]; [contradiction|]. cbn [fst automaton app].
  now intros ->.
Qed.

(** [findEndQuote] against the automaton inside quotes. *)
Lemma findEndQuote_automaton (q : rune) (cs : list (rune * list ascii)) :
  forall (b pre : list ascii) (fuel : nat) (prev : rune),
    b = pre ++ bytesOf cs -> Forall isRune cs -> (length cs < fuel)%nat ->
    (exists u rest,
        cs = u ++ rest /\ u <> [] /\
        findEndQuote_loop b q fuel prev (length pre)
        = Some (err_nil, (length pre + length (bytesOf u))%nat) /\
        forall cur, automaton splitFn (InQuote q prev) cur cs
                    = automaton splitFn (InField q) (cur ++ bytesOf u) rest) \/
    (findEndQuote_loop b q fuel prev (length pre)
     = Some (Errorf (MsgNoEndQuote q) err_nil, length b) /\
     forall cur, automaton splitFn (InQuote q prev) cur cs = None).
Proof.
  induction cs as [|[r c] cs IH]; intros b pre fuel prev Hb Hr Hfuel;
    (destruct fuel as [|fuel]; [cbn in Hfuel; lia|]); cbn [findEndQuote_loop].
  - right. cbn in Hb. rewrite app_nil_r in Hb. subst b.
    rewrite Nat.ltb_irrefl. split; reflexivity.
  - inversion Hr as [|? ? H1 H2]; subst.
    pose proof (isRune_length _ _ H1) as Hc. rewrite bytesOf_cons. cbn [snd].
    destruct (length pre <? length (pre ++ c ++ bytesOf cs))%nat eqn:E; nat_cmp.
    2:{ rewrite !length_app in E. lia. }
    rewrite skipn_app, skipn_all, Nat.sub_diag. cbn [skipn app].
    rewrite (isRune_ctx _ _ _ H1). destruct H1 as [_ H1]. cbn [fst] in H1.
    destruct (r =? utf8.RuneError) eqn:Er; z_cmp; [congruence|].
    cbn [automaton]. unfold quoteRune.
    destruct ((r =? q) && negb (prev =? backslash)) eqn:Eq.
    + left. exists [(r, c)], cs. split; [reflexivity|]. split; [discriminate|].
      split; [|intros cur].
      * unfold bytesOf. cbn. now rewrite app_nil_r.
      * unfold bytesOf. cbn. now rewrite app_nil_r.
    + rewrite <- (length_app pre c).
      destruct (IH (pre ++ c ++ bytesOf cs) (pre ++ c) fuel r) as
        [(u & rest & -> & Hu & Hcode & Hauto)|[Hcode Hauto]];
        [now rewrite <- app_assoc|assumption|cbn in Hfuel; lia| |].
      * left. exists ((r, c) :: u), rest. split; [reflexivity|]. split; [discriminate|].
        split.
        -- rewrite Hcode, bytesOf_cons, !length_app. cbn [snd]. do 2 f_equal. lia.
        -- intros cur. rewrite Hauto, bytesOf_cons. cbn [snd]. now rewrite app_assoc.
      * right. split; [exact Hcode|]. intros cur. apply Hauto.
Qed.

(** [findSplitCh] against the automaton inside a field. *)
Lemma findSplitCh_automaton (fuel : nat) :
  forall (cs : list (rune * list ascii)) (b pre : list ascii) (prev : rune),
    b = pre ++ bytesOf cs -> Forall isRune cs -> (length cs < fuel)%nat ->
    (exists f rest,
        cs = f ++ rest /\
        match rest with [] => True | rc :: _ => splitFn (fst rc) = true end /\
        findSplitCh_loop b splitFn fuel prev (length pre)
        = Some (err_nil, (length pre + length (bytesOf f))%nat) /\
        forall cur, automaton splitFn (InField prev) cur cs
                    = option_map (cons (emitField (cur ++ bytesOf f)))
                                 (automaton splitFn Skip [] rest)) \/
    (exists e idx',
        findSplitCh_loop b splitFn fuel prev (length pre) = Some (e, idx') /\
        is_err e = true /\ tokenizerKind e = Some UnterminatedQuote /\
        forall cur, automaton splitFn (InField prev) cur cs = None).
Proof.
  induction fuel as [|fuel IH]; intros cs b pre prev Hb Hr Hfuel; [lia|].
  cbn [findSplitCh_loop]. destruct cs as [|[r c] cs].
  { left. exists [], []. cbn in Hb. rewrite app_nil_r in Hb. subst b.
    rewrite Nat.ltb_irrefl. split; [reflexivity|]. split; [exact I|].
    split; [now rewrite Nat.add_0_r|]. intros cur. cbn. now rewrite app_nil_r. }
  inversion Hr as [|? ? H1 H2]; subst.
  pose proof (isRune_length _ _ H1) as Hc. rewrite bytesOf_cons. cbn [snd].
  destruct (length pre <? length (pre ++ c ++ bytesOf cs))%nat eqn:E; nat_cmp.
  2:{ rewrite !length_app in E. lia. }
  rewrite skipn_app, skipn_all, Nat.sub_diag. cbn [skipn app].
  rewrite (isRune_ctx _ _ _ H1). pose proof H1 as [_ Hne]. cbn [fst] in Hne.
  destruct (r =? utf8.RuneError) eqn:Er; z_cmp; [congruence|].
  cbn [automaton]. destruct (splitFn r) eqn:Ep.
  { left. exists [], ((r, c) :: cs). split; [reflexivity|]. split; [exact Ep|].
    split; [now rewrite Nat.add_0_r|]. intros cur. cbn [automaton bytesOf map concat].
    now rewrite Ep, app_nil_r. }
  (* the continuation of the loop after the rune, and after a quoted part *)
  assert (Hcont : forall (u rest : list (rune * list ascii)) (prev' : rune),
            cs = u ++ rest ->
            (exists f rest',
                (r, c) :: cs = f ++ rest' /\
                match rest' with [] => True | rc :: _ => splitFn (fst rc) = true end /\
                findSplitCh_loop (pre ++ c ++ bytesOf cs) splitFn fuel prev'
                                 (length pre + length c + length (bytesOf u))
                = Some (err_nil, (length pre + length (bytesOf f))%nat) /\
                forall cur, automaton splitFn (InField prev') (cur ++ c ++ bytesOf u) rest
                            = option_map (cons (emitField (cur ++ bytesOf f)))
                                         (automaton splitFn Skip [] rest')) \/
            (exists e idx',
                findSplitCh_loop (pre ++ c ++ bytesOf cs) splitFn fuel prev'
                                 (length pre + length c + length (bytesOf u))
                = Some (e, idx') /\
                is_err e = true /\ tokenizerKind e = Some UnterminatedQuote /\
                forall cur, automaton splitFn (InField prev') (cur ++ c ++ bytesOf u) rest
                            = None)).
  { intros u rest prev' Ecs.
    assert (Hru : Forall isRune u /\ Forall isRune rest).
    { rewrite Ecs in H2. now apply Forall_app in H2. }
    destruct Hru as [Hru Hrr].
    replace (length pre + length c + length (bytesOf u))%nat
      with (length ((pre ++ c) ++ bytesOf u)) by (rewrite !length_app; lia).
    destruct (IH rest (pre ++ c ++ bytesOf cs) ((pre ++ c) ++ bytesOf u) prev')
      as [(f & rest' & -> & Hh & Hcode & Hauto)|(e & idx' & Hcode & He & Hk & Hauto)].
    - rewrite Ecs, bytesOf_app, <- !app_assoc. reflexivity.
    - exact Hrr.
    - assert (length cs = (length u + length rest)%nat) by (rewrite Ecs; apply length_app).
      cbn [length] in Hfuel. lia.
    - left. exists ((r, c) :: u ++ f), rest'. split; [now rewrite Ecs, app_assoc|].
      split; [exact Hh|]. split.
      + rewrite Hcode, bytesOf_cons, bytesOf_app, !length_app. cbn [snd].
        do 2 f_equal. lia.
      + intros cur. rewrite Hauto, bytesOf_cons, bytesOf_app. cbn [snd].
        now rewrite <- !app_assoc.
    - right. exists e, idx'. split; [exact Hcode|]. split; [exact He|].
      split; [exact Hk|]. intros cur. apply Hauto. }
  assert (Hplain : forall prev',
            (exists f rest',
                (r, c) :: cs = f ++ rest' /\
                match rest' with [] => True | rc :: _ => splitFn (fst rc) = true end /\
                findSplitCh_loop (pre ++ c ++ bytesOf cs) splitFn fuel prev'
                                 (length pre + length c)
                = Some (err_nil, (length pre + length (bytesOf f))%nat) /\
                forall cur, automaton splitFn (InField prev') (cur ++ c) cs
                            = option_map (cons (emitField (cur ++ bytesOf f)))
                                         (automaton splitFn Skip [] rest')) \/
            (exists e idx',
                findSplitCh_loop (pre ++ c ++ bytesOf cs) splitFn fuel prev'
                                 (length pre + length c)
                = Some (e, idx') /\
                is_err e = true /\ tokenizerKind e = Some UnterminatedQuote /\
                forall cur, automaton splitFn (InField prev') (cur ++ c) cs = None)).
  { intros prev'. specialize (Hcont [] cs prev' eq_refl).
    cbn [bytesOf map concat length] in Hcont. rewrite Nat.add_0_r in Hcont.
    destruct Hcont as [(f & rest' & H3 & H4 & H5 & H6)|(e & idx' & H3 & H4 & H5 & H6)].
    - left. exists f, rest'. repeat split; auto. intros cur.
      specialize (H6 cur). now rewrite app_nil_r in H6.
    - right. exists e, idx'. repeat split; auto. intros cur.
      specialize (H6 cur). now rewrite app_nil_r in H6. }
  unfold enterRune, isQuote.
  destruct ((r =? quote_dbl) || (r =? quote_sgl)) eqn:Eq; cbn [andb].
  2:{ apply Hplain. }
  destruct (prev =? backslash); cbn [negb]; [apply Hplain|].
  unfold findEndQuote. rewrite <- (length_app pre c).
  destruct (findEndQuote_automaton r cs (pre ++ c ++ bytesOf cs) (pre ++ c)
              (S (length (pre ++ c ++ bytesOf cs))) utf8.RuneError)
    as [(u & rest & Ecs & Hu & Hcode & Hauto)|[Hcode Hauto]].
  - now rewrite <- app_assoc.
  - exact H2.
  - pose proof (chunks_length _ H2). rewrite !length_app. lia.
  - rewrite Hcode. cbn [is_err]. rewrite length_app.
    destruct (Hcont u rest r Ecs)
      as [(f & rest' & H3 & H4 & H5 & H6)|(e & idx' & H3 & H4 & H5 & H6)].
    + left. exists f, rest'. repeat split; auto. intros cur.
      rewrite Hauto, <- app_assoc. apply H6.
    + right. exists e, idx'. repeat split; auto. intros cur.
      rewrite Hauto, <- app_assoc. apply H6.
  - rewrite Hcode. cbn [is_err]. right. eexists _, _. split; [reflexivity|].
    split; [reflexivity|]. split; [reflexivity|]. intros cur. apply Hauto.
Qed.

Lemma mainLoop_automaton (fuel : nat) :
  forall (cs : list (rune * list ascii)) (b pre : list ascii) (ss : list string),
    b = pre ++ bytesOf cs -> Forall isRune cs -> (length cs < fuel)%nat ->
    match automaton splitFn Skip [] cs with
    | Some fs => mainLoop b splitFn fuel (length pre) ss = Some (wrap (ss ++ fs))
    | None =>
        exists e, mainLoop b splitFn fuel (length pre) ss = Some (None, e) /\
                  tokenizerKind e = Some UnterminatedQuote
    end.
Proof.
  induction fuel as [|fuel IH]; intros cs b pre ss Hb Hr Hfuel; [lia|].
  cbn [mainLoop].
  destruct cs as [|rc0 cs0] eqn:Ecs.
  { cbn in Hb. rewrite app_nil_r in Hb. subst b. rewrite Nat.ltb_irrefl.
    cbn [automaton]. rewrite app_nil_r. now destruct ss. }
  rewrite <- Ecs in *. assert (Hne : cs <> []) by (rewrite Ecs; discriminate).
  clear Ecs rc0 cs0.
  pose proof (chunks_length _ Hr) as Hlen.
  pose proof (bytesOf_nonempty _ Hr Hne) as Hbn.
  assert (Hl : length b = (length pre + length (bytesOf cs))%nat)
    by (subst b; apply length_app).
  destruct (length pre <? length b)%nat eqn:E; nat_cmp.
  2:{ destruct (bytesOf cs); [congruence|cbn in Hl; lia]. }
  set (seps := takeRunes splitFn cs).
  set (cs1 := dropRunes splitFn cs).
  assert (E1 : cs = seps ++ cs1) by (symmetry; apply take_drop_runes).
  assert (Hn1 : length cs = (length seps + length cs1)%nat)
    by (rewrite E1 at 1; apply length_app).
  assert (Hr1 : Forall isRune cs1) by now apply dropRunes_incl.
  assert (Hrs : Forall isRune seps) by now apply takeRunes_incl.
  assert (Hb1 : b = pre ++ bytesOf seps ++ bytesOf cs1).
  { now rewrite <- bytesOf_app, <- E1. }
  rewrite (skipSplitCh_exact splitFn seps b pre (bytesOf cs1)); auto.
  2:{ apply takeRunes_all. }
  2:{ apply followed_chunks; [exact Hr1|]. apply (dropRunes_head splitFn cs). }
  2:{ lia. }
  cbn [is_err]. unfold findSplitCh. rewrite <- length_app.
  rewrite automaton_skip. fold cs1.
  destruct (findSplitCh_automaton (S (length b)) cs1 b (pre ++ bytesOf seps) utf8.RuneError)
    as [(f & rest & E2 & Hh & Hcode & Hauto)|(e & idx' & Hcode & He & Hk & Hauto)].
  { now rewrite <- app_assoc. }
  { exact Hr1. }
  { lia. }
  - rewrite Hcode. cbn [is_err].
    assert (Hrf : Forall isRune f /\ Forall isRune rest).
    { rewrite E2 in Hr1. now apply Forall_app in Hr1. }
    destruct Hrf as [Hrf Hrr].
    destruct cs1 as [|rc1 cs1'] eqn:Ec1.
    + (* only separators were left *)
      destruct f; [|discriminate]. destruct rest; [|discriminate].
      cbn [bytesOf map concat length]. rewrite Nat.add_0_r, Nat.ltb_irrefl.
      specialize (IH [] b (pre ++ bytesOf seps) ss).
      cbn [automaton] in IH |- *. apply IH.
      * rewrite Hb1. change (bytesOf []) with (@nil ascii). now rewrite !app_nil_r.
      * constructor.
      * destruct cs; [congruence|cbn in Hfuel; cbn; lia].
    + rewrite <- Ec1 in *.
      assert (Hh1 : match cs1 with [] => False | rc :: _ => splitFn (fst rc) = false end).
      { pose proof (dropRunes_head splitFn cs) as Hd. fold cs1 in Hd.
        rewrite Ec1 in Hd |- *. exact Hd. }
      assert (Hfne : f <> []).
      { intros ->. cbn [app] in E2. rewrite <- E2 in Hh. rewrite Ec1 in Hh, Hh1.
        congruence. }
      pose proof (bytesOf_nonempty _ Hrf Hfne) as Hfb.
      rewrite (automaton_start cs1 Hh1), (Hauto []). cbn [app].
      destruct (length (pre ++ bytesOf seps) <?
                length (pre ++ bytesOf seps) + length (bytesOf f))%nat eqn:E3; nat_cmp.
      2:{ destruct (bytesOf f); [congruence|cbn in E3; lia]. }
      assert (Hb2 : b = (pre ++ bytesOf seps) ++ bytesOf f ++ bytesOf rest).
      { rewrite Hb1, E2, bytesOf_app, <- !app_assoc. reflexivity. }
      assert (Hfield : field b (length (pre ++ bytesOf seps))
                             (length (pre ++ bytesOf seps) + length (bytesOf f))
                       = emitField (bytesOf f)).
      { rewrite Hb2 at 1. now apply field_slice. }
      rewrite Hfield.
      rewrite <- length_app.
      assert (Hfl : (length f <> 0)%nat) by (destruct f; [congruence|discriminate]).
      assert (Hn2 : length cs1 = (length f + length rest)%nat)
        by (rewrite E2 at 1; apply length_app).
      specialize (IH rest b ((pre ++ bytesOf seps) ++ bytesOf f)
                     (ss ++ [emitField (bytesOf f)])).
      destruct (automaton splitFn Skip [] rest) as [fs|] eqn:Ea; cbn [option_map].
      * rewrite IH; [now rewrite <- app_assoc| |exact Hrr|lia].
        rewrite Hb2, <- !app_assoc. reflexivity.
      * apply IH; [|exact Hrr|lia].
        rewrite Hb2, <- !app_assoc. reflexivity.
  - rewrite Hcode, He.
    assert (Hh1 : match cs1 with [] => False | rc :: _ => splitFn (fst rc) = false end).
    { pose proof (dropRunes_head splitFn cs) as Hd. fold cs1 in Hd.
      destruct cs1; [|exact Hd]. specialize (Hauto []). discriminate. }
    rewrite (automaton_start cs1 Hh1), (Hauto []). now exists e.
Qed.

End Refinement.

(** [ShellSplitEx] against the automaton started between two fields. *)
Lemma ShellSplitEx_refines (s : string) (splitFn : rune -> bool) :
  Forall isRune (utf8.decode (list_ascii_of_string s)) ->
  match automaton splitFn Skip [] (utf8.decode (list_ascii_of_string s)) with
  | Some fs => ShellSplitEx s splitFn = Some (wrap fs)
  | None =>
      exists e, ShellSplitEx s splitFn = Some (None, e) /\
                tokenizerKind e = Some UnterminatedQuote
  end.
Proof.
  intros Hr. set (b := list_ascii_of_string s) in *.
  pose proof (mainLoop_automaton splitFn (S (length b)) (utf8.decode b) b [] []) as Hm.
  cbn [length app] in Hm. unfold ShellSplitEx. fold b. apply Hm.
  - now rewrite bytesOf_decode.
  - exact Hr.
  - pose proof (chunks_length _ Hr) as Hl. rewrite bytesOf_decode in Hl. lia.
Qed.

(** On an input whose sequential decoding never yields [RuneError],
    [ShellSplitEx] computes what the one-pass automaton over the runes of
    the input computes: the same fields in the same order (the nil slice
    when there is none), and an error for a missing end quote exactly when
    the automaton ends inside quotes. *)
Theorem ShellSplitEx_automaton (s : string) (splitFn : rune -> bool) :
  Forall (fun r => r <> utf8.RuneError) (utf8.runes (list_ascii_of_string s)) ->
  match automaton splitFn Skip [] (utf8.decode (list_ascii_of_string s)) with
  | Some fs => ShellSplitEx s splitFn = Some (wrap fs)
  | None =>
      exists e, ShellSplitEx s splitFn = Some (None, e) /\
                tokenizerKind e = Some UnterminatedQuote
  end.
Proof.
  intros H. apply ShellSplitEx_refines. now apply decode_isRune.
Qed.

Lemma ShellSplitEx_automaton_witness :
  ShellSplitEx sample_escaped unicode.IsSpace = Some (wrap [sample_escaped_field]).
Proof.
  refine (ShellSplitEx_automaton sample_escaped unicode.IsSpace _).
  forall_concrete.
Defined.

(** ** Consequences of the automaton *)

Lemma wrap_fieldsOf (fs : list string) (res : option (list string)) (e : error) :
  wrap fs = (res, e) -> e = err_nil /\ fieldsOf res = fs.
Proof. destruct fs; cbn; intros H; inversion H; auto. Qed.

Lemma ShellSplitEx_success_automaton (s : string) (splitFn : rune -> bool)
      (res : option (list string)) :
  ShellSplitEx s splitFn = Some (res, err_nil) ->
  Forall isRune (utf8.decode (list_ascii_of_string s)) /\
  automaton splitFn Skip [] (utf8.decode (list_ascii_of_string s))
  = Some (fieldsOf res).
Proof.
  intros H. destruct (ShellSplitEx_spec s splitFn) as (res' & e' & H' & P).
  rewrite H in H'. inversion H'; subst res' e'.
  destruct P as [(_ & Hc & _)|(_ & He & _)]; [|discriminate].
  apply clean_iff, decode_isRune in Hc. split; [exact Hc|].
  pose proof (ShellSplitEx_refines s splitFn Hc) as Ha.
  destruct (automaton _ _ _ _) as [fs|].
  - rewrite H in Ha. inversion Ha as [Hw]. symmetry in Hw.
    apply wrap_fieldsOf in Hw. destruct Hw as [_ ->]. reflexivity.
  - destruct Ha as (e & Ha & Hk). rewrite H in Ha. inversion Ha; subst e. discriminate.
Qed.

Lemma option_map_app_nil (x : option (list string)) : option_map (app []) x = x.
Proof. now destruct x. Qed.

Lemma automaton_app (sep : rune -> bool) (cs1 : list (rune * list ascii)) :
  forall (st : scanState) (cur : list ascii) (fs1 : list string)
         (r : rune) (c : list ascii) (cs2 : list (rune * list ascii)),
    automaton sep st cur cs1 = Some fs1 -> sep r = true ->
    automaton sep st cur (cs1 ++ (r, c) :: cs2)
    = option_map (app fs1) (automaton sep Skip [] cs2).
Proof.
  induction cs1 as [|[r1 c1] cs1 IH]; intros st cur fs1 r c cs2 H Hr.
  - cbn [app automaton] in *. rewrite Hr.
    destruct st; inversion H; subst; [now rewrite option_map_app_nil| ].
    now destruct (automaton sep Skip [] cs2).
  - cbn [app automaton] in *. destruct st as [|prev|q prev].
    + destruct (sep r1); now apply IH.
    + destruct (sep r1); [|now apply IH].
      destruct (automaton sep Skip [] cs1) as [fs1'|] eqn:E; [|discriminate].
      cbn [option_map] in H. inversion H; subst fs1.
      rewrite (IH _ _ fs1' r c cs2 E Hr).
      now destruct (automaton sep Skip [] cs2).
    + now apply IH.
Qed.

(** Splitting is compositional over a separator other than U+FFFD: when
    [ShellSplitEx] succeeds on [s1] and on [s2], and [mid] is the encoding
    of one rune [r] that the predicate calls a separator and that is not
    [utf8.RuneError], then on [s1 ++ mid ++ s2] it returns the fields of
    [s1] followed by the fields of [s2].  The restriction on [r] is needed:
    see [ShellSplitEx_app_replacement]. *)
Theorem ShellSplitEx_app (s1 mid s2 : string) (splitFn : rune -> bool) (r : rune)
        (res1 res2 : option (list string)) :
  ShellSplitEx s1 splitFn = Some (res1, err_nil) ->
  ShellSplitEx s2 splitFn = Some (res2, err_nil) ->
  utf8.DecodeRune (list_ascii_of_string mid)
  = (r, length (list_ascii_of_string mid)) ->
  r <> utf8.RuneError ->
  splitFn r = true ->
  ShellSplitEx (s1 ++ mid ++ s2)%string splitFn
  = Some (wrap (fieldsOf res1 ++ fieldsOf res2)).
Proof.
  intros H1 H2 Hdm Hne Hr.
  assert (Hm : isRune (r, list_ascii_of_string mid)) by (split; assumption).
  apply ShellSplitEx_success_automaton in H1. destruct H1 as [R1 A1].
  apply ShellSplitEx_success_automaton in H2. destruct H2 as [R2 A2].
  set (b1 := list_ascii_of_string s1) in *. set (b2 := list_ascii_of_string s2) in *.
  set (c := list_ascii_of_string mid) in *.
  assert (Hd : utf8.decode (list_ascii_of_string (s1 ++ mid ++ s2)%string)
               = utf8.decode b1 ++ (r, c) :: utf8.decode b2).
  { rewrite !list_ascii_of_string_app. fold b1 b2 c.
    rewrite <- (bytesOf_decode b1) at 1. rewrite decode_app_clean by assumption.
    f_equal.
    replace (c ++ b2) with (bytesOf [(r, c)] ++ b2)
      by (unfold bytesOf; cbn; now rewrite app_nil_r).
    rewrite decode_app_clean; [reflexivity|now constructor]. }
  pose proof (ShellSplitEx_refines (s1 ++ mid ++ s2)%string splitFn) as Ha.
  rewrite Hd in Ha.
  rewrite (automaton_app splitFn _ _ _ _ r c _ A1 Hr), A2 in Ha. cbn [option_map] in Ha.
  apply Ha. apply Forall_app. split; [exact R1|]. now constructor.
Qed.

Lemma ShellSplitEx_app_witness :
  ShellSplitEx ("a b" ++ "," ++ sample_quoted)%string spaceOrComma
  = Some (wrap (fieldsOf (Some ["a"; "b"]%string)
                ++ fieldsOf (Some ["test"; "me"; "here and there"; "ok"]%string))).
Proof.
  apply (ShellSplitEx_app "a b" "," sample_quoted spaceOrComma 44).
  - vm_compute. reflexivity.
  - vm_compute. reflexivity.
  - vm_compute. reflexivity.
  - intros H. vm_compute in H. discriminate H.
  - reflexivity.
Defined.

(** With U+FFFD between the two parts the composition fails, also for a
    predicate that accepts U+FFFD as a separator: [findSplitCh] reports the
    encoding error before it asks the predicate. *)
Example ShellSplitEx_app_replacement :
  ShellSplitEx "a" spaceOrReplacement = Some (Some ["a"%string], err_nil) /\
  ShellSplitEx "b" spaceOrReplacement = Some (Some ["b"%string], err_nil) /\
  utf8.DecodeRune (list_ascii_of_string sample_replacement)
  = (utf8.RuneError, length (list_ascii_of_string sample_replacement)) /\
  spaceOrReplacement utf8.RuneError = true /\
  ShellSplitEx ("a" ++ sample_replacement ++ "b")%string spaceOrReplacement
  = Some (None, Errorf (MsgSplitInvalid "239" 1 "a") err_nil).
Proof. repeat split; vm_compute; reflexivity. Qed.

(** ** Quoted fields *)

Lemma isQuote_lt (r : rune) : isQuote r = true -> r < 0x80.
Proof.
  unfold isQuote, quote_dbl, quote_sgl. intros H. apply orb_prop in H.
  destruct H as [H|H]; apply Z.eqb_eq in H; lia.
Qed.

Lemma isQuote_isRune (qc : ascii) : isQuote (byteZ qc) = true -> isRune (byteZ qc, [qc]).
Proof.
  intros H. pose proof (isQuote_lt _ H) as Hl. split; cbn [fst snd length].
  - now apply DecodeRune_ascii.
  - unfold utf8.RuneError. lia.
Qed.

Lemma isRune_first_byte (r : rune) (c : list ascii) :
  isRune (r, c) -> isQuote r = false -> isQuote (byteAt c 0) = false.
Proof.
  intros [H _] Hq. cbn [fst snd] in H.
  destruct (isQuote (byteAt c 0)) eqn:E; [|reflexivity].
  destruct c as [|x t]; [cbn in E; discriminate|].
  change (byteAt (x :: t) 0) with (byteZ x) in E.
  rewrite (DecodeRune_ascii x t (isQuote_lt _ E)) in H. inversion H; subst r. congruence.
Qed.

Lemma emitField_plain (cur : list ascii) :
  isQuote (byteAt cur 0) = false -> emitField cur = string_of_list_ascii cur.
Proof.
  intros H. unfold emitField, field. unfold isQuote in H. rewrite H, andb_false_r.
  now rewrite slice_all.
Qed.

Lemma emitField_quoted (qc : ascii) (content : list ascii) :
  isQuote (byteZ qc) = true ->
  emitField (([qc] ++ content) ++ [qc]) = string_of_list_ascii content.
Proof.
  intros H. unfold emitField, field.
  assert (H0 : byteAt (([qc] ++ content) ++ [qc]) 0 = byteZ qc) by reflexivity.
  assert (H1 : byteAt (([qc] ++ content) ++ [qc])
                      (length (([qc] ++ content) ++ [qc]) - 1) = byteZ qc).
  { replace (length (([qc] ++ content) ++ [qc]) - 1)%nat
      with (length ([qc] ++ content) + 0)%nat by (rewrite !length_app; cbn; lia).
    now rewrite byteAt_app_r. }
  rewrite H0, H1, Z.eqb_refl. unfold isQuote in H. rewrite H. cbn [andb].
  f_equal. unfold slice. cbn [app Nat.add skipn].
  match goal with
  | |- context [firstn ?n _] =>
      replace n with (length content) by (cbn [length]; rewrite length_app; cbn; lia)
  end.
  rewrite firstn_app, Nat.sub_diag, firstn_all. cbn. now rewrite app_nil_r.
Qed.

Lemma last_cons_default {A} (l : list A) :
  forall (x d d' : A), last (x :: l) d = last (x :: l) d'.
Proof.
  induction l as [|y l IH]; intros x d d'; [reflexivity|].
  change (last (y :: l) d = last (y :: l) d'). apply IH.
Qed.

Lemma automaton_inquote (sep : rune -> bool) (q : rune) (rest : list (rune * list ascii))
      (cs : list (rune * list ascii)) :
  forall (prev : rune) (cur : list ascii),
    closesQuote q prev (map fst cs) = false ->
    automaton sep (InQuote q prev) cur (cs ++ rest)
    = automaton sep (InQuote q (last (map fst cs) prev)) (cur ++ bytesOf cs) rest.
Proof.
  induction cs as [|[r c] cs IH]; intros prev cur H.
  - cbn. now rewrite app_nil_r.
  - cbn [map fst closesQuote] in H. apply orb_false_elim in H. destruct H as [H1 H2].
    cbn [app automaton]. unfold quoteRune. rewrite H1, (IH _ _ H2).
    rewrite bytesOf_cons, app_assoc. cbn [snd map fst].
    destruct (map fst cs) as [|r0 l]; [reflexivity|].
    now rewrite (last_cons_default l r0 r prev).
Qed.

Lemma RuneError_backslash : (utf8.RuneError =? backslash) = false.
Proof. reflexivity. Qed.

(** A quoted field.  When the input is a quote, a content and the same
    quote again, the quote is no separator, the content is valid UTF-8
    without U+FFFD, no rune of the content is that quote unless it follows
    a backslash, and the content does not end in a backslash, [ShellSplitEx]
    returns the content as its only field: the separators and the escapes
    inside it are kept as they are. *)
Theorem ShellSplitEx_quoted (qc : ascii) (content : string) (splitFn : rune -> bool) :
  isQuote (byteZ qc) = true -> splitFn (byteZ qc) = false ->
  Forall (fun r => r <> utf8.RuneError) (utf8.runes (list_ascii_of_string content)) ->
  closesQuote (byteZ qc) utf8.RuneError (utf8.runes (list_ascii_of_string content)) = false ->
  last (utf8.runes (list_ascii_of_string content)) utf8.RuneError <> backslash ->
  ShellSplitEx (String qc (content ++ String qc EmptyString)) splitFn
  = Some (Some [content], err_nil).
Proof.
  intros Hq Hs Hc Hn Hl.
  set (b := list_ascii_of_string content) in *.
  pose proof (isQuote_isRune qc Hq) as Hr.
  pose proof (decode_isRune b Hc) as Hd.
  assert (Hb : list_ascii_of_string (String qc (content ++ String qc EmptyString))
               = bytesOf ((byteZ qc, [qc]) :: utf8.decode b ++ [(byteZ qc, [qc])])).
  { cbn [list_ascii_of_string]. rewrite list_ascii_of_string_app. fold b.
    rewrite bytesOf_cons, bytesOf_app, bytesOf_decode. reflexivity. }
  assert (Hall : Forall isRune ((byteZ qc, [qc]) :: utf8.decode b ++ [(byteZ qc, [qc])])).
  { constructor; [exact Hr|]. apply Forall_app. split; [exact Hd|now constructor]. }
  assert (Hdec : utf8.decode (list_ascii_of_string
                                (String qc (content ++ String qc EmptyString)))
                 = (byteZ qc, [qc]) :: utf8.decode b ++ [(byteZ qc, [qc])]).
  { rewrite Hb. rewrite <- (app_nil_r (bytesOf _)).
    rewrite decode_app_clean by exact Hall. cbn. now rewrite app_nil_r. }
  pose proof (ShellSplitEx_refines (String qc (content ++ String qc EmptyString)) splitFn)
    as Ha.
  rewrite Hdec in Ha. specialize (Ha Hall). cbn [automaton] in Ha. rewrite Hs in Ha.
  unfold enterRune in Ha. rewrite Hq, RuneError_backslash in Ha. cbn [negb andb] in Ha.
  rewrite (automaton_inquote splitFn (byteZ qc) _ _ _ _ Hn) in Ha.
  cbn [automaton] in Ha. unfold quoteRune in Ha. rewrite Z.eqb_refl in Ha.
  fold (utf8.runes b) in Ha.
  destruct (last (utf8.runes b) utf8.RuneError =? backslash) eqn:E;
    [apply Z.eqb_eq in E; contradiction|].
  cbn [negb andb] in Ha. rewrite bytesOf_decode in Ha.
  rewrite (emitField_quoted qc b Hq) in Ha. unfold b in Ha at 1.
  rewrite string_of_list_ascii_of_string in Ha. exact Ha.
Qed.

Lemma ShellSplitEx_quoted_witness :
  ShellSplitEx (String squote ("it\'s  here, there" ++ String squote EmptyString))
               spaceOrComma
  = Some (Some ["it\'s  here, there"%string], err_nil).
Proof.
  apply ShellSplitEx_quoted.
  - reflexivity.
  - reflexivity.
  - forall_concrete.
  - vm_compute. reflexivity.
  - intros H. vm_compute in H. discriminate H.
Defined.

(** ** Escaped quotes outside a quoted field *)

Lemma automaton_escaped (sep : rune -> bool) (cs : list (rune * list ascii)) :
  Forall isRune cs ->
  (quotesEscaped sep utf8.RuneError (map fst cs) = true ->
   automaton sep Skip [] cs = Some (map string_of_list_ascii (runsAcc sep [] cs))) /\
  (forall prev cur,
      cur <> [] -> isQuote (byteAt cur 0) = false ->
      quotesEscaped sep prev (map fst cs) = true ->
      automaton sep (InField prev) cur cs
      = Some (map string_of_list_ascii (runsAcc sep cur cs))).
Proof.
  induction 1 as [|[r c] cs Hr _ [IH1 IH2]].
  - split; [reflexivity|]. intros prev cur Hn Hq _. cbn.
    rewrite (emitField_plain _ Hq). now destruct cur.
  - assert (Hstep : forall prev cur,
               isQuote (byteAt (cur ++ c) 0) = false ->
               (negb (isQuote r) || (prev =? backslash)) && quotesEscaped sep r (map fst cs)
               = true ->
               automaton sep (enterRune prev r) (cur ++ c) cs
               = Some (map string_of_list_ascii (runsAcc sep (cur ++ c) cs))).
    { intros prev cur Hq H. apply andb_prop in H. destruct H as [H1 H2].
      unfold enterRune.
      replace (isQuote r && negb (prev =? backslash)) with false
        by (destruct (isQuote r), (prev =? backslash); cbn in *; congruence).
      apply IH2; [|exact Hq|exact H2].
      pose proof (isRune_nonempty _ _ Hr). now destruct cur, c. }
    split.
    + cbn [map fst quotesEscaped automaton runsAcc]. destruct (sep r); [exact IH1|].
      intros H. apply (Hstep utf8.RuneError []); [|exact H].
      rewrite RuneError_backslash, orb_false_r in H. apply andb_prop in H.
      destruct H as [H _]. apply negb_true_iff in H.
      now apply (isRune_first_byte r).
    + intros prev cur Hn Hq. cbn [map fst quotesEscaped automaton runsAcc].
      destruct (sep r).
      * intros H. rewrite (IH1 H). cbn [option_map]. rewrite (emitField_plain _ Hq).
        now destruct cur.
      * intros H. apply Hstep; [|exact H].
        destruct cur as [|x cur]; [congruence|exact Hq].
Qed.

(** A quote that follows a backslash inside a field opens nothing.
    When the input is valid UTF-8 without U+FFFD and each of its quote
    runes is a separator or follows, inside its field, a backslash,
    [ShellSplitEx] returns the maximal runs of runes that are not
    separators, the backslashes and the quotes kept in them. *)
Theorem ShellSplitEx_escaped_quotes (s : string) (splitFn : rune -> bool) :
  Forall (fun r => r <> utf8.RuneError) (utf8.runes (list_ascii_of_string s)) ->
  quotesEscaped splitFn utf8.RuneError (utf8.runes (list_ascii_of_string s)) = true ->
  ShellSplitEx s splitFn = Some (wrap (maximalRuns splitFn (list_ascii_of_string s))).
Proof.
  intros Hc Hq. pose proof (ShellSplitEx_refines s splitFn (decode_isRune _ Hc)) as Ha.
  destruct (automaton_escaped splitFn _ (decode_isRune _ Hc)) as [H1 _].
  rewrite (H1 Hq) in Ha. exact Ha.
Qed.

Lemma ShellSplitEx_escaped_quotes_witness :
  ShellSplitEx ("say\'s it\'s  ok")%string unicode.IsSpace
  = Some (wrap (maximalRuns unicode.IsSpace (list_ascii_of_string "say\'s it\'s  ok"))).
Proof.
  apply ShellSplitEx_escaped_quotes.
  - forall_concrete.
  - vm_compute. reflexivity.
Defined.

(** ** The error for a quote that is not closed *)

(** When [ShellSplitEx] fails for a missing end quote, the error is the
    one of [findSplitCh] wrapping the one of [findEndQuote]; the index it
    names is that of the byte after an opening quote of the input, this
    quote is the one the cause names, the consumed text is the input up to
    and including that quote, no field is returned, and the whole input is
    valid UTF-8 without U+FFFD. *)
Theorem ShellSplitEx_unterminated_context (s : string) (splitFn : rune -> bool)
        (res : option (list string)) (e : error) :
  ShellSplitEx s splitFn = Some (res, e) ->
  tokenizerKind e = Some UnterminatedQuote ->
  exists start q,
    e = Errorf (MsgMatchingQuote start (consumed (list_ascii_of_string s) start))
               (Errorf (MsgNoEndQuote q) err_nil) /\
    openedAt (list_ascii_of_string s) start q /\
    res = None /\
    firstBad (list_ascii_of_string s) = None.
Proof.
  intros H Hk. assert (He : is_err e = true) by (destruct e; [discriminate| |]; reflexivity).
  destruct (ShellSplitEx_spec s splitFn) as (res' & e' & H' & P).
  rewrite H in H'. inversion H'; subst res' e'.
  destruct P as [(-> & _)|(-> & _ & _)]; [discriminate|].
  unfold ShellSplitEx in H.
  assert (Hc0 : clean (slice (list_ascii_of_string s) 0 0))
    by (rewrite slice_nil; apply clean_nil).
  destruct (mainLoop_err _ _ _ _ _ _ _ (Nat.le_0_l _) Hc0 H He)
    as [(idx' & m & Hm & Hen & _)|(start & q & -> & Ho & Hc)].
  - exfalso. pose proof (rootMessage_encoding _ _ _ _ Hm Hen) as K. congruence.
  - exists start, q. repeat split; try apply Ho. now apply firstBad_clean.
Qed.

Lemma ShellSplitEx_unterminated_context_witness :
  exists start q,
    Errorf (MsgMatchingQuote 5 ("say " ++ DQ)%string)
           (Errorf (MsgNoEndQuote quote_dbl) err_nil)
    = Errorf (MsgMatchingQuote start
                (consumed (list_ascii_of_string sample_unterminated) start))
             (Errorf (MsgNoEndQuote q) err_nil) /\
    openedAt (list_ascii_of_string sample_unterminated) start q /\
    @None (list string) = None /\
    firstBad (list_ascii_of_string sample_unterminated) = None.
Proof.
  apply (ShellSplitEx_unterminated_context sample_unterminated unicode.IsSpace).
  - vm_compute. reflexivity.
  - reflexivity.
Defined.

(** ** The lines of [ParseBootConfig] *)

Lemma split_unique (key value key' value' : string) :
  String.append key (String.append (String "=" EmptyString) value)
  = String.append key' (String.append (String "=" EmptyString) value') ->
  ~ hasEquals key -> ~ hasEquals key' -> key = key' /\ value = value'.
Proof.
  unfold hasEquals. revert key'.
  induction key as [|c key IH]; intros key' E Hk Hk'.
  - destruct key' as [|c' key']; cbn in E.
    + inversion E. auto.
    + inversion E; subst. elim Hk'. now left.
  - destruct key' as [|c' key']; cbn in E.
    + inversion E; subst. elim Hk. now left.
    + inversion E; subst.
      destruct (IH key' H1 (fun H => Hk (or_intror H)) (fun H => Hk' (or_intror H)))
        as [-> ->].
      auto.
Qed.

Lemma SplitN_entry (line key value : string) :
  line = String.append key (String.append (String "=" EmptyString) value) ->
  ~ hasEquals key ->
  strings.SplitN line equals_sign 2 = [key; value].
Proof.
  intros Hline Hkey.
  destruct (SplitN_equals line) as [[_ (key' & value' & Hkv & Hline' & Hkey')]|[Hn _]].
  - rewrite Hline in Hline' at 1.
    destruct (split_unique _ _ _ _ Hline' Hkey Hkey') as [-> ->]. exact Hkv.
  - elim Hn. unfold hasEquals. rewrite Hline, !list_ascii_of_string_app.
    apply in_or_app. right. now left.
Qed.

Lemma is_err_nil (e : error) : is_err e = false -> e = err_nil.
Proof. destruct e; [reflexivity|discriminate|discriminate]. Qed.

Lemma ParseBootConfig_loop_acc (scanner : bufio.Scanner) :
  forall cmds,
    ParseBootConfig_loop scanner cmds
    = match ParseBootConfig_loop scanner [] with
      | Some (Some outs, e) => Some (Some (cmds ++ outs), e)
      | r => r
      end.
Proof.
  induction scanner as [|raw scanner IH]; intros cmds; cbn [ParseBootConfig_loop].
  - now rewrite app_nil_r.
  - destruct (bufio.tooLong raw); [reflexivity|].
    destruct (negb _); [reflexivity|].
    destruct (ShellSplitEx _ _) as [[fields err]|]; [|reflexivity].
    destruct (is_err err); [reflexivity|].
    rewrite (IH (cmds ++ _)), (IH ([] ++ _)).
    destruct (ParseBootConfig_loop scanner []) as [[[outs|] e]|]; try reflexivity.
    now rewrite <- app_assoc.
Qed.

Lemma ParseBootConfig_loop_app (l1 l2 : bufio.Scanner) :
  forall cmds res e,
    ParseBootConfig_loop l1 cmds = Some (res, e) ->
    ParseBootConfig_loop (l1 ++ l2) cmds
    = if is_err e then Some (None, e) else ParseBootConfig_loop l2 (fieldsOf res).
Proof.
  induction l1 as [|raw l1 IH]; intros cmds res e H; cbn [app ParseBootConfig_loop] in *.
  - inversion H; subst. reflexivity.
  - destruct (bufio.tooLong raw); [inversion H; subst; reflexivity|].
    destruct (negb _); [inversion H; subst; reflexivity|].
    destruct (ShellSplitEx _ _) as [[fields err]|]; [|discriminate].
    destruct (is_err err); [inversion H; subst; reflexivity|].
    now apply IH.
Qed.

Lemma ParseBootConfig_loop_success (scanner : bufio.Scanner) :
  forall cmds,
    Forall lineParses scanner ->
    exists outs, ParseBootConfig_loop scanner cmds = Some (Some (cmds ++ outs), err_nil) /\
                 Forall2 entryOf scanner outs.
Proof.
  induction scanner as [|raw scanner IH]; intros cmds H; cbn [ParseBootConfig_loop].
  - exists []. split; [now rewrite app_nil_r|constructor].
  - inversion H as [|? ? [Hl (out & Hout)] H']; subst.
    pose proof Hout as (key & value & fields & Hline & Hkey & Hs & _).
    rewrite Hl, (SplitN_entry _ _ _ Hline Hkey). cbn [length Nat.eqb negb nth].
    rewrite Hs. cbn [is_err].
    match goal with
    | |- context [ParseBootConfig_loop scanner ?c] => destruct (IH c H') as (outs & -> & Hf)
    end.
    eexists (_ :: outs). split; [now rewrite <- app_assoc|].
    constructor; [|exact Hf]. exists key, value, fields. repeat split; auto.
Qed.

Lemma ParseBootConfig_loop_parses (scanner : bufio.Scanner) :
  forall cmds outs e,
    ParseBootConfig_loop scanner cmds = Some (Some outs, e) -> Forall lineParses scanner.
Proof.
  induction scanner as [|raw scanner IH]; intros cmds outs e H; [constructor|].
  pose proof (ParseBootConfig_loop_entries _ _ _ _ H) as (_ & outs' & _ & Hf).
  cbn [ParseBootConfig_loop] in H.
  destruct (bufio.tooLong raw) eqn:Hl; [discriminate|].
  destruct (negb _); [discriminate|].
  destruct (ShellSplitEx _ _) as [[fields err]|]; [|discriminate].
  destruct (is_err err); [discriminate|].
  constructor; [|now apply IH in H].
  split; [exact Hl|]. inversion Hf; subst. eauto.
Qed.

(** [ParseBootConfig] succeeds exactly when the scanner returns every
    line and every line has an equals sign and a value that
    [ShellSplitEx] splits without error.  It then returns a slice that is
    not nil, with one entry per line; for an input without lines this is
    the empty slice, not nil. *)
Theorem ParseBootConfig_succeeds_iff (input : string) :
  (Forall lineParses (bufio.NewScanner input) <->
   exists outs, ParseBootConfig input = Some (Some outs, err_nil)) /\
  (forall res, ParseBootConfig input = Some (res, err_nil) ->
               exists outs, res = Some outs /\
                            length outs = length (bufio.NewScanner input)) /\
  ParseBootConfig EmptyString = Some (Some [], err_nil).
Proof.
  unfold ParseBootConfig. split; [split|split; [|reflexivity]].
  - intros H. destruct (ParseBootConfig_loop_success _ [] H) as (outs & Ho & _). eauto.
  - intros [outs H]. now apply ParseBootConfig_loop_parses in H.
  - intros res H. destruct res as [outs|].
    + exists outs. split; [reflexivity|].
      apply ParseBootConfig_loop_entries in H. destruct H as (_ & outs' & -> & Hf).
      cbn [app]. symmetry. now apply Forall2_length in Hf.
    + apply ParseBootConfig_loop_error in H. destruct H as [_ H]. now elim H.
Qed.

(** The first line whose value [ShellSplitEx] rejects ends the call:
    when the lines before [raw] all parse and the value of [raw], what
    follows its first equals sign, is split with the error [e],
    [ParseBootConfig] returns no entries and the error that names the line
    as scanned and has [e] as its cause; the lines after [raw] are not
    looked at. *)
Theorem ParseBootConfig_value_error (input : string) (pre post : bufio.Scanner)
        (raw : list ascii) (key value : string) (res : option (list string)) (e : error) :
  bufio.NewScanner input = pre ++ raw :: post ->
  Forall lineParses pre ->
  bufio.tooLong raw = false ->
  bufio.Text raw = String.append key (String.append (String "=" EmptyString) value) ->
  ~ hasEquals key ->
  ShellSplitEx value spaceOrComma = Some (res, e) -> is_err e = true ->
  ParseBootConfig input = Some (None, Errorf (MsgAfterEq (bufio.Text raw)) e) /\
  configKind (Errorf (MsgAfterEq (bufio.Text raw)) e) = Some ValueParseError.
Proof.
  intros E Hpre Hl Hline Hkey Hs He. split; [|reflexivity].
  unfold ParseBootConfig. rewrite E.
  destruct (ParseBootConfig_loop_success pre [] Hpre) as (outs & Ho & _).
  rewrite (ParseBootConfig_loop_app pre (raw :: post) _ _ _ Ho). cbn [is_err fieldsOf].
  cbn [ParseBootConfig_loop]. rewrite Hl, (SplitN_entry _ _ _ Hline Hkey).
  cbn [length Nat.eqb negb nth]. rewrite Hs, He. reflexivity.
Qed.

(** A line of [bufio.MaxScanTokenSize] bytes or more stops the
    scanner: when the lines before it all parse, [ParseBootConfig] returns
    no entries and the scan error whose cause is [bufio.ErrTooLong]. *)
Theorem ParseBootConfig_line_too_long (input : string) (pre post : bufio.Scanner)
        (raw : list ascii) :
  bufio.NewScanner input = pre ++ raw :: post ->
  Forall lineParses pre ->
  (bufio.MaxScanTokenSize <= N.of_nat (length raw))%N ->
  ParseBootConfig input = Some (None, Errorf MsgScan ErrTooLong) /\
  configKind (Errorf MsgScan ErrTooLong) = Some ScanError.
Proof.
  intros E Hpre Hl. split; [|reflexivity].
  unfold ParseBootConfig. rewrite E.
  destruct (ParseBootConfig_loop_success pre [] Hpre) as (outs & Ho & _).
  rewrite (ParseBootConfig_loop_app pre (raw :: post) _ _ _ Ho). cbn [is_err fieldsOf].
  cbn [ParseBootConfig_loop]. unfold bufio.tooLong.
  apply N.leb_le in Hl. rewrite Hl. reflexivity.
Qed.

Lemma rawLines_app (a b : list ascii) :
  forall cur,
    bufio.rawLines (a ++ bufio.newline :: b) cur
    = bufio.rawLines (a ++ [bufio.newline]) cur ++ bufio.rawLines b [].
Proof.
  induction a as [|c a IH]; intros cur; cbn [app bufio.rawLines].
  - rewrite Ascii.eqb_refl. reflexivity.
  - destruct (Ascii.eqb c bufio.newline); [|apply IH].
    rewrite IH. reflexivity.
Qed.

(** Lines are handled one after the other and independently.  When
    [in1] is followed by a newline, [ParseBootConfig] on [in1], the
    newline and [in2] returns the error of the first part if it has one,
    else the error of [in2] if it has one, else the entries of the first
    part followed by those of [in2]. *)
Theorem ParseBootConfig_app (in1 in2 : string)
        (res1 res2 : option (list string)) (e1 e2 : error) :
  ParseBootConfig (in1 ++ NL)%string = Some (res1, e1) ->
  ParseBootConfig in2 = Some (res2, e2) ->
  ParseBootConfig (in1 ++ NL ++ in2)%string
  = Some (if is_err e1 then (None, e1)
          else if is_err e2 then (None, e2)
          else (Some (fieldsOf res1 ++ fieldsOf res2), err_nil)).
Proof.
  unfold ParseBootConfig, bufio.NewScanner. intros H1 H2.
  rewrite !list_ascii_of_string_app in *. cbn [NL list_ascii_of_string app] in *.
  change (list_ascii_of_string NL) with [bufio.newline] in *.
  cbn [app]. rewrite rawLines_app.
  rewrite (ParseBootConfig_loop_app _ _ _ _ _ H1).
  destruct (is_err e1); [reflexivity|].
  rewrite ParseBootConfig_loop_acc, H2.
  pose proof (ParseBootConfig_loop_error _ _ _ _ H2) as [Ha Hb].
  destruct (is_err e2) eqn:E2.
  - rewrite (Ha eq_refl). reflexivity.
  - apply is_err_nil in E2. subst e2. destruct res2 as [outs|]; [reflexivity|].
    now elim (Hb eq_refl).
Qed.

(** ** The properties of [ParseBootConfig] on sample inputs *)

Lemma ParseBootConfig_succeeds_iff_witness :
  Forall lineParses (bufio.NewScanner bootcfg).
Proof.
  apply (proj2 (proj1 (ParseBootConfig_succeeds_iff bootcfg))).
  eexists. vm_compute. reflexivity.
Defined.

Lemma lineParses_a1 : lineParses (list_ascii_of_string "a=1").
Proof.
  split; [vm_compute; reflexivity|].
  exists "a=1"%string, "a"%string, "1"%string, (Some ["1"%string]).
  split; [vm_compute; reflexivity|]. split; [|split; vm_compute; reflexivity].
  intros H. vm_compute in H. destruct H as [H|H]; [discriminate|exact H].
Qed.

Lemma ParseBootConfig_value_error_witness :
  ParseBootConfig sample_bad_value
  = Some (None,
          Errorf (MsgAfterEq (bufio.Text (list_ascii_of_string ("b=" ++ SQ))))
                 (Errorf (MsgMatchingQuote 1 SQ)
                         (Errorf (MsgNoEndQuote quote_sgl) err_nil))) /\
  configKind (Errorf (MsgAfterEq (bufio.Text (list_ascii_of_string ("b=" ++ SQ))))
                     (Errorf (MsgMatchingQuote 1 SQ)
                             (Errorf (MsgNoEndQuote quote_sgl) err_nil)))
  = Some ValueParseError.
Proof.
  apply (ParseBootConfig_value_error sample_bad_value
           [list_ascii_of_string "a=1"] [list_ascii_of_string "foo"]
           (list_ascii_of_string ("b=" ++ SQ)) "b" SQ None).
  - vm_compute. reflexivity.
  - apply Forall_cons; [exact lineParses_a1|apply Forall_nil].
  - vm_compute. reflexivity.
  - vm_compute. reflexivity.
  - intros H. vm_compute in H. destruct H as [H|H]; [discriminate|exact H].
  - vm_compute. reflexivity.
  - reflexivity.
Defined.

Lemma rawLines_no_newline (p : list ascii) :
  forall cur, ~ In bufio.newline p -> p <> [] -> bufio.rawLines p cur = [cur ++ p].
Proof.
  induction p as [|c p IH]; intros cur Hn Hp; [congruence|].
  cbn [bufio.rawLines].
  destruct (Ascii.eqb c bufio.newline) eqn:E.
  { apply Ascii.eqb_eq in E. elim Hn. now left. }
  destruct p as [|c' p].
  - cbn [bufio.rawLines]. destruct (cur ++ [c]) eqn:E2; [|reflexivity].
    apply app_eq_nil in E2. destruct E2; discriminate.
  - rewrite IH; [now rewrite <- app_assoc| |discriminate].
    intros H. apply Hn. now right.
Qed.

Lemma long_line_length : length long_line = N.to_nat bufio.MaxScanTokenSize.
Proof. apply repeat_length. Qed.

Lemma long_line_scanned :
  bufio.NewScanner ("a=1" ++ NL ++ string_of_list_ascii long_line)%string
  = [list_ascii_of_string "a=1"] ++ long_line :: [].
Proof.
  unfold bufio.NewScanner. rewrite !list_ascii_of_string_app.
  rewrite list_ascii_of_string_of_list_ascii.
  change (list_ascii_of_string NL) with [bufio.newline]. cbn [app].
  rewrite (rawLines_app (list_ascii_of_string "a=1") long_line []).
  change (bufio.rawLines (list_ascii_of_string "a=1" ++ [bufio.newline]) [])
    with [list_ascii_of_string "a=1"].
  rewrite rawLines_no_newline; [reflexivity| |].
  - intros H. apply repeat_spec in H. discriminate H.
  - intros H. apply (f_equal (@length _)) in H. rewrite long_line_length in H.
    cbn [length] in H. apply (f_equal N.of_nat) in H. rewrite N2Nat.id in H.
    discriminate H.
Qed.

Lemma ParseBootConfig_line_too_long_witness :
  ParseBootConfig ("a=1" ++ NL ++ string_of_list_ascii long_line)%string
  = Some (None, Errorf MsgScan ErrTooLong) /\
  configKind (Errorf MsgScan ErrTooLong) = Some ScanError.
Proof.
  apply (ParseBootConfig_line_too_long _ [list_ascii_of_string "a=1"] [] long_line).
  - exact long_line_scanned.
  - apply Forall_cons; [exact lineParses_a1|apply Forall_nil].
  - rewrite long_line_length, N2Nat.id. apply N.le_refl.
Defined.

Lemma ParseBootConfig_app_witness :
  ParseBootConfig ("a = 1, 2" ++ NL ++ "b=x y")%string
  = Some (Some ["a=1,2"; "b=x,y"]%string, err_nil).
Proof.
  apply (ParseBootConfig_app "a = 1, 2" "b=x y" (Some ["a=1,2"%string]) (Some ["b=x,y"%string])
                             err_nil err_nil).
  - vm_compute. reflexivity.
  - vm_compute. reflexivity.
Defined.
